(** * Zapper front-end: ledger, inlining, label checks, type inference and
    register allocation

    A shallow embedding of the parts of the Zapper front-end
    (src/frontend/zapper) that the ledger protocol and the assembly pipeline
    rest on, followed by the properties established about them.

    Conventions of the embedding.
    - Python exceptions are values of [exn]; a call that may raise returns a
      [Result].  Code that mutates an object runs in the state-and-exception
      monad [SE]: a raise keeps the mutations made so far, as in Python.
    - A Python object with identity ([Register], [Instruction]) is a record
      with an object id ([rid], [iid]); two Python objects are the same object
      ([is], dict and set membership of unhashed-by-value objects) exactly
      when their records are equal.
    - Mutable attributes of registers ([assembly_type], [location]) live in
      stores indexed by the register object.
    - The cryptographic back-end (zapper_backend) is an interface, see
      [Backend]. *)

From stdpp Require Import gmap strings list fin_maps pretty.
From Stdlib Require Import ZArith Lia HexString Ascii.

Local Open Scope Z_scope.
Local Open Scope string_scope.
Local Open Scope list_scope.

(* ===================================================================== *)
(** * Part I: definitions                                                 *)
(* ===================================================================== *)

(** ** Python exceptions, results, and the state-and-exception monad *)

Module Py.

(** The exception classes the modelled code raises.  [RecursionError] is
    Python's built-in of that name; no modelled function raises it. *)
Inductive exn : Type :=
| KeyError (msg : string)
| IndexError (msg : string)
| AttributeError (msg : string)
| AssertionError (msg : string)
| ValueError (msg : string)
| RecursionError (msg : string)
| AssemblySecurityException (msg : string)
| AssemblyTypeError (msg : string)
| TxRejectedException (msg : string).

(** [str(e)] *)
Definition exn_str (e : exn) : string :=
  match e with
  | KeyError m | IndexError m | AttributeError m | AssertionError m
  | ValueError m | RecursionError m | AssemblySecurityException m
  | AssemblyTypeError m | TxRejectedException m => m
  end.

Inductive Result (A : Type) : Type :=
| Ok (a : A)
| Raise (e : exn).
Global Arguments Ok {A} a.
Global Arguments Raise {A} e.

Definition is_ok {A} (r : Result A) : bool :=
  match r with Ok _ => true | Raise _ => false end.

(** Sequencing of calls that may raise and touch no state. *)
Definition rbind {A B} (r : Result A) (k : A -> Result B) : Result B :=
  match r with
  | Ok a => k a
  | Raise e => Raise e
  end.

(** A computation over a mutable state [S] that returns an [A] or raises. *)
Definition SE (S A : Type) : Type := S -> S * Result A.

Definition ret {S A} (a : A) : SE S A := fun s => (s, Ok a).

Definition bind {S A B} (m : SE S A) (k : A -> SE S B) : SE S B :=
  fun s =>
    match m s with
    | (s', Ok a) => k a s'
    | (s', Raise e) => (s', Raise e)
    end.

Definition raise {S A} (e : exn) : SE S A := fun s => (s, Raise e).
Definition get {S} : SE S S := fun s => (s, Ok s).
Definition put {S} (s : S) : SE S unit := fun _ => (s, Ok tt).
Definition modify {S} (f : S -> S) : SE S unit := fun s => (f s, Ok tt).

(** [if c: raise e] *)
Definition raise_if {S} (c : bool) (e : exn) : SE S unit :=
  if c then raise e else ret tt.

(** Lifting a result that touches no state. *)
Definition of_result {S A} (r : Result A) : SE S A := fun s => (s, r).

(** Running a computation on a component of the state. *)
Definition zoom {S T A} (proj : S -> T) (inj : T -> S -> S)
    (m : SE T A) : SE S A :=
  fun s => let '(t', r) := m (proj s) in (inj t' s, r).

(** [try: m except BaseException as e: raise handler(e)] *)
Definition try_except {S A} (m : SE S A) (handler : exn -> exn) : SE S A :=
  fun s =>
    match m s with
    | (s', Ok a) => (s', Ok a)
    | (s', Raise e) => (s', Raise (handler e))
    end.

End Py.
Export Py.

Notation "'let!' x ':=' m 'in' k" := (Py.bind m (fun x => k))
  (at level 10, x pattern, m at level 100, k at level 200).
Notation "'do!' m 'in' k" := (Py.bind m (fun _ => k))
  (at level 10, m at level 100, k at level 200).

Notation "'try!' x ':=' r 'in' k" := (Py.rbind r (fun x => k))
  (at level 10, x pattern, r at level 100, k at level 200).

(** [for x in xs: body(x)] *)
Fixpoint for_each {S A} (xs : list A) (body : A -> SE S unit) : SE S unit :=
  match xs with
  | [] => ret tt
  | x :: xs' => do! body x in for_each xs' body
  end.

(** ** utils/general.py *)

Module General.

(** [get_duplicates]: the elements met again while scanning [it], in the
    order in which they are met again.  [unique] is the set built so far. *)
Fixpoint get_duplicates_from `{EqDecision T} (unique : list T) (it : list T)
    : list T :=
  match it with
  | [] => []
  | x :: it' =>
      if bool_decide (x ∈ unique)
      then x :: get_duplicates_from unique it'
      else get_duplicates_from (x :: unique) it'
  end.

Definition get_duplicates `{EqDecision T} (it : list T) : list T :=
  get_duplicates_from [] it.

(** [s[n:]] on strings *)
Fixpoint string_drop (n : nat) (s : string) : string :=
  match n, s with
  | O, _ => s
  | S n', String _ s' => string_drop n' s'
  | S _, EmptyString => EmptyString
  end.

(** [to_hex_str]: [hex(x)[2:]], padded with a leading zero to even length.
    [HexString.of_Z] prints as Python's [hex] does ("0xff", "-0x5"). *)
Definition to_hex_str (x : Z) : string :=
  let s := string_drop 2 (HexString.of_Z x) in
  if Nat.even (String.length s) then s else "0" +:+ s.

End General.

(** ** Python dicts as association lists in insertion order *)

Module Dict.
Section Dict.
Context {K V : Type} `{EqDecision K}.

(** [d[k]], [None] standing for a [KeyError] *)
Fixpoint dict_get (k : K) (d : list (K * V)) : option V :=
match d with
| [] => None
| (k', v) :: d' => if decide (k = k') then Some v else dict_get k d'
end.

(** [d[k] = v]: an existing key keeps its place, a new key goes last. *)
Fixpoint dict_set (k : K) (v : V) (d : list (K * V)) : list (K * V) :=
match d with
| [] => [(k, v)]
| (k', v') :: d' =>
    if decide (k = k') then (k', v) :: d' else (k', v') :: dict_set k v d'
end.

(** [del d[k]] *)
Fixpoint dict_del (k : K) (d : list (K * V)) : list (K * V) :=
match d with
| [] => []
| (k', v') :: d' =>
    if decide (k = k') then d' else (k', v') :: dict_del k d'
end.

Definition dict_keys (d : list (K * V)) : list K := fst <$> d.
Definition dict_values (d : list (K * V)) : list V := snd <$> d.

End Dict.
End Dict.
Export Dict.

(** [l.remove(x)]: drops the first occurrence (the callers below test
    membership first, so the [ValueError] of an absent [x] is never met). *)
Fixpoint list_remove `{EqDecision A} (x : A) (l : list A) : list A :=
  match l with
  | [] => []
  | y :: l' => if decide (x = y) then l' else y :: list_remove x l'
  end.

(** ** zapper/assembly: the IR *)

Module Asm.

(** *** lang/types.py, assembly/types.py *)

(** An assembly type is [Uint], [Long], [Address] or the qualified name of
    a class (a [str]). *)
Inductive AssemblyType : Type :=
| Uint
| Long
| Address
| ClassType (qualified_name : string).

Global Instance AssemblyType_eq_dec : EqDecision AssemblyType.
Proof. solve_decision. Defined.

Definition is_uint (t : option AssemblyType) : bool :=
  bool_decide (t = Some Uint).
Definition is_long (t : option AssemblyType) : bool :=
  bool_decide (t = Some Long).
Definition is_address (t : option AssemblyType) : bool :=
  bool_decide (t = Some Address).

(** [is_assembly_type]: [None] is the only non-type a value of the model
    can carry. *)
Definition is_assembly_type (t : option AssemblyType) : bool :=
  match t with Some _ => true | None => false end.

Definition check_assembly_type (t : option AssemblyType) : Result unit :=
  if is_assembly_type t then Ok tt
  else Raise (AssemblyTypeError "Type None is not supported").

(** [check_assembly_supertype]: ensure that [lhs = rhs] type-checks. *)
Definition check_assembly_supertype (lhs_type rhs_type : option AssemblyType)
    : Result unit :=
  match check_assembly_type lhs_type with
  | Raise e => Raise e
  | Ok _ =>
      match check_assembly_type rhs_type with
      | Raise e => Raise e
      | Ok _ =>
          if bool_decide (lhs_type <> rhs_type)
          then Raise (AssemblyTypeError
                        "Mismatch between expected type and actual type")
          else Ok tt
      end
  end.

(** *** assembly/values.py, assembly/references.py, assembly/fields.py *)

(** A register object.  [rid] is the identity of the object: two registers
    with the same label and different [rid] are distinct objects. *)
Record Register : Type := {
  label : string;
  rid : nat;
}.

Global Instance Register_eq_dec : EqDecision Register.
Proof. solve_decision. Defined.

Record QualifiedReference : Type := {
  qualified_class_name : string;
  name : string;
  qr_field_type : AssemblyType;
}.

Global Instance QualifiedReference_eq_dec : EqDecision QualifiedReference.
Proof. solve_decision. Defined.

Record AssemblyField : Type := {
  field_name : string;
  field_type : AssemblyType;
  field_location : option Z;
}.

Global Instance AssemblyField_eq_dec : EqDecision AssemblyField.
Proof. solve_decision. Defined.

(** What a [FieldReference] points to: an [AssemblyField] of the storage
    once linked, a [QualifiedReference] before. *)
Inductive FieldTarget : Type :=
| LinkedField (f : AssemblyField)
| UnlinkedField (q : QualifiedReference).

Global Instance FieldTarget_eq_dec : EqDecision FieldTarget.
Proof. solve_decision. Defined.

(** [FieldReference]: [fr_assembly_type] is the [field_type] read when the
    reference is built. *)
Record FieldReference : Type := {
  field : FieldTarget;
  fr_assembly_type : AssemblyType;
}.

Global Instance FieldReference_eq_dec : EqDecision FieldReference.
Proof. solve_decision. Defined.

(** [ClassReference.assembly_class] and [NewInstruction.assembly_class]:
    the class object once linked (named by its [qualified_name]), a [str]
    before. *)
Inductive ClassTarget : Type :=
| LinkedClass (qualified_name : string)
| UnlinkedClass (name : string).

Global Instance ClassTarget_eq_dec : EqDecision ClassTarget.
Proof. solve_decision. Defined.

Inductive Value : Type :=
| VRegister (r : Register)
| VConstant (value : Z) (assembly_type : AssemblyType)
| VFieldReference (f : FieldReference)
| VClassReference (c : ClassTarget).

Global Instance Value_eq_dec : EqDecision Value.
Proof. solve_decision. Defined.

(** [isinstance(v, Register)] on an optional operand *)
Definition as_register (v : option Value) : option Register :=
  match v with
  | Some (VRegister r) => Some r
  | _ => None
  end.

(** *** assembly/binary_operations.py *)

Inductive BinaryOperator : Type := PLUS | MINUS | MULTIPLY | EQUALS | LESS.

Global Instance BinaryOperator_eq_dec : EqDecision BinaryOperator.
Proof. solve_decision. Defined.

(** *** assembly/instructions *)

(** What the code reads through [CallInstruction.function] once it points
    to an [AssemblyFunction]: the qualified name of its class, its name,
    its argument registers and its return register. *)
Record FunctionPointer : Type := {
  fp_class : string;
  fp_name : string;
  fp_argument_registers : list Register;
  fp_return_register : Register;
}.

Global Instance FunctionPointer_eq_dec : EqDecision FunctionPointer.
Proof. solve_decision. Defined.

Inductive CallTarget : Type :=
| LinkedFunction (f : FunctionPointer)
| UnlinkedFunction (q : QualifiedReference).

Global Instance CallTarget_eq_dec : EqDecision CallTarget.
Proof. solve_decision. Defined.

(** The subclass of [Instruction] an object belongs to, with the
    attributes the subclass adds to [register], [value_1], [value_2]. *)
Inductive InstructionKind : Type :=
| NOOP
| MOV
| CMOV
| REQ
| LOAD
| STORE
| KILL
| PK
| NEW (assembly_class : ClassTarget)
| CID
| FRESH
| NOW
| BINOP (op : BinaryOperator)
| CALL (function : CallTarget) (call_arguments : list Value)
       (sender_is_self : bool).

Global Instance InstructionKind_eq_dec : EqDecision InstructionKind.
Proof. solve_decision. Defined.

(** An instruction object ([iid] is its identity); the [stack] attribute,
    kept for diagnostics only, is left out. *)
Record Instruction : Type := {
  iid : nat;
  kind : InstructionKind;
  register : option Register;
  value_1 : option Value;
  value_2 : option Value;
}.

Global Instance Instruction_eq_dec : EqDecision Instruction.
Proof. solve_decision. Defined.

(** The constructors of the subclasses; [id] is the new object. *)
Definition NoOpInstruction (id : nat) : Instruction :=
  {| iid := id; kind := NOOP; register := None;
     value_1 := None; value_2 := None |}.
Definition MoveInstruction (id : nat) (destination : Register)
    (source : Value) : Instruction :=
  {| iid := id; kind := MOV; register := Some destination;
     value_1 := Some source; value_2 := None |}.
Definition ConditionalMoveInstruction (id : nat) (destination : Register)
    (condition source : Value) : Instruction :=
  {| iid := id; kind := CMOV; register := Some destination;
     value_1 := Some condition; value_2 := Some source |}.
Definition RequireInstruction (id : nat) (condition : Value) : Instruction :=
  {| iid := id; kind := REQ; register := None;
     value_1 := Some condition; value_2 := None |}.
Definition LoadInstruction (id : nat) (destination : Register)
    (object_id : Value) (fld : FieldReference) : Instruction :=
  {| iid := id; kind := LOAD; register := Some destination;
     value_1 := Some object_id; value_2 := Some (VFieldReference fld) |}.
Definition StoreInstruction (id : nat) (source : Register)
    (target_object_id : Value) (fld : FieldReference) : Instruction :=
  {| iid := id; kind := STORE; register := Some source;
     value_1 := Some target_object_id;
     value_2 := Some (VFieldReference fld) |}.
Definition KillInstruction (id : nat) (object_id : Register) : Instruction :=
  {| iid := id; kind := KILL; register := None;
     value_1 := Some (VRegister object_id); value_2 := None |}.
Definition PublicKeyInstruction (id : nat) (destination : Register)
    (object_id : Value) : Instruction :=
  {| iid := id; kind := PK; register := Some destination;
     value_1 := Some object_id; value_2 := None |}.
Definition NewInstruction (id : nat) (destination : Register)
    (assembly_class : ClassTarget) : Instruction :=
  {| iid := id; kind := NEW assembly_class; register := Some destination;
     value_1 := Some (VClassReference assembly_class); value_2 := None |}.
Definition CidInstruction (id : nat) (destination : Register)
    (object_id : Value) : Instruction :=
  {| iid := id; kind := CID; register := Some destination;
     value_1 := Some object_id; value_2 := None |}.
Definition FreshInstruction (id : nat) (destination : Register)
    : Instruction :=
  {| iid := id; kind := FRESH; register := Some destination;
     value_1 := None; value_2 := None |}.
Definition NowInstruction (id : nat) (destination : Register) : Instruction :=
  {| iid := id; kind := NOW; register := Some destination;
     value_1 := None; value_2 := None |}.
Definition BinaryOperationInstruction (id : nat) (op : BinaryOperator)
    (destination : Register) (v1 v2 : Value) : Instruction :=
  {| iid := id; kind := BINOP op; register := Some destination;
     value_1 := Some v1; value_2 := Some v2 |}.
Definition CallInstruction (id : nat) (destination : Register)
    (function : CallTarget) (call_arguments : list Value)
    (sender_is_self : bool) : Instruction :=
  {| iid := id; kind := CALL function call_arguments sender_is_self;
     register := Some destination; value_1 := None; value_2 := None |}.

(** [isinstance(i, CallInstruction)], [isinstance(i, NewInstruction)], ... *)
Definition is_call (i : Instruction) : bool :=
  match kind i with CALL _ _ _ => true | _ => false end.
Definition is_new (i : Instruction) : bool :=
  match kind i with NEW _ => true | _ => false end.
Definition is_store (i : Instruction) : bool :=
  match kind i with STORE => true | _ => false end.

(** [WriteInstruction]: every subclass but REQ, STORE, KILL and NOOP. *)
Definition is_write (i : Instruction) : bool :=
  match kind i with
  | NOOP | REQ | STORE | KILL => false
  | _ => true
  end.

(** [get_arguments]; [CallInstruction] overrides it. *)
Definition get_arguments (i : Instruction) : list (option Value) :=
  match kind i with
  | CALL _ call_arguments _ =>
      (VRegister <$> register i) :: (Some <$> call_arguments)
  | _ => [VRegister <$> register i; value_1 i; value_2 i]
  end.

(** [Instruction.get_registers]: the arguments that are registers, in
    order and with repetitions. *)
Definition get_registers (i : Instruction) : list Register :=
  omap as_register (get_arguments i).

(** *** assembly/functions.py, assembly/assembly_class.py *)

(** [assembly_class] is the back reference to the owning class, held as
    the qualified name of that class. *)
Record AssemblyFunction : Type := {
  function_name : string;
  instructions : list Instruction;
  runtime_type_check_instructions : list Instruction;
  me_register : Register;
  argument_registers : list Register;
  return_register : Register;
  is_constructor : bool;
  is_private : bool;
  is_private_for : option string;
  assembly_class : option string;
}.

Record AssemblyClass : Type := {
  qualified_name : string;
  has_address : bool;
  fields : list (string * AssemblyField);
  functions : list (string * AssemblyFunction);
  class_id : option nat;
}.

Definition set_functions (fs : list (string * AssemblyFunction))
    (c : AssemblyClass) : AssemblyClass :=
  {| qualified_name := qualified_name c;
     has_address := has_address c;
     fields := fields c;
     functions := fs;
     class_id := class_id c |}.

(** [AssemblyFunction.get_all_instructions] *)
Definition get_all_instructions (f : AssemblyFunction) : list Instruction :=
  runtime_type_check_instructions f ++ instructions f.

(** [AssemblyFunction.get_registers]: a [set] of register objects.  It is
    listed here in the order of first occurrence, [me] last when it occurs
    nowhere else; Python fixes no order on it. *)
Definition AssemblyFunction_get_registers (f : AssemblyFunction)
    : list Register :=
  remove_dups
    (concat (get_registers <$> get_all_instructions f) ++ [me_register f]).

(** *** The checks of Phase L3 and L5 (assembly/functions.py) *)

(** [sep.join(l)] *)
Definition join (sep : string) (l : list string) : string :=
  String.concat sep l.

(** [check_register_labels].  The comprehension of the source reads
    [[n for n in names if '.' in names]]: its condition tests whether the
    list [names] has the element ["."]. *)
Definition check_register_labels (f : AssemblyFunction) : Result unit :=
  let registers := AssemblyFunction_get_registers f in
  let names := label <$> registers in
  let with_dot := filter (fun n => "." ∈ names) names in
  if negb (Nat.eqb (length with_dot) 0)
  then Raise (AssemblySecurityException
                ("Register labels with dots: " +:+ join " " with_dot))
  else
    let duplicates := General.get_duplicates names in
    if negb (Nat.eqb (length duplicates) 0)
    then Raise (AssemblySecurityException
                  ("Register labels are not unique: "
                   +:+ join " " duplicates))
    else Ok tt.

(** The first loop of [_check_all_fields_initialized_for]: the names of
    the fields stored through [self_register].  [i.field.field.field_name]
    needs a linked field reference as second value. *)
Fixpoint written_fields (self_register : option Register)
    (instrs : list Instruction) (written : list string)
    : Result (list string) :=
  match instrs with
  | [] => Ok written
  | i :: instrs' =>
      if is_store i then
        if bool_decide (value_1 i = (VRegister <$> self_register)) then
          match value_2 i with
          | Some (VFieldReference {| field := LinkedField fld |}) =>
              written_fields self_register instrs' (field_name fld :: written)
          | _ => Raise (AttributeError "field_name")
          end
        else written_fields self_register instrs' written
      else written_fields self_register instrs' written
  end.

(** The second loop: every field of the owning class must be written. *)
Fixpoint all_fields_written (field_names written : list string)
    : Result unit :=
  match field_names with
  | [] => Ok tt
  | field_name :: rest =>
      if bool_decide (field_name ∈ written)
      then all_fields_written rest written
      else Raise (AssemblySecurityException
                    ("Field '" +:+ field_name
                     +:+ "' not initialized in constructor"))
  end.

(** [owner] is the class object [self.assembly_class] points to. *)
Definition _check_all_fields_initialized_for (owner : option AssemblyClass)
    (self_register : option Register) (instrs : list Instruction)
    : Result unit :=
  try! written := written_fields self_register instrs [] in
  match owner with
  | None => Raise (AttributeError "fields")
  | Some c => all_fields_written (dict_keys (fields c)) written
  end.

(** The loop [for i in range(1, len(self.instructions))] of
    [check_constructor], run over [self.instructions[1:]]. *)
Fixpoint check_no_later_new (later : list Instruction) : Result unit :=
  match later with
  | [] => Ok tt
  | i :: later' =>
      if is_new i
      then Raise (AssemblySecurityException
                    "NEW instruction must be first instruction in instruction list")
      else check_no_later_new later'
  end.

Definition check_constructor (owner : option AssemblyClass)
    (f : AssemblyFunction) : Result unit :=
  try! _ := check_no_later_new (drop 1 (instructions f)) in
  match instructions f with
  | [] => Raise (IndexError "list index out of range")
  | first :: _ =>
      if is_new first
      then _check_all_fields_initialized_for owner (register first)
             (instructions f)
      else Ok tt
  end.

(** *** Type inference (assembly/instructions/*.py) *)

(** The [assembly_type] attribute of the register objects. *)
Definition Types : Type := Register -> option AssemblyType.

Definition set_type (r : Register) (t : option AssemblyType) (ty : Types)
    : Types :=
  fun r' => if decide (r' = r) then t else ty r'.

(** [v.assembly_type] *)
Definition value_type (ty : Types) (v : Value) : option AssemblyType :=
  match v with
  | VRegister r => ty r
  | VConstant _ t => Some t
  | VFieldReference f => Some (fr_assembly_type f)
  | VClassReference _ => None
  end.

(** [x.assembly_type] on an operand slot, which may hold [None]. *)
Definition operand_type (ty : Types) (v : option Value)
    : Result (option AssemblyType) :=
  match v with
  | Some v => Ok (value_type ty v)
  | None => Raise (AttributeError "assembly_type")
  end.

Definition destination_type (ty : Types) (i : Instruction)
    : Result (option AssemblyType) :=
  operand_type ty (VRegister <$> register i).

(** The loop of [CallInstruction.check_argument_types] over
    [zip(expected, actual)]. *)
Fixpoint check_call_arguments (ty : Types) (expected : list Register)
    (actual : list Value) : Result unit :=
  match expected, actual with
  | e :: expected', a :: actual' =>
      try! _ := check_assembly_supertype (ty e) (value_type ty a) in
      check_call_arguments ty expected' actual'
  | _, _ => Ok tt
  end.

(** [check_argument_types]: [pass] unless the subclass overrides it. *)
Definition check_argument_types (ty : Types) (i : Instruction)
    : Result unit :=
  match kind i with
  | CMOV =>
      try! d := destination_type ty i in
      try! s := operand_type ty (value_2 i) in
      if bool_decide (d <> s)
      then Raise (AssemblyTypeError "Types must match for CMOV")
      else
        try! c := operand_type ty (value_1 i) in
        if negb (is_uint c)
        then Raise (AssemblyTypeError
                      "Condition of CMOV must be a boolean value")
        else Ok tt
  | BINOP op =>
      try! t1 := operand_type ty (value_1 i) in
      if bool_decide (op = EQUALS) then
        try! t2 := operand_type ty (value_2 i) in
        if bool_decide (t1 <> t2)
        then Raise (AssemblyTypeError "Types should match for ==")
        else Ok tt
      else
        if negb (is_uint t1)
        then Raise (AssemblyTypeError
                      "Binary operations +-*>< only supported for uint")
        else
          try! t2 := operand_type ty (value_2 i) in
          if negb (is_uint t2)
          then Raise (AssemblyTypeError
                        "Binary operations +-*>< only supported for uint")
          else Ok tt
  | CALL (LinkedFunction f) call_arguments _ =>
      if negb (Nat.eqb (length (fp_argument_registers f))
                       (length call_arguments))
      then Raise (AssemblyTypeError "Incorrect number of arguments")
      else check_call_arguments ty (fp_argument_registers f) call_arguments
  | CALL (UnlinkedFunction _) _ _ =>
      Raise (AttributeError "argument_registers")
  | _ => Ok tt
  end.

(** [infer_written_type] of each [WriteInstruction] subclass. *)
Definition infer_written_type (ty : Types) (i : Instruction)
    : Result (option AssemblyType) :=
  match kind i with
  | MOV => operand_type ty (value_1 i)
  | CMOV => operand_type ty (value_2 i)
  | LOAD => operand_type ty (value_2 i)
  | NEW (LinkedClass qualified_name) => Ok (Some (ClassType qualified_name))
  | NEW (UnlinkedClass _) => Raise (AttributeError "qualified_name")
  | PK => Ok (Some Address)
  | CID => Ok (Some Long)
  | FRESH => Ok (Some Long)
  | NOW => Ok (Some Uint)
  | BINOP _ => Ok (Some Uint)
  | CALL (LinkedFunction f) _ _ => Ok (ty (fp_return_register f))
  | CALL (UnlinkedFunction _) _ _ => Raise (AttributeError "return_register")
  | NOOP | REQ | STORE | KILL => Raise (AttributeError "infer_written_type")
  end.

(** [WriteInstruction.infer_and_check_types] *)
Definition write_infer_and_check_types (allow_type_change : bool)
    (i : Instruction) : SE Types unit :=
  let! ty := get in
  do! of_result (check_argument_types ty i) in
  let! written_type := of_result (infer_written_type ty i) in
  do! raise_if (negb (is_assembly_type written_type))
        (ValueError "Unexpected type None") in
  match register i with
  | None => raise (AttributeError "assembly_type")
  | Some destination =>
      if allow_type_change || bool_decide (ty destination = None)
      then modify (set_type destination written_type)
      else of_result (check_assembly_supertype (ty destination) written_type)
  end.

(** [infer_and_check_types] of every instruction class. *)
Definition infer_and_check_types (allow_type_change : bool)
    (i : Instruction) : SE Types unit :=
  match kind i with
  | NOOP => ret tt
  | KILL =>
      let! ty := get in
      do! of_result (operand_type ty (value_1 i)) in ret tt
  | REQ =>
      let! ty := get in
      let! c := of_result (operand_type ty (value_1 i)) in
      of_result (check_assembly_supertype (Some Uint) c)
  | STORE =>
      let! ty := get in
      let! f := of_result (operand_type ty (value_2 i)) in
      let! src := of_result (destination_type ty i) in
      of_result (check_assembly_supertype f src)
  | _ => write_infer_and_check_types allow_type_change i
  end.

(** The rules of the instruction set, in the words of its description:
    the partner of [check_argument_types] and [infer_written_type]. *)

(** The variants of [WriteInstruction] other than CALL. *)
Definition plain_write (k : InstructionKind) : Prop :=
  match k with
  | MOV | CMOV | LOAD | PK | CID | FRESH | NOW | BINOP _ => True
  | NEW _ => True
  | _ => False
  end.

(** An instruction built by the constructor of its class: the operand
    slots its class uses are filled, and NEW names a linked class. *)
Definition well_formed (i : Instruction) : Prop :=
  is_Some (register i) /\
  match kind i with
  | MOV | PK | CID => is_Some (value_1 i)
  | CMOV | LOAD | BINOP _ => is_Some (value_1 i) /\ is_Some (value_2 i)
  | NEW c => exists n, c = LinkedClass n
  | _ => True
  end.

(** The type the instruction writes, by the table of the instruction set. *)
Definition rule_written_type (ty : Types) (i : Instruction)
    : option AssemblyType :=
  match kind i with
  | MOV => v ← value_1 i; value_type ty v
  | CMOV => v ← value_2 i; value_type ty v
  | LOAD => v ← value_2 i; value_type ty v
  | NEW (LinkedClass n) => Some (ClassType n)
  | PK => Some Address
  | CID | FRESH => Some Long
  | NOW | BINOP _ => Some Uint
  | _ => None
  end.

(** The requirements on the operands: CMOV wants a [Uint] condition and a
    destination that already has the type of the source; PLUS, MINUS,
    MULTIPLY and LESS want two [Uint]; EQUALS wants two operands of one
    type. *)
Definition rule_operands (ty : Types) (i : Instruction) : Prop :=
  match kind i with
  | CMOV =>
      (d ← register i; ty d) = (v ← value_2 i; value_type ty v) /\
      (v ← value_1 i; value_type ty v) = Some Uint
  | BINOP EQUALS =>
      (v ← value_1 i; value_type ty v) = (v ← value_2 i; value_type ty v)
  | BINOP _ =>
      (v ← value_1 i; value_type ty v) = Some Uint /\
      (v ← value_2 i; value_type ty v) = Some Uint
  | _ => True
  end.

(** *** Inlining (assembly/functions.py, assembly/assembly_storage.py) *)

(** The classes of [classes_to_check] are the objects stored in
    [assembly_classes] ([add_class] puts a class into both), so the list
    holds their keys. *)
Record AssemblyStorage : Type := {
  assembly_classes : list (string * AssemblyClass);
  classes_to_check : list string;
  class_to_id : list (string * nat);
  _next_class_id : nat;
}.

Definition set_assembly_classes (cs : list (string * AssemblyClass))
    (st : AssemblyStorage) : AssemblyStorage :=
  {| assembly_classes := cs;
     classes_to_check := classes_to_check st;
     class_to_id := class_to_id st;
     _next_class_id := _next_class_id st |}.

(** [AssemblyStorage.__init__] *)
Definition AssemblyStorage_init : AssemblyStorage :=
  {| assembly_classes := [];
     classes_to_check := [];
     class_to_id := [];
     _next_class_id := 0%nat |}.

(** [c.class_id = v] *)
Definition set_class_id (v : nat) (c : AssemblyClass) : AssemblyClass :=
  {| qualified_name := qualified_name c;
     has_address := has_address c;
     fields := fields c;
     functions := functions c;
     class_id := Some v |}.

(** The double quote of the messages. *)
Definition dquote : string := String (Ascii.ascii_of_nat 34) EmptyString.

(** [AssemblyStorage.add_class]; [classes_to_check] holds the name of the
    class object that [assembly_classes] holds. *)
Definition add_class (c : AssemblyClass) : SE AssemblyStorage unit :=
  let! st := get in
  do! raise_if
        (bool_decide (qualified_name c ∈ dict_keys (assembly_classes st)))
        (AssemblySecurityException
           ("Tried adding class " +:+ qualified_name c +:+ " twice")) in
  match dict_get "owner" (fields c) with
  | None =>
      raise (AssemblySecurityException
               ("Class " +:+ qualified_name c +:+ " does not define an "
                +:+ dquote +:+ "owner" +:+ dquote +:+ " field"))
  | Some owner =>
      do! raise_if (negb (is_address (Some (field_type owner))))
            (AssemblySecurityException
               ("Field " +:+ dquote +:+ "owner" +:+ dquote +:+ " of class "
                +:+ qualified_name c +:+ " does not have address type")) in
      do! raise_if (negb (bool_decide (field_location owner = Some 0%Z)))
            (AssemblySecurityException
               ("Field " +:+ dquote +:+ "owner" +:+ dquote +:+ " of class "
                +:+ qualified_name c +:+ " is not at location 0")) in
      put {| assembly_classes :=
               dict_set (qualified_name c)
                 (set_class_id (_next_class_id st) c) (assembly_classes st);
             classes_to_check := classes_to_check st ++ [qualified_name c];
             class_to_id :=
               dict_set (qualified_name c) (_next_class_id st)
                 (class_to_id st);
             _next_class_id := S (_next_class_id st) |}
  end.

(** [AssemblyStorage.reset_new_classes] *)
Definition reset_new_classes (st : AssemblyStorage) : AssemblyStorage :=
  {| assembly_classes := assembly_classes st;
     classes_to_check := [];
     class_to_id := class_to_id st;
     _next_class_id := _next_class_id st |}.

(** [get_called_function_names]: a [set] of (class, function) names, listed
    in the order of the first call. *)
Fixpoint get_called_function_names_from (instrs : list Instruction)
    (called : list (string * string)) : Result (list (string * string)) :=
  match instrs with
  | [] => Ok called
  | instruction :: instrs' =>
      match kind instruction with
      | CALL (LinkedFunction called_function) _ _ =>
          let k := (fp_class called_function, fp_name called_function) in
          get_called_function_names_from instrs'
            (if bool_decide (k ∈ called) then called else called ++ [k])
      | CALL (UnlinkedFunction _) _ _ =>
          Raise (AssertionError "isinstance(called_function, AssemblyFunction)")
      | _ => get_called_function_names_from instrs' called
      end
  end.

Definition get_called_function_names (f : AssemblyFunction)
    : Result (list (string * string)) :=
  get_called_function_names_from (instructions f) [].

(** The allocator of object ids: the state of the constructors
    [Register(...)] and [Instruction.__new__]. *)
Definition fresh : SE nat nat := fun next => (S next, Ok next).

(** [Register.clone] *)
Definition clone (r : Register) (postfix : option string)
    : SE nat Register :=
  match postfix with
  | None => ret r
  | Some p =>
      let! id := fresh in
      ret {| label := label r +:+ "#" +:+ p; rid := id |}
  end.

(** The body of the loop of [get_inlined_equivalent] for one attribute
    that holds a register; [mapping] is the dict the caller shares. *)
Definition inline_register (postfix : option string) (value : Register)
    (mapping : list (Register * Register))
    : SE nat (Register * list (Register * Register)) :=
  match dict_get value mapping with
  | Some new_value => ret (new_value, mapping)
  | None =>
      let! new_value := clone value postfix in
      ret (new_value, dict_set value new_value mapping)
  end.

Definition inline_value (postfix : option string) (v : option Value)
    (mapping : list (Register * Register))
    : SE nat (option Value * list (Register * Register)) :=
  match v with
  | Some (VRegister r) =>
      let! (r', mapping') := inline_register postfix r mapping in
      ret (Some (VRegister r'), mapping')
  | _ => ret (v, mapping)
  end.

(** [Instruction.get_inlined_equivalent]: a new object of the same class;
    the attributes [register], [value_1], [value_2] are the ones that can
    hold a register, every other attribute is copied. *)
Definition get_inlined_equivalent (i : Instruction)
    (mapping : list (Register * Register)) (postfix : option string)
    : SE nat (Instruction * list (Register * Register)) :=
  let! id := fresh in
  let! (reg, m1) :=
    match register i with
    | Some r =>
        let! (r', m) := inline_register postfix r mapping in
        ret (Some r', m)
    | None => ret (None, mapping)
    end in
  let! (v1, m2) := inline_value postfix (value_1 i) m1 in
  let! (v2, m3) := inline_value postfix (value_2 i) m2 in
  ret ({| iid := id; kind := kind i; register := reg;
          value_1 := v1; value_2 := v2 |}, m3).

(** The loop of [clone_for_inlining] over [self.instructions]. *)
Fixpoint inline_instructions (instrs : list Instruction)
    (mapping : list (Register * Register)) (postfix : option string)
    : SE nat (list Instruction) :=
  match instrs with
  | [] => ret []
  | instruction :: instrs' =>
      let! (new_instruction, mapping') :=
        get_inlined_equivalent instruction mapping postfix in
      let! rest := inline_instructions instrs' mapping' postfix in
      ret (new_instruction :: rest)
  end.

(** [[r.clone(postfix) for r in rs]] *)
Fixpoint clone_all (rs : list Register) (postfix : option string)
    : SE nat (list Register) :=
  match rs with
  | [] => ret []
  | r :: rs' =>
      let! r' := clone r postfix in
      let! rest := clone_all rs' postfix in
      ret (r' :: rest)
  end.

(** [dict(zip(ks, vs))] *)
Definition dict_zip {K V} `{EqDecision K} (ks : list K) (vs : list V)
    : list (K * V) :=
  fold_left (fun d kv => dict_set (fst kv) (snd kv) d) (zip ks vs) [].

(** [clone_for_inlining], called with the default [register_mapping]. *)
Definition clone_for_inlining (f : AssemblyFunction)
    (register_postfix : option string) : SE nat AssemblyFunction :=
  let! new_me := clone (me_register f) register_postfix in
  let! new_argument_registers :=
    clone_all (argument_registers f) register_postfix in
  let! new_return_register := clone (return_register f) register_postfix in
  let mapping := dict_zip (argument_registers f) new_argument_registers in
  let mapping := dict_set (me_register f) new_me mapping in
  let mapping := dict_set (return_register f) new_return_register mapping in
  let! new_instructions :=
    inline_instructions (instructions f) mapping register_postfix in
  ret {| function_name := function_name f;
         instructions := new_instructions;
         runtime_type_check_instructions := [];
         me_register := new_me;
         argument_registers := new_argument_registers;
         return_register := new_return_register;
         is_constructor := is_constructor f;
         is_private := is_private f;
         is_private_for := is_private_for f;
         assembly_class := None |}.

(** The MOVs that bind the parameters:
    [for parameter, argument in zip(...)]. *)
Fixpoint bind_parameters (parameters : list Register)
    (arguments : list Value) : SE nat (list Instruction) :=
  match parameters, arguments with
  | parameter :: parameters', argument :: arguments' =>
      let! id := fresh in
      let! rest := bind_parameters parameters' arguments' in
      ret (MoveInstruction id parameter argument :: rest)
  | _, _ => ret []
  end.

(** What [inline] puts in the place of the CALL [instruction] met at
    position [i] of [self.instructions]. *)
Definition inline_call (assembly_storage : AssemblyStorage)
    (self : AssemblyFunction) (i : nat) (instruction : Instruction)
    (function : CallTarget) (call_arguments : list Value)
    (sender_is_self : bool) : SE nat (list Instruction) :=
  match function with
  | UnlinkedFunction _ =>
      raise (AssertionError "isinstance(called_function, AssemblyFunction)")
  | LinkedFunction called_function =>
      (* get latest instructions from assembly storage *)
      match dict_get (fp_class called_function)
                     (assembly_classes assembly_storage) with
      | None => raise (KeyError (fp_class called_function))
      | Some c =>
          match dict_get (fp_name called_function) (functions c) with
          | None => raise (KeyError (fp_name called_function))
          | Some called_function_inlined =>
              let! called_function :=
                clone_for_inlining called_function_inlined
                  (Some ("inlined#" +:+ pretty i)) in
              (* handle "me" *)
              let! me_binding :=
                if sender_is_self then
                  match argument_registers self with
                  | [] => raise (IndexError "list index out of range")
                  | self_register :: _ =>
                      let! id := fresh in
                      ret (PublicKeyInstruction id
                             (me_register called_function)
                             (VRegister self_register))
                  end
                else
                  let! id := fresh in
                  ret (MoveInstruction id (me_register called_function)
                         (VRegister (me_register self))) in
              (* handle parameters *)
              let! parameter_bindings :=
                bind_parameters (argument_registers called_function)
                  call_arguments in
              (* handle return value *)
              let! id := fresh in
              let move :=
                {| iid := id; kind := MOV; register := register instruction;
                   value_1 :=
                     Some (VRegister (return_register called_function));
                   value_2 := None |} in
              ret ([me_binding] ++ parameter_bindings
                   ++ instructions called_function ++ [move])
          end
      end
  end.

(** The loop of [inline] over [enumerate(self.instructions)]; [i] is the
    position of the head of [instrs]. *)
Fixpoint inline_from (assembly_storage : AssemblyStorage)
    (self : AssemblyFunction) (i : nat) (instrs : list Instruction)
    : SE nat (list Instruction) :=
  match instrs with
  | [] => ret []
  | instruction :: instrs' =>
      let! here :=
        match kind instruction with
        | CALL function call_arguments sender_is_self =>
            inline_call assembly_storage self i instruction
              function call_arguments sender_is_self
        | _ => ret [instruction]
        end in
      let! rest := inline_from assembly_storage self (S i) instrs' in
      ret (here ++ rest)
  end.

(** [AssemblyFunction.inline] *)
Definition inline (assembly_storage : AssemblyStorage)
    (self : AssemblyFunction) : SE nat AssemblyFunction :=
  let! all_inlined :=
    inline_from assembly_storage self 0%nat (instructions self) in
  ret {| function_name := function_name self;
         instructions := all_inlined;
         runtime_type_check_instructions := [];
         me_register := me_register self;
         argument_registers := argument_registers self;
         return_register := return_register self;
         is_constructor := is_constructor self;
         is_private := is_private self;
         is_private_for := is_private_for self;
         assembly_class := assembly_class self |}.

(** The storage together with the allocator of object ids. *)
Record World : Type := {
  storage : AssemblyStorage;
  next_id : nat;
}.

Definition set_storage (st : AssemblyStorage) (w : World) : World :=
  {| storage := st; next_id := next_id w |}.
Definition set_next_id (n : nat) (w : World) : World :=
  {| storage := storage w; next_id := n |}.

(** [self.assembly_classes[class_name].inline_function(self, function_name)] *)
Definition inline_function (class_name function_name : string)
    : SE World unit :=
  let! w := get in
  match dict_get class_name (assembly_classes (storage w)) with
  | None => raise (KeyError class_name)
  | Some c =>
      match dict_get function_name (functions c) with
      | None => raise (KeyError function_name)
      | Some prev_function =>
          let! f := zoom next_id set_next_id
                      (inline (storage w) prev_function) in
          modify (fun w =>
            set_storage
              (set_assembly_classes
                 (dict_set class_name
                    (set_functions (dict_set function_name f (functions c)) c)
                    (assembly_classes (storage w)))
                 (storage w)) w)
      end
  end.

(** The call graph: for every function of the classes to check, the
    functions it calls in those classes. *)
Definition CallGraph : Type :=
  list ((string * string) * list (string * string)).

(** The inner loop [for f in c.functions.values()] of the construction. *)
Fixpoint callgraph_of_functions (classes_to_check_names : list string)
    (c : AssemblyClass) (fs : list AssemblyFunction) (g : CallGraph)
    : Result CallGraph :=
  match fs with
  | [] => Ok g
  | f :: fs' =>
      try! called := get_called_function_names f in
      callgraph_of_functions classes_to_check_names c fs'
        (dict_set (qualified_name c, function_name f)
           (filter (fun cf => fst cf ∈ classes_to_check_names) called) g)
  end.

(** The outer loop [for c in self.classes_to_check]. *)
Fixpoint callgraph_of_classes (classes_to_check_names : list string)
    (cs : list AssemblyClass) (g : CallGraph) : Result CallGraph :=
  match cs with
  | [] => Ok g
  | c :: cs' =>
      try! g' := callgraph_of_functions classes_to_check_names c
                   (dict_values (functions c)) g in
      callgraph_of_classes classes_to_check_names cs' g'
  end.

(** The objects of [self.classes_to_check]. *)
Fixpoint classes_of (st : AssemblyStorage) (keys : list string)
    : Result (list AssemblyClass) :=
  match keys with
  | [] => Ok []
  | k :: keys' =>
      match dict_get k (assembly_classes st) with
      | None => Raise (KeyError k)
      | Some c =>
          try! cs := classes_of st keys' in Ok (c :: cs)
      end
  end.

Definition build_callgraph (st : AssemblyStorage) : Result CallGraph :=
  try! cs := classes_of st (classes_to_check st) in
  let classes_to_check_names := qualified_name <$> cs in
  callgraph_of_classes classes_to_check_names cs [].

(** The first key of the graph whose list is empty: where the [for] loop
    of the source stops. *)
Fixpoint find_leaf (g : CallGraph) : option (string * string) :=
  match g with
  | [] => None
  | (k, callees) :: g' =>
      if Nat.eqb (length callees) 0 then Some k else find_leaf g'
  end.

(** "update remaining call graph": what becomes of the list of [other]
    when the node [k] goes. *)
Definition prune (k : string * string) (callees : list (string * string))
    : list (string * string) :=
  if bool_decide (k ∈ callees) then list_remove k callees else callees.

Definition remove_node (k : string * string) (g : CallGraph) : CallGraph :=
  dict_del k ((fun entry => (fst entry, prune k (snd entry))) <$> g).

(** The [while] loop of [inline_new_classes].  Each round removes a key of
    the graph or raises, so [fuel] rounds suffice when [fuel] is the
    number of keys; [None] is a loop cut short by lack of fuel. *)
Fixpoint inline_loop (fuel : nat) (remaining_callgraph : CallGraph)
    (w : World) : option (World * Result unit) :=
  match remaining_callgraph with
  | [] => Some (w, Ok tt)
  | _ :: _ =>
      match find_leaf remaining_callgraph with
      | None =>
          Some (w, Raise (AssertionError
                            "detected cycle in call graph, cannot inline"))
      | Some (class_name, function_name) =>
          match inline_function class_name function_name w with
          | (w', Raise e) => Some (w', Raise e)
          | (w', Ok _) =>
              match fuel with
              | O => None
              | S fuel' =>
                  inline_loop fuel'
                    (remove_node (class_name, function_name)
                       remaining_callgraph) w'
              end
          end
      end
  end.

Definition inline_new_classes (w : World) : option (World * Result unit) :=
  match build_callgraph (storage w) with
  | Raise e => Some (w, Raise e)
  | Ok remaining_callgraph =>
      inline_loop (length remaining_callgraph) remaining_callgraph w
  end.

(** *** Vocabulary of the inlining properties *)

(** No CALL instruction in the body. *)
Definition call_free (f : AssemblyFunction) : Prop :=
  Forall (fun i => is_call i = false) (instructions f).

(** [assembly_classes[cn].functions[fn]] *)
Definition lookup_function (st : AssemblyStorage) (k : string * string)
    : option AssemblyFunction :=
  c ← dict_get (fst k) (assembly_classes st); dict_get (snd k) (functions c).

(** A dict: no key twice, and every value stored under its own name. *)
Definition keyed_by {V} (name_of : V -> string) (d : list (string * V))
    : Prop :=
  NoDup (dict_keys d) /\ forall k v, (k, v) ∈ d -> name_of v = k.

(** The state of a storage between two rounds of the pipeline:
    [add_class] and [add_function] store classes and functions under their
    names, the classes to check are stored classes, and a class leaves
    [classes_to_check] (by [reset_new_classes]) only after its calls were
    inlined. *)
Definition storage_wf (st : AssemblyStorage) : Prop :=
  keyed_by qualified_name (assembly_classes st)
  /\ (forall k c, (k, c) ∈ assembly_classes st ->
        keyed_by function_name (functions c))
  /\ (forall k, k ∈ classes_to_check st ->
        is_Some (dict_get k (assembly_classes st)))
  /\ (forall k c fk f,
        (k, c) ∈ assembly_classes st -> k ∉ classes_to_check st ->
        (fk, f) ∈ functions c -> call_free f).

(** The part of [storage_wf] that is about the dicts. *)
Definition storage_keyed (st : AssemblyStorage) : Prop :=
  keyed_by qualified_name (assembly_classes st)
  /\ forall k c, (k, c) ∈ assembly_classes st ->
       keyed_by function_name (functions c).

(** An edge of the call graph among the classes to check: the function
    [k] holds a CALL of the function [k']. *)
Definition calls (st : AssemblyStorage) (k k' : string * string) : Prop :=
  fst k ∈ classes_to_check st /\ fst k' ∈ classes_to_check st /\
  exists f i fp args sender_is_self,
    lookup_function st k = Some f /\ i ∈ instructions f /\
    kind i = CALL (LinkedFunction fp) args sender_is_self /\
    k' = (fp_class fp, fp_name fp).

(** [path st ks back]: every function of [ks] calls the next one and the
    last one calls [back]. *)
Fixpoint path (st : AssemblyStorage) (ks : list (string * string))
    (back : string * string) : Prop :=
  match ks with
  | [] => True
  | k :: rest =>
      match rest with
      | [] => calls st k back
      | k' :: _ => calls st k k' /\ path st rest back
      end
  end.

(** A cycle of the call graph: a path that returns to its first node. *)
Definition is_cycle (st : AssemblyStorage) (ks : list (string * string))
    : Prop :=
  match ks with
  | [] => False
  | k0 :: _ => path st ks k0
  end.

(** A CALL that [inline] can expand: it is linked, its target is stored,
    and a caller that passes itself as sender has a first argument. *)
Definition call_resolves (st : AssemblyStorage) (self : AssemblyFunction)
    (i : Instruction) : Prop :=
  match kind i with
  | CALL (LinkedFunction fp) _ sender_is_self =>
      is_Some (lookup_function st (fp_class fp, fp_name fp)) /\
      (sender_is_self = true -> argument_registers self <> [])
  | CALL (UnlinkedFunction _) _ _ => False
  | _ => True
  end.

Definition all_calls_resolve (st : AssemblyStorage) : Prop :=
  forall k c fk f,
    (k, c) ∈ assembly_classes st -> (fk, f) ∈ functions c ->
    Forall (call_resolves st f) (instructions f).

Definition cycle_error : exn :=
  AssertionError "detected cycle in call graph, cannot inline".

(** The instruction [i'] is [i] with its registers replaced as the dict
    [mp] says: what [get_inlined_equivalent] makes of [i]. *)
Definition Mapping : Type := list (Register * Register).

Definition renamed_register (mp : Mapping) (r r' : option Register) : Prop :=
  match r with
  | Some r => exists x, r' = Some x /\ dict_get r mp = Some x
  | None => r' = None
  end.

Definition renamed_value (mp : Mapping) (v v' : option Value) : Prop :=
  match v with
  | Some (VRegister r) =>
      exists x, v' = Some (VRegister x) /\ dict_get r mp = Some x
  | _ => v' = v
  end.

Definition renamed (mp : Mapping) (i i' : Instruction) : Prop :=
  kind i' = kind i
  /\ renamed_register mp (register i) (register i')
  /\ renamed_value mp (value_1 i) (value_1 i')
  /\ renamed_value mp (value_2 i) (value_2 i').

(** [r'] carries the label of [r] under [postfix]. *)
Definition postfixed (postfix : string) (r r' : Register) : Prop :=
  label r' = label r +:+ "#" +:+ postfix.

(** [r'] is a clone of [r] made under [postfix] from the object id [lo]
    on: a new register object with the label of [r] and the postfix. *)
Definition clone_of (postfix : string) (lo : nat) (r r' : Register) : Prop :=
  postfixed postfix r r' /\ (lo <= rid r')%nat.

(** The dict [mp] sends registers to their clones, and no two registers to
    the same clone. *)
Definition clones (postfix : string) (lo : nat) (mp : Mapping) : Prop :=
  (forall r r', dict_get r mp = Some r' -> clone_of postfix lo r r')
  /\ forall r1 r2 r',
       dict_get r1 mp = Some r' -> dict_get r2 mp = Some r' -> r1 = r2.

(** [f'] is what [clone_for_inlining] makes of [f]: one dict [mp] of
    clones renames the registers of every instruction; it holds the clone
    of the return register, that of [me] (when [me] is not the return
    register, whose entry the dict keeps) and those of the arguments (for
    an argument register that is listed again, is [me] or is the return
    register, the dict keeps the later entry); the parameters of [f'] are
    clones of their own. *)
Definition cloned_under (postfix : string) (lo : nat)
    (f f' : AssemblyFunction) : Prop :=
  exists mp : Mapping,
    clones postfix lo mp
    /\ Forall2 (renamed mp) (instructions f) (instructions f')
    /\ dict_get (return_register f) mp = Some (return_register f')
    /\ clone_of postfix lo (me_register f) (me_register f')
    /\ (me_register f <> return_register f ->
        dict_get (me_register f) mp = Some (me_register f'))
    /\ Forall2 (clone_of postfix lo)
         (argument_registers f) (argument_registers f')
    /\ (forall (j : nat) a a',
          argument_registers f !! j = Some a ->
          argument_registers f' !! j = Some a' ->
          a ∉ drop (S j) (argument_registers f) ->
          a <> me_register f -> a <> return_register f ->
          dict_get a mp = Some a')
    /\ NoDup (me_register f' :: return_register f'
              :: argument_registers f').

(** The instruction that sets the [me] of the callee: PK of the first
    argument of the caller under [sender_is_self], MOV of the [me] of the
    caller otherwise. *)
Definition binds_me (self : AssemblyFunction) (sender_is_self : bool)
    (callee' : AssemblyFunction) (b : Instruction) : Prop :=
  register b = Some (me_register callee') /\ value_2 b = None /\
  if sender_is_self
  then kind b = PK /\
       exists a, head (argument_registers self) = Some a /\
                 value_1 b = Some (VRegister a)
  else kind b = MOV /\ value_1 b = Some (VRegister (me_register self)).

(** A MOV of an argument of the call into a parameter of the callee. *)
Definition binds_parameter (pa : Register * Value) (b : Instruction) : Prop :=
  kind b = MOV /\ register b = Some (fst pa) /\ value_1 b = Some (snd pa)
  /\ value_2 b = None.

(** The MOV of the return register of the callee into the destination of
    the CALL. *)
Definition returns_into (instruction : Instruction)
    (callee' : AssemblyFunction) (b : Instruction) : Prop :=
  kind b = MOV /\ register b = register instruction
  /\ value_1 b = Some (VRegister (return_register callee')) /\ value_2 b = None.

(** What stands for [instruction], met at position [i] of the caller
    [self], after inlining against the storage [st] with object ids from
    [lo] on. *)
Inductive expansion (st : AssemblyStorage) (lo : nat)
    (self : AssemblyFunction) (i : nat)
    (instruction : Instruction) : list Instruction -> Prop :=
| expansion_keep :
    is_call instruction = false ->
    expansion st lo self i instruction [instruction]
| expansion_call fp args sis callee callee' b params move :
    kind instruction = CALL (LinkedFunction fp) args sis ->
    lookup_function st (fp_class fp, fp_name fp) = Some callee ->
    cloned_under ("inlined#" +:+ pretty i) lo callee callee' ->
    binds_me self sis callee' b ->
    Forall2 binds_parameter (zip (argument_registers callee') args) params ->
    returns_into instruction callee' move ->
    expansion st lo self i instruction
      ([b] ++ params ++ instructions callee' ++ [move]).

(** The body after inlining: the expansions of the instructions, in order;
    the first instruction of the list has position [i]. *)
Inductive inlined_body (st : AssemblyStorage) (lo : nat)
    (self : AssemblyFunction)
    : nat -> list Instruction -> list Instruction -> Prop :=
| inlined_nil i : inlined_body st lo self i [] []
| inlined_cons i instruction rest here l :
    expansion st lo self i instruction here ->
    inlined_body st lo self (S i) rest l ->
    inlined_body st lo self i (instruction :: rest) (here ++ l).

(** Every function that [f0] calls holds no CALL in [st]. *)
Definition already_inlined (st : AssemblyStorage) (f0 : AssemblyFunction)
    : Prop :=
  forall instruction fp args sis callee,
    instruction ∈ instructions f0 ->
    kind instruction = CALL (LinkedFunction fp) args sis ->
    lookup_function st (fp_class fp, fp_name fp) = Some callee ->
    call_free callee.

(** The function [f] holds a linked CALL of the function named [k]. *)
Definition calls_key (f : AssemblyFunction) (k : string * string) : Prop :=
  exists instruction fp args sis,
    instruction ∈ instructions f
    /\ kind instruction = CALL (LinkedFunction fp) args sis
    /\ k = (fp_class fp, fp_name fp).

(** The call ended by raising [RecursionError]. *)
Definition raises_RecursionError (r : option (World * Result unit)) : Prop :=
  exists w msg, r = Some (w, Raise (RecursionError msg)).

(** *** Vocabulary of the label check *)

(** ['.' in s] *)
Fixpoint contains_dot (s : string) : bool :=
  match s with
  | EmptyString => false
  | String c s' => if Ascii.eqb c "."%char then true else contains_dot s'
  end.

(** *** Invariants of the proofs about inlining *)

Definition not_call (i : Instruction) : Prop := is_call i = false.

(** A graph built from the pairs [P] of a class and one of its functions. *)
Definition graph_of (names : list string)
    (P : AssemblyClass -> AssemblyFunction -> Prop) (g : CallGraph) : Prop :=
  NoDup (dict_keys g)
  /\ (forall k callees, dict_get k g = Some callees ->
        exists c f called, P c f /\ k = (qualified_name c, function_name f) /\
          get_called_function_names f = Ok called /\
          callees = filter (fun cf => fst cf ∈ names) called)
  /\ (forall c f, P c f -> (qualified_name c, function_name f) ∈ dict_keys g).

(** The invariant of the [while] loop: the functions still in the graph
    wait for the callees left in their lists, every other function of the
    classes to check holds no CALL any more. *)
Record LoopInv (batch : list string) (w : World) (g : CallGraph) : Prop := {
  inv_batch : classes_to_check (storage w) = batch;
  inv_nodup : NoDup (dict_keys g);
  inv_keys : forall k,
    k ∈ dict_keys g -> is_Some (lookup_function (storage w) k);
  inv_done : forall k f,
    fst k ∈ batch -> lookup_function (storage w) k = Some f ->
    k ∈ dict_keys g \/ call_free f;
  inv_edges : forall k callees f i fp args sis,
    dict_get k g = Some callees -> lookup_function (storage w) k = Some f ->
    i ∈ instructions f -> kind i = CALL (LinkedFunction fp) args sis ->
    fp_class fp ∈ batch ->
    (fp_class fp, fp_name fp) ∈ callees \/
    forall callee,
      lookup_function (storage w) (fp_class fp, fp_name fp) = Some callee ->
      call_free callee;
  inv_old : forall k f,
    fst k ∉ batch -> lookup_function (storage w) k = Some f -> call_free f;
}.

(** How the functions of [w] come from those of the storage [w0] the loop
    started on: a function still in the graph is as it was and waits for
    the callees left in its list; a function that left the graph is what
    [inline] returns on the function it was, against the storage as it is
    now, and none of its callees is in the graph. *)
Record History (batch : list string) (w0 w : World) (g : CallGraph)
    : Prop := {
  hist_orig : forall k, k ∈ dict_keys g ->
    lookup_function (storage w) k = lookup_function (storage w0) k;
  hist_next : (next_id w0 <= next_id w)%nat;
  hist_edges : forall k callees f k',
    dict_get k g = Some callees -> lookup_function (storage w0) k = Some f ->
    calls_key f k' -> k' ∈ callees \/ k' ∉ dict_keys g;
  hist_done : forall k f,
    fst k ∈ batch -> lookup_function (storage w) k = Some f ->
    k ∈ dict_keys g \/
    exists f0 n n', lookup_function (storage w0) k = Some f0 /\
      (next_id w0 <= n)%nat /\
      inline (storage w) f0 n = (n', Ok f) /\
      forall k', calls_key f0 k' -> k' ∉ dict_keys g;
}.

Definition resolved (w : World) : Prop :=
  forall k f, lookup_function (storage w) k = Some f ->
              Forall (call_resolves (storage w) f) (instructions f).

(** The nodes [ks] keep each other in the graph: each has one of them in
    its list. *)
Definition closed_in (g : CallGraph) (ks : list (string * string)) : Prop :=
  ks <> [] /\
  forall k, k ∈ ks ->
    exists callees k', dict_get k g = Some callees /\ k' ∈ ks /\ k' ∈ callees.

Definition extends (m m' : Mapping) : Prop :=
  forall x y, dict_get x m = Some y -> dict_get x m' = Some y.

(** The dict of [clone_for_inlining] while the object ids run from [lo]
    to [hi]. *)
Definition mapping_inv (p : string) (lo hi : nat) (m : Mapping) : Prop :=
  (forall r r', dict_get r m = Some r' ->
                postfixed p r r' /\ (lo <= rid r' < hi)%nat)
  /\ forall r1 r2 r',
       dict_get r1 m = Some r' -> dict_get r2 m = Some r' -> r1 = r2.

End Asm.

(** ** compiler/compiler.py, compiler/instruction_builder.py *)

Module Compiler.
Import Asm.

(** The allocator of object ids and the [assembly_type] attributes. *)
Record CompilerState : Type := {
  next_object : nat;
  types : Types;
}.

(** A constructor call of an instruction class. *)
Definition new_object : SE CompilerState nat :=
  fun st =>
    ({| next_object := S (next_object st); types := types st |},
     Ok (next_object st)).

(** [r = Register(label); r.assembly_type = t] *)
Definition new_register (label : string) (t : option AssemblyType)
    : SE CompilerState Register :=
  fun st =>
    let r := {| label := label; rid := next_object st |} in
    ({| next_object := S (next_object st);
        types := set_type r t (types st) |}, Ok r).

(** What the body of a contract function hands back. *)
Inductive Returned : Type :=
| ReturnedNone
| ReturnedObserver (value : Value)
| ReturnedAddressConst (val : Z)
| ReturnedLongConst (val : Z)
| ReturnedInt (val : Z).

(** lang/function.py.  [function_code] is the body of the contract
    function run against the observers of its arguments: given the [me]
    register of the builder and the registers of the arguments ([self]
    first), it yields the instructions it appends to the builder and the
    value it returns. *)
Record Function : Type := {
  contract_type : string;
  name : string;
  argument_types : list (string * AssemblyType);
  return_type : AssemblyType;
  is_private : bool;
  is_private_for : option string;
  is_constructor : bool;
  function_code :
    Register -> list Register ->
    SE CompilerState (list Instruction * Returned);
}.

Record Contract : Type := {
  contract_name : string;
  contract_has_address : bool;
  zapper_fields : list (string * AssemblyType);
  zapper_functions : list Function;
}.

(** [is_uint_literal] *)
Definition is_uint_literal (x : Z) : bool :=
  (0 <=? x)%Z && (x <? 2 ^ 120)%Z.

(** [ensure_expression_observer(value).value] *)
Definition ensure_expression_observer (value : Returned) : Result Value :=
  match value with
  | ReturnedObserver v => Ok v
  | ReturnedAddressConst val => Ok (VConstant val Address)
  | ReturnedLongConst val => Ok (VConstant val Long)
  | ReturnedInt val =>
      if is_uint_literal val then Ok (VConstant val Uint)
      else Raise (AssertionError "is_uint_literal(value)")
  | ReturnedNone => Raise (AssertionError "isinstance(value, int)")
  end.

(** [get_argument_observers]: one new typed register per argument. *)
Fixpoint get_argument_observers (argument_types : list (string * AssemblyType))
    : SE CompilerState (list Register) :=
  match argument_types with
  | [] => ret []
  | (name, t) :: rest =>
      let! register := new_register name (Some t) in
      let! observers := get_argument_observers rest in
      ret (register :: observers)
  end.

Definition zapper_function_to_assembly_function (function : Function)
    : SE CompilerState AssemblyFunction :=
  (* builder = InstructionBuilder() *)
  let! builder_me := new_register "me" (Some Address) in
  let! argument_observers :=
    get_argument_observers (argument_types function) in
  match argument_observers with
  | [] => raise (IndexError "list index out of range")
  | self :: _ =>
      let! prologue :=
        if is_constructor function then
          (* initialize "self" with new object *)
          let! id := new_object in
          ret [NewInstruction id self
                 (UnlinkedClass (contract_type function))]
        else ret [] in
      let! (body, returned) :=
        function_code function builder_me argument_observers in
      (* handle return value *)
      let! return_register :=
        new_register "return" (Some (return_type function)) in
      let! value :=
        of_result
          match returned with
          | ReturnedNone =>
              if is_constructor function then Ok (VRegister self)
              else ensure_expression_observer (ReturnedInt 0)
          | _ => ensure_expression_observer returned
          end in
      let! id := new_object in
      let i := MoveInstruction id return_register value in
      ret {| function_name := name function;
             instructions := prologue ++ body ++ [i];
             runtime_type_check_instructions := [];
             me_register := builder_me;
             argument_registers :=
               if is_constructor function
               then drop 1 argument_observers else argument_observers;
             return_register := return_register;
             Asm.is_constructor := is_constructor function;
             Asm.is_private := is_private function;
             Asm.is_private_for := is_private_for function;
             assembly_class := None |}
  end.

(** [AssemblyClass.add_function]; the function gets its back reference. *)
Definition add_function (function : AssemblyFunction) (c : AssemblyClass)
    : Result AssemblyClass :=
  if bool_decide (is_Some (assembly_class function)
                  /\ assembly_class function <> Some (qualified_name c))
  then Raise (AssemblySecurityException
                "Tried adding function with incorrect class")
  else if bool_decide (function_name function ∈ dict_keys (functions c))
  then Raise (AssemblySecurityException "Tried adding function twice")
  else
    let function' :=
      {| function_name := function_name function;
         instructions := instructions function;
         runtime_type_check_instructions :=
           runtime_type_check_instructions function;
         me_register := me_register function;
         argument_registers := argument_registers function;
         return_register := return_register function;
         Asm.is_constructor := Asm.is_constructor function;
         Asm.is_private := Asm.is_private function;
         Asm.is_private_for := Asm.is_private_for function;
         assembly_class := Some (qualified_name c) |} in
    Ok (set_functions
          (dict_set (function_name function) function' (functions c)) c).

(** [sorted] on the keys of a dict of fields. *)
Fixpoint insert_sorted (kv : string * AssemblyField)
    (l : list (string * AssemblyField)) : list (string * AssemblyField) :=
  match l with
  | [] => [kv]
  | kv' :: l' =>
      if String.leb (fst kv) (fst kv') then kv :: l
      else kv' :: insert_sorted kv l'
  end.

Definition order_dictionary_by_keys (d : list (string * AssemblyField))
    : list (string * AssemblyField) :=
  foldr insert_sorted [] d.

(** [AssemblyClass.set_field_locations]: the location of every field name,
    ["owner"] first and the others in the order of their names. *)
Definition field_locations (d : list (string * AssemblyField))
    : list (string * Z) :=
  let ordered := order_dictionary_by_keys d in
  let ordered :=
    match dict_get "owner" ordered with
    | Some f => ("owner", f) :: dict_del "owner" ordered
    | None => ordered
    end in
  imap (fun location kv => (fst kv, Z.of_nat location)) ordered.

Definition set_field_locations (c : AssemblyClass) : AssemblyClass :=
  let locations := field_locations (fields c) in
  {| qualified_name := qualified_name c;
     has_address := has_address c;
     fields :=
       (fun kv =>
          (fst kv,
           {| field_name := field_name (snd kv);
              field_type := field_type (snd kv);
              field_location := dict_get (fst kv) locations |}))
       <$> fields c;
     functions := functions c;
     class_id := class_id c |}.

(** [AssemblyClass.add_field] of a field that belongs to no class yet. *)
Definition add_field (fld : AssemblyField) (c : AssemblyClass)
    : Result AssemblyClass :=
  if bool_decide (field_name fld ∈ dict_keys (fields c))
  then Raise (AssemblySecurityException "Tried adding field twice")
  else
    Ok (set_field_locations
          {| qualified_name := qualified_name c;
             has_address := has_address c;
             fields := dict_set (field_name fld) fld (fields c);
             functions := functions c;
             class_id := class_id c |}).

Definition zapper_field_to_assembly_field (fld : string * AssemblyType)
    : AssemblyField :=
  {| field_name := fst fld; field_type := snd fld; field_location := None |}.

(** The two loops of [compile_contract]. *)
Fixpoint compile_fields (flds : list (string * AssemblyType))
    (compiled : AssemblyClass) : Result AssemblyClass :=
  match flds with
  | [] => Ok compiled
  | fld :: flds' =>
      try! compiled' :=
        add_field (zapper_field_to_assembly_field fld) compiled in
      compile_fields flds' compiled'
  end.

Fixpoint compile_functions (fs : list Function) (compiled : AssemblyClass)
    : SE CompilerState AssemblyClass :=
  match fs with
  | [] => ret compiled
  | function :: fs' =>
      let! assembly_function :=
        zapper_function_to_assembly_function function in
      let! compiled' := of_result (add_function assembly_function compiled) in
      compile_functions fs' compiled'
  end.

Definition compile_contract (contract : Contract)
    : SE CompilerState AssemblyClass :=
  let compiled :=
    {| qualified_name := contract_name contract;
       has_address := contract_has_address contract;
       fields := [];
       functions := [];
       class_id := None |} in
  let! compiled := of_result (compile_fields (zapper_fields contract) compiled) in
  compile_functions (zapper_functions contract) compiled.

(** The last instruction of the body is a MOV into the return register. *)
Definition ends_with_return_move (f : AssemblyFunction) : Prop :=
  exists id v,
    last (instructions f) = Some (MoveInstruction id (return_register f) v).

End Compiler.

(** ** compiler/register_allocation.py *)

Module RegAlloc.
Import Asm.

(** [self.free_registers] is a Python [set] of ints, used through [add]
    and [pop] only.  The language fixes [pop] up to "remove and return an
    arbitrary element", raising [KeyError] on the empty set; the
    implementation decides which one.  [PySet] is that contract, with
    [set_elements] the elements the set holds. *)
Class PySet (S : Type) : Type := {
  set_new : S;
  set_add : Z -> S -> S;
  set_pop : S -> option (Z * S);
  set_elements : S -> gset Z;
  set_new_elements : set_elements set_new = ∅;
  set_add_elements :
    forall x s, set_elements (set_add x s) = {[x]} ∪ set_elements s;
  set_pop_empty :
    forall s, set_elements s = ∅ -> set_pop s = None;
  set_pop_member :
    forall s, set_elements s <> ∅ ->
    exists x s', set_pop s = Some (x, s') /\ x ∈ set_elements s /\
                 set_elements s' = set_elements s ∖ {[x]};
}.

Section Run.
Context {S : Type} `{PS : PySet S}.

Record RegisterAllocation : Type := {
  free_registers : S;
  n_registers : Z;
}.

(** [RegisterAllocation.__init__] *)
Definition new_allocation : RegisterAllocation :=
  {| free_registers := set_new; n_registers := 0 |}.

Definition _next_free_register (self : RegisterAllocation)
    : Z * RegisterAllocation :=
  match set_pop (free_registers self) with
  | Some (slot, rest) =>
      (slot, {| free_registers := rest; n_registers := n_registers self |})
  | None =>
      (n_registers self,
       {| free_registers := free_registers self;
          n_registers := n_registers self + 1 |})
  end.

(** The allocator and the [location] attribute of the registers. *)
Record State : Type := {
  allocator : RegisterAllocation;
  location : Register -> Z;
}.

Definition set_location (r : Register) (slot : Z) (loc : Register -> Z)
    : Register -> Z :=
  fun r' => if decide (r' = r) then slot else loc r'.

(** [r.location = self._next_free_register()] *)
Definition allocate (r : Register) (st : State) : State :=
  let '(slot, a) := _next_free_register (allocator st) in
  {| allocator := a; location := set_location r slot (location st) |}.

(** The dict [last_used], filled by the first two loops of [run]. *)
Definition record_uses (last_used : list (Register * Instruction))
    (instruction : Instruction) : list (Register * Instruction) :=
  fold_left (fun d register => dict_set register instruction d)
            (get_registers instruction) last_used.

Definition compute_last_used (all_instructions : list Instruction)
    : list (Register * Instruction) :=
  fold_left record_uses all_instructions [].

(** [for register in ...: if register.location == -1: ...] *)
Definition allocate_operand (st : State) (register : Register) : State :=
  if Z.eqb (location st register) (-1) then allocate register st else st.

Definition allocate_operands (instruction : Instruction) (st : State)
    : State :=
  fold_left allocate_operand (get_registers instruction) st.

(** [for register in ...: if last_used[register] is instruction: ...];
    every register of [instruction] is a key of [last_used]. *)
Definition release_operand (last_used : list (Register * Instruction))
    (instruction : Instruction) (st : State) (register : Register)
    : State :=
  if bool_decide (dict_get register last_used = Some instruction)
  then {| allocator :=
            {| free_registers :=
                 set_add (location st register)
                         (free_registers (allocator st));
               n_registers := n_registers (allocator st) |};
          location := location st |}
  else st.

Definition release_operands (last_used : list (Register * Instruction))
    (instruction : Instruction) (st : State) : State :=
  fold_left (release_operand last_used instruction)
            (get_registers instruction) st.

(** The body of the last loop of [run]. *)
Definition process_instruction (last_used : list (Register * Instruction))
    (st : State) (instruction : Instruction) : State :=
  release_operands last_used instruction
    (allocate_operands instruction st).

(** [run], up to and including the allocation of the arguments. *)
Definition allocate_parameters (function : AssemblyFunction) (st : State)
    : State :=
  fold_left (fun st arg => allocate arg st) (argument_registers function)
            (allocate (me_register function) st).

(** [RegisterAllocation.run] *)
Definition run (function : AssemblyFunction) (st : State) : State :=
  let all_instructions := get_all_instructions function in
  let last_used := compute_last_used all_instructions in
  fold_left (process_instruction last_used) all_instructions
            (allocate_parameters function st).

(** [register_allocation(function)]: a new allocator on the registers as
    they are. *)
Definition register_allocation (function : AssemblyFunction)
    (loc : Register -> Z) : Register -> Z :=
  location (run function {| allocator := new_allocation; location := loc |}).

(** The free pool of a state. *)
Definition pool (st : State) : gset Z :=
  set_elements (free_registers (allocator st)).

End Run.

(** A set whose [pop] searches from a finger that moves past the slot it
    last returned and wraps around, the way CPython's [set_pop] walks its
    table; on small ints the table slot of an element is the element. *)
Record FingerSet : Type := {
  members : gset Z;
  finger : Z;
}.

(** The least element of a list. *)
Definition least (l : list Z) : option Z :=
  match l with
  | [] => None
  | x :: l' => Some (fold_left Z.min l' x)
  end.

Definition finger_pop (s : FingerSet) : option (Z * FingerSet) :=
  let from_finger := filter (fun x => finger s <= x) (elements (members s)) in
  match least from_finger with
  | Some x => Some (x, {| members := members s ∖ {[x]}; finger := x + 1 |})
  | None =>
      match least (elements (members s)) with
      | Some x => Some (x, {| members := members s ∖ {[x]}; finger := x + 1 |})
      | None => None
      end
  end.

Definition finger_new : FingerSet := {| members := ∅; finger := 0 |}.

Definition finger_add (x : Z) (s : FingerSet) : FingerSet :=
  {| members := {[x]} ∪ members s; finger := finger s |}.

(** [FingerSet] keeps the contract of a Python set. *)
Lemma least_elem (l : list Z) x : least l = Some x -> x ∈ l.
Proof.
  destruct l as [|a l]; [done|]. simpl. intros [= <-].
  revert a. induction l as [|b l IH]; intros a; simpl; [set_solver|].
  specialize (IH (Z.min a b)).
  destruct (Z.min_spec a b) as [[_ E]|[_ E]]; rewrite E in *; set_solver.
Qed.

Lemma least_None (l : list Z) : least l = None -> l = [].
Proof. by destruct l. Qed.

Lemma finger_pop_empty (s : FingerSet) : members s = ∅ -> finger_pop s = None.
Proof. intros Hs. unfold finger_pop. rewrite Hs, elements_empty. done. Qed.

Lemma finger_pop_member (s : FingerSet) :
  members s <> ∅ ->
  exists x s', finger_pop s = Some (x, s') /\ x ∈ members s /\
               members s' = members s ∖ {[x]}.
Proof.
  intros Hs. unfold finger_pop.
  destruct (least (filter _ _)) as [x|] eqn:E1.
  - apply least_elem, list_elem_of_filter in E1 as [_ Hx%elem_of_elements].
    eexists _, _. split; [done|]. done.
  - destruct (least (elements (members s))) as [x|] eqn:E2.
    + apply least_elem, elem_of_elements in E2. eexists _, _. done.
    + apply least_None in E2. apply elements_empty_inv in E2.
      exfalso. apply Hs. by apply leibniz_equiv.
Qed.

#[export] Instance FingerSet_PySet : PySet FingerSet := {|
  set_new := finger_new;
  set_add := finger_add;
  set_pop := finger_pop;
  set_elements := members;
  set_new_elements := eq_refl;
  set_add_elements := fun _ _ => eq_refl;
  set_pop_empty := finger_pop_empty;
  set_pop_member := finger_pop_member;
|}.

End RegAlloc.

(** ** runtime/serialized_assembly.py: the wire form of a function *)

Module Serialized.

Record SerializedInstruction : Type := {
  opcode : Z;
  dst : Z;
  src_1 : string;
  src_1_is_const : bool;
  src_2 : string;
  src_2_is_const : bool;
}.

Record SerializedFunction : Type := {
  class_id : Z;
  function_id : Z;
  return_register : Z;
  instructions : list SerializedInstruction;
}.

End Serialized.

(** ** ledger/transaction.py *)

Module Tx.

Record Transaction : Type := {
  class_name : string;
  function_name : string;
  merkle_tree_root : string;
  consumed_serials : list string;
  new_records : list string;
  proof : option string;
  unique_seed : string;
  current_time : Z;
}.

End Tx.

(** ** The collaborators of the ledger *)

(** zapper_backend: the Merkle tree of record commitments and the proof
    verifier.  [verify] returns a boolean or raises.

    Of the Python runtime the ledger uses [list(s)] on a set of strings:
    the language fixes the result up to its order, which depends on the
    hashes of the strings and on the order in which the set was filled.
    [list_of_set filled s] is [list(s)] for the set [s] that was filled in
    the order [filled]; [list_of_set_perm] is all the language says. *)
Class Backend : Type := {
  MerkleTree : Type;
  mt_insert : nat -> string -> MerkleTree -> MerkleTree;
  mt_get_root : MerkleTree -> string;
  Verifier : Type;
  verify : Verifier ->
           string -> string -> list string -> list string ->
           string -> string -> list Serialized.SerializedInstruction ->
           string -> option string -> Result bool;
  list_of_set : list string -> gset string -> list string;
  list_of_set_perm : forall filled s, list_of_set filled s ≡ₚ elements s;
}.

(** The assembly storage as the ledger drives it: the phases that
    [Ledger.register_classes] calls in turn, and what its serialization loop
    reads from a processed class ([c.qualified_name] and, for each function
    of [c.functions.values()] in order, its name, its [is_private] flag and
    [SerializedFunction(c.class_id, function_id, f)], which may raise). *)
Class Pipeline : Type := {
  AssemblyStorage : Type;
  AssemblyClass : Type;
  new_storage : AssemblyStorage;
  add_class : AssemblyClass -> SE AssemblyStorage unit;
  link_new_classes : SE AssemblyStorage unit;
  check_new_classes : SE AssemblyStorage unit;
  inline_new_classes : SE AssemblyStorage unit;
  insert_runtime_checks_for_new_classes : SE AssemblyStorage unit;
  allocation_for_new_classes : SE AssemblyStorage unit;
  reset_new_classes : SE AssemblyStorage unit;
  qualified_name : AssemblyClass -> string;
  functions_values :
    AssemblyStorage -> AssemblyClass ->
    list (string * bool * (Z -> Result Serialized.SerializedFunction));
}.

(** ** ledger/ledger.py *)

Module Ledger.
Section Ledger.
Context `{B : Backend} `{P : Pipeline}.

(** [add_to_set_check_unique]: the returned set is [s] after the call. *)
Definition add_to_set_check_unique (s : gset string) (elem : string)
    : bool * gset string :=
  if bool_decide (elem ∈ s) then (false, s) else (true, {[elem]} ∪ s).

Record Ledger : Type := {
  assembly_storage : AssemblyStorage;
  serialized_functions :
    gmap (string * string) Serialized.SerializedFunction;
  published_serial_numbers : gset string;
  published_unique_seeds : gset string;
  merkle_tree : MerkleTree;
  next_record_idx : nat;
  accepted_transactions : list (list string * list string);
  current_time : Z;
  verifier : option Verifier;
  }.

(** Attribute assignments [self.x = v]. *)
Definition set_assembly_storage (v : AssemblyStorage) (l : Ledger) : Ledger :=
  {| assembly_storage := v;
     serialized_functions := serialized_functions l;
     published_serial_numbers := published_serial_numbers l;
     published_unique_seeds := published_unique_seeds l;
     merkle_tree := merkle_tree l;
     next_record_idx := next_record_idx l;
     accepted_transactions := accepted_transactions l;
     current_time := current_time l;
     verifier := verifier l |}.

Definition set_serialized_functions
    (v : gmap (string * string) Serialized.SerializedFunction) (l : Ledger)
    : Ledger :=
  {| assembly_storage := assembly_storage l;
     serialized_functions := v;
     published_serial_numbers := published_serial_numbers l;
     published_unique_seeds := published_unique_seeds l;
     merkle_tree := merkle_tree l;
     next_record_idx := next_record_idx l;
     accepted_transactions := accepted_transactions l;
     current_time := current_time l;
     verifier := verifier l |}.

Definition set_published_serial_numbers (v : gset string) (l : Ledger)
    : Ledger :=
  {| assembly_storage := assembly_storage l;
     serialized_functions := serialized_functions l;
     published_serial_numbers := v;
     published_unique_seeds := published_unique_seeds l;
     merkle_tree := merkle_tree l;
     next_record_idx := next_record_idx l;
     accepted_transactions := accepted_transactions l;
     current_time := current_time l;
     verifier := verifier l |}.

Definition set_published_unique_seeds (v : gset string) (l : Ledger)
    : Ledger :=
  {| assembly_storage := assembly_storage l;
     serialized_functions := serialized_functions l;
     published_serial_numbers := published_serial_numbers l;
     published_unique_seeds := v;
     merkle_tree := merkle_tree l;
     next_record_idx := next_record_idx l;
     accepted_transactions := accepted_transactions l;
     current_time := current_time l;
     verifier := verifier l |}.

Definition set_merkle_tree (v : MerkleTree) (l : Ledger) : Ledger :=
  {| assembly_storage := assembly_storage l;
     serialized_functions := serialized_functions l;
     published_serial_numbers := published_serial_numbers l;
     published_unique_seeds := published_unique_seeds l;
     merkle_tree := v;
     next_record_idx := next_record_idx l;
     accepted_transactions := accepted_transactions l;
     current_time := current_time l;
     verifier := verifier l |}.

Definition set_next_record_idx (v : nat) (l : Ledger) : Ledger :=
  {| assembly_storage := assembly_storage l;
     serialized_functions := serialized_functions l;
     published_serial_numbers := published_serial_numbers l;
     published_unique_seeds := published_unique_seeds l;
     merkle_tree := merkle_tree l;
     next_record_idx := v;
     accepted_transactions := accepted_transactions l;
     current_time := current_time l;
     verifier := verifier l |}.

Definition set_accepted_transactions
    (v : list (list string * list string)) (l : Ledger) : Ledger :=
  {| assembly_storage := assembly_storage l;
     serialized_functions := serialized_functions l;
     published_serial_numbers := published_serial_numbers l;
     published_unique_seeds := published_unique_seeds l;
     merkle_tree := merkle_tree l;
     next_record_idx := next_record_idx l;
     accepted_transactions := v;
     current_time := current_time l;
     verifier := verifier l |}.

Definition set_current_time (v : Z) (l : Ledger) : Ledger :=
  {| assembly_storage := assembly_storage l;
     serialized_functions := serialized_functions l;
     published_serial_numbers := published_serial_numbers l;
     published_unique_seeds := published_unique_seeds l;
     merkle_tree := merkle_tree l;
     next_record_idx := next_record_idx l;
     accepted_transactions := accepted_transactions l;
     current_time := v;
     verifier := verifier l |}.

(** [Ledger.__init__]; [verifier] is [None] under [dbg_no_proof]. *)
Definition init (tree : MerkleTree) (v : option Verifier) : Ledger :=
  {| assembly_storage := new_storage;
     serialized_functions := ∅;
     published_serial_numbers := ∅;
     published_unique_seeds := ∅;
     merkle_tree := tree;
     next_record_idx := 0%nat;
     accepted_transactions := [];
     current_time := 5555;
     verifier := v |}.

(** A phase of the storage, run on [self.assembly_storage]. *)
Definition on_storage {A} (m : SE AssemblyStorage A) : SE Ledger A :=
  zoom assembly_storage set_assembly_storage m.

(** The inner loop of [register_classes] over [c.functions.values()];
    the state threaded besides the ledger is [function_id]. *)
Fixpoint serialize_functions (cname : string)
    (fs : list (string * bool * (Z -> Result Serialized.SerializedFunction)))
    (function_id : Z) : SE Ledger unit :=
  match fs with
  | [] => ret tt
  | (fname, is_private, serialize) :: fs' =>
      if is_private then serialize_functions cname fs' function_id
      else
        let! sf := of_result (serialize function_id) in
        do! modify (fun l =>
              set_serialized_functions
                (<[(cname, fname) := sf]> (serialized_functions l)) l) in
        serialize_functions cname fs' (function_id + 1)
  end.

Definition register_classes (classes : list AssemblyClass) : SE Ledger unit :=
  do! for_each classes (fun c => on_storage (add_class c)) in
  do! on_storage link_new_classes in
  do! on_storage check_new_classes in
  do! on_storage inline_new_classes in
  do! on_storage insert_runtime_checks_for_new_classes in
  do! on_storage allocation_for_new_classes in
  do! on_storage reset_new_classes in
  for_each classes (fun c =>
    let! l := get in
    serialize_functions (qualified_name c)
      (functions_values (assembly_storage l) c) 0).

Definition get_serialized_function (class_name function_name : string)
    : SE Ledger Serialized.SerializedFunction :=
  let! l := get in
  match serialized_functions l !! (class_name, function_name) with
  | None =>
      raise (ValueError ("unknown function " +:+ class_name +:+ "."
                         +:+ function_name +:+ " or function not public"))
  | Some f => ret f
  end.

Definition get_current_root : SE Ledger string :=
  let! l := get in ret (mt_get_root (merkle_tree l)).

Definition test_increase_current_time_by (amount : Z) : SE Ledger unit :=
  modify (fun l => set_current_time (current_time l + amount) l).

(** The first loop of [verify_and_execute_transaction]: it fills the local
    set [transaction_serials] and raises on the first repeated serial. *)
Fixpoint collect_serials (serials : list string)
    (transaction_serials : gset string) : SE Ledger (gset string) :=
  match serials with
  | [] => ret transaction_serials
  | serial :: rest =>
      let '(fresh, transaction_serials') :=
        add_to_set_check_unique transaction_serials serial in
      if negb fresh
      then raise (TxRejectedException
                    "serial numbers of transaction not unique")
      else collect_serials rest transaction_serials'
  end.

(** The call of the verifier, inside the [try]. *)
Definition check_proof (v : Verifier) (transaction : Tx.Transaction)
    (serialized_function : Serialized.SerializedFunction) : SE Ledger unit :=
  let! l := get in
  let! res :=
    try_except
      (of_result
         (verify v
            (Tx.unique_seed transaction)
            (Tx.merkle_tree_root transaction)
            (Tx.consumed_serials transaction)
            (Tx.new_records transaction)
            (General.to_hex_str (Serialized.class_id serialized_function))
            (General.to_hex_str (Serialized.function_id serialized_function))
            (Serialized.instructions serialized_function)
            (General.to_hex_str (current_time l))
            (Tx.proof transaction)))
      (fun e => TxRejectedException
                  ("proof verification raised an error: " +:+ exn_str e)) in
  raise_if (negb res) (TxRejectedException "proof verification failed").

Definition insert_record (r : string) : SE Ledger unit :=
  do! modify (fun l =>
        set_merkle_tree (mt_insert (next_record_idx l) r (merkle_tree l)) l) in
  modify (fun l => set_next_record_idx (S (next_record_idx l)) l).

(** The tail of [verify_and_execute_transaction] under the comment
    "perform actual state update"; [transaction_serials] was filled from
    [transaction.consumed_serials], in that order. *)
Definition state_update (transaction : Tx.Transaction)
    (transaction_serials : gset string) : SE Ledger unit :=
  do! modify (fun l =>
        set_published_serial_numbers
          (published_serial_numbers l ∪ transaction_serials) l) in
  do! modify (fun l =>
        set_published_unique_seeds
          ({[Tx.unique_seed transaction]} ∪ published_unique_seeds l) l) in
  do! for_each (Tx.new_records transaction) insert_record in
  modify (fun l =>
    set_accepted_transactions
      (accepted_transactions l
         ++ [(list_of_set (Tx.consumed_serials transaction)
                transaction_serials,
              Tx.new_records transaction)]) l).

Definition verify_and_execute_transaction (transaction : Tx.Transaction)
    : SE Ledger unit :=
  (* check serials of transaction are mutually distinct *)
  let! transaction_serials :=
    collect_serials (Tx.consumed_serials transaction) ∅ in
  let! l := get in
  (* check serials distinct from all previously seen serials *)
  do! raise_if
        (negb (Nat.eqb
                 (size (transaction_serials ∩ published_serial_numbers l)) 0))
        (TxRejectedException
           "at least one serial number of transaction has been observed earlier") in
  (* check unique_seed is distinct from all previously seen seeds *)
  do! raise_if
        (bool_decide (Tx.unique_seed transaction ∈ published_unique_seeds l))
        (TxRejectedException "unique_seed has been observed earlier") in
  (* check merkle root matches current root *)
  do! raise_if
        (negb (String.eqb (Tx.merkle_tree_root transaction)
                          (mt_get_root (merkle_tree l))))
        (TxRejectedException
           "transaction root does not match current merkle tree root") in
  (* check if timestamp valid *)
  do! raise_if
        (negb (Z.eqb (Tx.current_time transaction) (current_time l)))
        (TxRejectedException "timestamp of transaction invalid") in
  (* get serialized function *)
  let! serialized_function :=
    get_serialized_function (Tx.class_name transaction)
                            (Tx.function_name transaction) in
  do! match verifier l with
      | Some v => check_proof v transaction serialized_function
      | None => ret tt
      end in
  state_update transaction transaction_serials.

(** *** Vocabulary of the ledger properties *)

(** The calls a client can make on a ledger. *)
Inductive Call : Type :=
  | CallVerify (transaction : Tx.Transaction)
  | CallRegister (classes : list AssemblyClass)
  | CallIncreaseTime (amount : Z).

Definition run_call (c : Call) : SE Ledger unit :=
  match c with
  | CallVerify t => verify_and_execute_transaction t
  | CallRegister cs => register_classes cs
  | CallIncreaseTime a => test_increase_current_time_by a
  end.

(** The ledger after a sequence of calls; a call that raises leaves the
    ledger as the raise found it and the next call goes on from there. *)
Fixpoint run_calls (cs : list Call) (l : Ledger) : Ledger :=
  match cs with
  | [] => l
  | c :: cs' => run_calls cs' (fst (run_call c l))
  end.

(** The accepted transactions of a sequence of submissions, in order, each
    with the ledger it was submitted to. *)
Fixpoint accepted_history (l : Ledger) (txs : list Tx.Transaction)
    : list (Ledger * Tx.Transaction) :=
  match txs with
  | [] => []
  | t :: txs' =>
      match verify_and_execute_transaction t l with
      | (l', Ok _) => (l, t) :: accepted_history l' txs'
      | (l', Raise _) => accepted_history l' txs'
      end
  end.

(** The checks of [verify_and_execute_transaction] that come before the
    function lookup. *)
Definition serials_repeat (t : Tx.Transaction) : Prop :=
  ~ NoDup (Tx.consumed_serials t).
Definition serial_published (t : Tx.Transaction) (l : Ledger) : Prop :=
  exists s, s ∈ Tx.consumed_serials t /\ s ∈ published_serial_numbers l.
Definition seed_replayed (t : Tx.Transaction) (l : Ledger) : Prop :=
  Tx.unique_seed t ∈ published_unique_seeds l.
Definition root_stale (t : Tx.Transaction) (l : Ledger) : Prop :=
  Tx.merkle_tree_root t <> mt_get_root (merkle_tree l).
Definition time_wrong (t : Tx.Transaction) (l : Ledger) : Prop :=
  Tx.current_time t <> current_time l.

Definition precheck_fails (t : Tx.Transaction) (l : Ledger) : Prop :=
  serials_repeat t \/ serial_published t l \/ seed_replayed t l
  \/ root_stale t l \/ time_wrong t l.

Definition function_unknown (t : Tx.Transaction) (l : Ledger) : Prop :=
  serialized_functions l !! (Tx.class_name t, Tx.function_name t) = None.

(** The configured verifier does not return [True] on the transaction. *)
Definition proof_refused (t : Tx.Transaction) (l : Ledger) : Prop :=
  exists v sf,
    verifier l = Some v /\
    serialized_functions l !! (Tx.class_name t, Tx.function_name t) = Some sf /\
    verify v (Tx.unique_seed t) (Tx.merkle_tree_root t)
      (Tx.consumed_serials t) (Tx.new_records t)
      (General.to_hex_str (Serialized.class_id sf))
      (General.to_hex_str (Serialized.function_id sf))
      (Serialized.instructions sf)
      (General.to_hex_str (current_time l)) (Tx.proof t) <> Ok true.

(** The call accepted the transaction or raised [TxRejectedException]. *)
Definition accepts_or_rejects (r : Result unit) : Prop :=
  r = Ok tt \/ exists msg, r = Raise (TxRejectedException msg).

(** A computation that leaves the published serials and seeds alone. *)
Definition keeps_published {A} (m : SE Ledger A) : Prop :=
  forall l,
    published_serial_numbers (fst (m l)) = published_serial_numbers l
    /\ published_unique_seeds (fst (m l)) = published_unique_seeds l.

End Ledger.
End Ledger.

(* ===================================================================== *)
(** * More of the code, and the vocabulary of its properties              *)
(* ===================================================================== *)

(** ** assembly/functions.py *)

Module Functions.
Import Asm.
Local Close Scope Z_scope.

(** [AssemblyFunction.infer_and_check_types]; the message of the error,
    which goes on with the two types, is cut after its fixed part. *)
Definition AssemblyFunction_infer_and_check_types (allow_type_change : bool)
    (f : AssemblyFunction) : SE Types unit :=
  let! ty := get in
  let original_return_type := ty (return_register f) in
  do! for_each (instructions f) (infer_and_check_types allow_type_change) in
  let! ty := get in
  let actual_return_type := ty (return_register f) in
  raise_if (bool_decide (actual_return_type <> original_return_type))
    (ValueError "Return register has incorrect type annotation").

(** The types [ty'] keep every type of [ty]. *)
Definition keeps_types (ty ty' : Types) : Prop :=
  forall r t, ty r = Some t -> ty' r = Some t.

(** The destination of a write instruction has a type. *)
Definition destination_typed (ty : Types) (i : Instruction) : Prop :=
  is_write i = true -> exists d t, register i = Some d /\ ty d = Some t.

(** The instruction [i] stores into the field [name] of the object in
    [self_register]. *)
Definition stores_field (self_register : option Register) (name : string)
    (i : Instruction) : Prop :=
  kind i = STORE /\ value_1 i = (VRegister <$> self_register) /\
  exists fld t,
    value_2 i = Some (VFieldReference
                        {| field := LinkedField fld; fr_assembly_type := t |})
    /\ field_name fld = name.

(** [f] without its runtime type checks: what the constructor call at the
    end of [inline] makes of the attributes of [f]. *)
Definition without_runtime_checks (f : AssemblyFunction) : AssemblyFunction :=
  {| function_name := function_name f;
     instructions := instructions f;
     runtime_type_check_instructions := [];
     me_register := me_register f;
     argument_registers := argument_registers f;
     return_register := return_register f;
     is_constructor := is_constructor f;
     is_private := is_private f;
     is_private_for := is_private_for f;
     assembly_class := assembly_class f |}.

(** The instructions hold no CALL of a function that is not linked. *)
Definition calls_linked (instrs : list Instruction) : Prop :=
  Forall (fun i => forall q args sis,
            kind i <> CALL (UnlinkedFunction q) args sis) instrs.

(** The instruction [i] is a CALL of the linked function named [k]. *)
Definition calls_function (k : string * string) (i : Instruction) : Prop :=
  exists fp args sis,
    kind i = CALL (LinkedFunction fp) args sis
    /\ k = (fp_class fp, fp_name fp).

End Functions.

(** ** assembly/assembly_class.py: the locations of the fields *)

Module Fields.
Import Asm Compiler.

(** The items of the dict in the order in which they get their
    locations. *)
Definition location_order (d : list (string * AssemblyField))
    : list (string * AssemblyField) :=
  match dict_get "owner" (order_dictionary_by_keys d) with
  | Some f => ("owner", f) :: dict_del "owner" (order_dictionary_by_keys d)
  | None => order_dictionary_by_keys d
  end.

(** The fields of [c] have the locations [set_field_locations] gives:
    from 0 on, no location twice, [owner] at 0. *)
Definition fields_numbered (c : AssemblyClass) : Prop :=
  (forall k f, (k, f) ∈ fields c ->
     exists i : nat,
       field_location f = Some (Z.of_nat i) /\ (i < length (fields c))%nat)
  /\ (forall k1 f1 k2 f2,
        (k1, f1) ∈ fields c -> (k2, f2) ∈ fields c ->
        field_location f1 = field_location f2 -> k1 = k2)
  /\ (forall f, ("owner", f) ∈ fields c -> field_location f = Some 0).

End Fields.

(** ** ledger/ledger.py and assembly/assembly_storage.py: class ids; call
    graphs *)

Module Storage.
Import Asm.
Local Close Scope Z_scope.

(** The loop of [Ledger.get_class_for_id] over
    [self.assembly_storage.assembly_classes.values()]. *)
Fixpoint get_class_for_id_from (cs : list AssemblyClass) (id : nat)
    : Result AssemblyClass :=
  match cs with
  | [] => Raise (ValueError ("unknown class id " +:+ pretty id))
  | c :: cs' =>
      if bool_decide (Some id = class_id c) then Ok c
      else get_class_for_id_from cs' id
  end.

(** [Ledger.get_class_for_id], on the storage of the ledger. *)
Definition get_class_for_id (st : AssemblyStorage) (id : nat)
    : Result AssemblyClass :=
  get_class_for_id_from (dict_values (assembly_classes st)) id.

(** The class ids of a storage: every stored class has an id below the
    next one, recorded under its name in [class_to_id], and no two stored
    classes have the same. *)
Definition class_ids_wf (st : AssemblyStorage) : Prop :=
  NoDup (dict_keys (assembly_classes st))
  /\ (forall k c, (k, c) ∈ assembly_classes st ->
        exists id, class_id c = Some id /\ id < _next_class_id st
                   /\ dict_get k (class_to_id st) = Some id)
  /\ (forall k1 c1 k2 c2,
        (k1, c1) ∈ assembly_classes st -> (k2, c2) ∈ assembly_classes st ->
        class_id c1 = class_id c2 -> k1 = k2).

(** An edge of a call graph: [k'] waits in the list of [k]. *)
Definition edge (g : CallGraph) (k k' : string * string) : Prop :=
  exists callees, dict_get k g = Some callees /\ k' ∈ callees.

(** Every two neighbours of the list are related. *)
Fixpoint chain {K : Type} (R : K -> K -> Prop) (l : list K) : Prop :=
  match l with
  | [] => True
  | k :: rest =>
      match rest with
      | [] => True
      | k' :: _ => R k k' /\ chain R rest
      end
  end.

(** The graph [g] is what is left of [g0]: its edges are edges of [g0]. *)
Definition sub_graph (g0 g : CallGraph) : Prop :=
  forall k k', edge g k k' -> edge g0 k k'.

(** The lists of the graph name keys of the graph, each once. *)
Definition graph_closed (g : CallGraph) : Prop :=
  forall k callees, dict_get k g = Some callees ->
    NoDup callees /\ forall k', k' ∈ callees -> k' ∈ dict_keys g.

End Storage.

(** ** compiler/register_allocation.py: live registers *)

Module Liveness.
Import Asm RegAlloc.

(** The register [r] is among the registers of the instruction at position
    [k] of [all]. *)
Definition used_at (all : list Instruction) (k : nat) (r : Register) : Prop :=
  exists i, all !! k = Some i /\ r ∈ get_registers i.

Definition used_from (all : list Instruction) (k : nat) (r : Register)
    : Prop :=
  exists j, (k <= j)%nat /\ used_at all j r.

Definition never_used (all : list Instruction) (r : Register) : Prop :=
  forall j, ~ used_at all j r.

(** [r] is live at position [k] of the function: it is a parameter or an
    instruction up to position [k] has it, and an instruction from position
    [k] on has it. *)
Definition live (function : AssemblyFunction) (k : nat) (r : Register)
    : Prop :=
  (r ∈ me_register function :: argument_registers function
   \/ exists a, (a <= k)%nat /\ used_at (get_all_instructions function) a r)
  /\ used_from (get_all_instructions function) k r.

Section Interference.
Context {S : Type} `{PS : PySet S}.
Implicit Types (st : @State S) (r : Register).

(** [r] holds its slot at position [k]: it has one, and it is used from
    [k] on or never. *)
Definition owned (all : list Instruction) (k : nat) st r : Prop :=
  location st r <> -1 /\ (used_from all k r \/ never_used all r).

Record AllocInv (all : list Instruction) (k : nat) st : Prop := {
  inv_n : 0 <= n_registers (allocator st);
  inv_loc : forall r,
    location st r = -1 \/ 0 <= location st r < n_registers (allocator st);
  inv_pool : forall s, s ∈ pool st -> 0 <= s < n_registers (allocator st);
  inv_inj : forall r1 r2,
    owned all k st r1 -> owned all k st r2 ->
    location st r1 = location st r2 -> r1 = r2;
  inv_free : forall r, owned all k st r -> location st r ∉ pool st;
}.

(** The state while the registers of the instruction at position [k] are
    released. *)
Record ReleaseInv (all : list Instruction) (k : nat) st : Prop := {
  rel_n : 0 <= n_registers (allocator st);
  rel_loc : forall r,
    location st r = -1 \/ 0 <= location st r < n_registers (allocator st);
  rel_pool : forall s, s ∈ pool st -> 0 <= s < n_registers (allocator st);
  rel_inj : forall r1 r2,
    owned all k st r1 -> owned all k st r2 ->
    location st r1 = location st r2 -> r1 = r2;
  rel_free : forall r,
    owned all (Datatypes.S k) st r -> location st r ∉ pool st;
}.

(** The state of [run] after the first [k] instructions. *)
Definition state_at (function : AssemblyFunction) (loc : Register -> Z)
    (k : nat) : @State S :=
  fold_left
    (process_instruction (compute_last_used (get_all_instructions function)))
    (take k (get_all_instructions function))
    (allocate_parameters function
       {| allocator := new_allocation; location := loc |}).

End Interference.
End Liveness.

(** ** ledger/ledger.py: what a call changes *)

Module LedgerState.
Import Ledger.
Section LedgerState.
Context `{B : Backend} `{P : Pipeline}.

(** Records inserted from index [idx] on. *)
Fixpoint insert_all (idx : nat) (rs : list string) (t : MerkleTree)
    : MerkleTree :=
  match rs with
  | [] => t
  | r :: rs' => insert_all (S idx) rs' (mt_insert idx r t)
  end.

(** The functions of [c.functions.values()] that are not private. *)
Definition public_functions
    (fs : list (string * bool * (Z -> Result Serialized.SerializedFunction)))
    : list (string * bool * (Z -> Result Serialized.SerializedFunction)) :=
  filter (fun f => snd (fst f) = false) fs.

(** The ledger [l'] is [l] but for the serialized functions. *)
Definition same_but_functions (l l' : Ledger) : Prop :=
  assembly_storage l' = assembly_storage l
  /\ published_serial_numbers l' = published_serial_numbers l
  /\ published_unique_seeds l' = published_unique_seeds l
  /\ merkle_tree l' = merkle_tree l
  /\ next_record_idx l' = next_record_idx l
  /\ accepted_transactions l' = accepted_transactions l
  /\ current_time l' = current_time l
  /\ verifier l' = verifier l.

(** The ledger [l'] is [l] but for the storage and the serialized
    functions. *)
Definition same_transaction_state (l l' : Ledger) : Prop :=
  published_serial_numbers l' = published_serial_numbers l
  /\ published_unique_seeds l' = published_unique_seeds l
  /\ merkle_tree l' = merkle_tree l
  /\ next_record_idx l' = next_record_idx l
  /\ accepted_transactions l' = accepted_transactions l
  /\ current_time l' = current_time l
  /\ verifier l' = verifier l.

End LedgerState.
End LedgerState.

(** Stubs of the collaborators, for running the ledger on concrete
    transactions: the tree keeps the inserted records and its root is their
    number; the verifier accepts every proof; a set is listed in the order
    of [elements]; every phase of the storage succeeds and each class has
    the one public function [f]. *)
Definition stub_backend : Backend := {|
  MerkleTree := list (nat * string);
  mt_insert := fun i r t => t ++ [(i, r)];
  mt_get_root := fun t => pretty (length t);
  Verifier := unit;
  verify := fun _ _ _ _ _ _ _ _ _ _ => Ok true;
  list_of_set := fun _ s => elements s;
  list_of_set_perm := fun _ _ => Permutation_refl _;
|}.

Definition stub_pipeline : Pipeline := {|
  AssemblyStorage := unit;
  AssemblyClass := unit;
  new_storage := tt;
  add_class := fun _ => ret tt;
  link_new_classes := ret tt;
  check_new_classes := ret tt;
  inline_new_classes := ret tt;
  insert_runtime_checks_for_new_classes := ret tt;
  allocation_for_new_classes := ret tt;
  reset_new_classes := ret tt;
  qualified_name := fun _ => "Class";
  functions_values := fun _ _ =>
    [("f", false,
      fun function_id =>
        Ok {| Serialized.class_id := 0;
              Serialized.function_id := function_id;
              Serialized.return_register := 0;
              Serialized.instructions := [] |})];
|}.

(* ===================================================================== *)
(** * Worked inputs                                                       *)
(* ===================================================================== *)

(** ** The ledger *)

Module LedgerExamples.
Import Ledger.

(** A ledger on which nothing was registered. *)
Definition ex_new_ledger : Ledger (B := stub_backend) (P := stub_pipeline) :=
  init (B := stub_backend) (P := stub_pipeline) [] None.

(** The ledger after [register_classes] of one class: it knows [Class.f]. *)
Definition ex_ledger : Ledger (B := stub_backend) (P := stub_pipeline) :=
  fst (register_classes (B := stub_backend) (P := stub_pipeline) [tt]
         ex_new_ledger).

Definition ex_tx : Tx.Transaction :=
  {| Tx.class_name := "Class"; Tx.function_name := "f";
     Tx.merkle_tree_root := "0";
     Tx.consumed_serials := ["1"; "2"];
     Tx.new_records := ["0acf"; "11ce"];
     Tx.proof := None;
     Tx.unique_seed := "3cf102a";
     Tx.current_time := 5555 |}.

Definition ex_tx_2 : Tx.Transaction :=
  {| Tx.class_name := "Class"; Tx.function_name := "f";
     Tx.merkle_tree_root := "2";
     Tx.consumed_serials := ["3"];
     Tx.new_records := ["77aa"];
     Tx.proof := None;
     Tx.unique_seed := "51b6";
     Tx.current_time := 5555 |}.

(** [ex_ledger] after it accepted [ex_tx]. *)
Definition ex_ledger_1 : Ledger (B := stub_backend) (P := stub_pipeline) :=
  fst (verify_and_execute_transaction ex_tx ex_ledger).

End LedgerExamples.

(** ** Assembly *)

Module AsmExamples.
Import Asm.

Definition reg (l : string) (id : nat) : Register :=
  {| label := l; rid := id |}.

Definition mk_function (cls name : string) (instrs : list Instruction)
    (me : Register) (args : list Register) (ret : Register)
    : AssemblyFunction :=
  {| function_name := name; instructions := instrs;
     runtime_type_check_instructions := [];
     me_register := me; argument_registers := args; return_register := ret;
     is_constructor := false; is_private := false; is_private_for := None;
     assembly_class := Some cls |}.

Definition mk_class (name : string) (id : nat) (fs : list AssemblyFunction)
    : AssemblyClass :=
  {| qualified_name := name; has_address := false;
     fields :=
       [("owner", {| field_name := "owner"; field_type := Address;
                     field_location := Some 0%Z |})];
     functions := (fun f => (function_name f, f)) <$> fs;
     class_id := Some id |}.

Definition pointer (f : AssemblyFunction) : CallTarget :=
  LinkedFunction
    {| fp_class := default "" (assembly_class f);
       fp_name := function_name f;
       fp_argument_registers := argument_registers f;
       fp_return_register := return_register f |}.

(** [B.g(x)] returns [x]. *)
Definition ex_g : AssemblyFunction :=
  mk_function "B" "g"
    [MoveInstruction 100 (reg "return" 3) (VRegister (reg "x" 2))]
    (reg "me" 1) [reg "x" 2] (reg "return" 3).

(** [A.f(y)] returns [B.g(y)]. *)
Definition ex_f : AssemblyFunction :=
  mk_function "A" "f"
    [CallInstruction 101 (reg "res#1" 7) (pointer ex_g)
       [VRegister (reg "y" 5)] false;
     MoveInstruction 102 (reg "return" 6) (VRegister (reg "res#1" 7))]
    (reg "me" 4) [reg "y" 5] (reg "return" 6).

Definition ex_storage : AssemblyStorage :=
  {| assembly_classes :=
       [("A", mk_class "A" 0 [ex_f]); ("B", mk_class "B" 1 [ex_g])];
     classes_to_check := ["A"; "B"];
     class_to_id := [("A", 0%nat); ("B", 1%nat)];
     _next_class_id := 2%nat |}.

Definition ex_world : World := {| storage := ex_storage; next_id := 1000 |}.

(** [A.f] after inlining: the CALL, at position 0, became four MOVs. *)
Definition ex_f_inlined : AssemblyFunction :=
  mk_function "A" "f"
    [MoveInstruction 1004 (reg "me#inlined#0" 1000) (VRegister (reg "me" 4));
     MoveInstruction 1005 (reg "x#inlined#0" 1001) (VRegister (reg "y" 5));
     MoveInstruction 1003 (reg "return#inlined#0" 1002)
       (VRegister (reg "x#inlined#0" 1001));
     MoveInstruction 1006 (reg "res#1" 7)
       (VRegister (reg "return#inlined#0" 1002));
     MoveInstruction 102 (reg "return" 6) (VRegister (reg "res#1" 7))]
    (reg "me" 4) [reg "y" 5] (reg "return" 6).

Definition ex_world_inlined : World :=
  {| storage :=
       {| assembly_classes :=
            [("A", mk_class "A" 0 [ex_f_inlined]);
             ("B", mk_class "B" 1 [ex_g])];
          classes_to_check := ["A"; "B"];
          class_to_id := [("A", 0%nat); ("B", 1%nat)];
          _next_class_id := 2%nat |};
     next_id := 1007 |}.

(** The classes of the cycle: [A.f] calls [B.g] and this [B.g] calls
    [A.f]. *)
Definition ex_g_calling_f : AssemblyFunction :=
  mk_function "B" "g"
    [CallInstruction 103 (reg "return" 3)
       (LinkedFunction {| fp_class := "A"; fp_name := "f";
                          fp_argument_registers := [reg "y" 5];
                          fp_return_register := reg "return" 6 |})
       [VRegister (reg "x" 2)] false]
    (reg "me" 1) [reg "x" 2] (reg "return" 3).

Definition ex_cyclic_storage : AssemblyStorage :=
  {| assembly_classes :=
       [("A", mk_class "A" 0 [ex_f]); ("B", mk_class "B" 1 [ex_g_calling_f])];
     classes_to_check := ["A"; "B"];
     class_to_id := [("A", 0%nat); ("B", 1%nat)];
     _next_class_id := 2%nat |}.

Definition ex_cyclic : World :=
  {| storage := ex_cyclic_storage; next_id := 1000 |}.

(** A function of tests/assembly/test_linking.py: no instruction at all. *)
Definition ex_empty_function : AssemblyFunction :=
  mk_function "some_class" "some_fn" [] (reg "me" 0) [] (reg "arg" 1).

(** A function with a dot in the label of a register. *)
Definition ex_dotted : Register := reg "x.y" 1.

Definition ex_dotted_function : AssemblyFunction :=
  mk_function "C" "f"
    [MoveInstruction 10 (reg "return" 2) (VRegister ex_dotted)]
    (reg "me" 0) [ex_dotted] (reg "return" 2).

(** Typing: a register of unknown type as the destination. *)
Definition ex_d : Register := reg "res#1" 0.

Definition no_types : Types := fun _ => None.

Definition ex_cmov : Instruction :=
  ConditionalMoveInstruction 0 ex_d (VConstant 1 Uint) (VConstant 2 Uint).

Definition ex_mov : Instruction :=
  MoveInstruction 0 ex_d (VConstant 1 Uint).

End AsmExamples.

(** ** Register allocation *)

Module RegAllocExamples.
Import Asm RegAlloc AsmExamples.

Definition ex_me : Register := reg "me" 0.

Definition ex_r (k : nat) : Register := reg ("r#" +:+ pretty k) k.

Definition ex_const : Value := VConstant 7 Uint.

(** Seven instructions; the fifth is the last use of [r#1] and [r#3],
    the third that of [r#2]. *)
Definition ex_pool_function : AssemblyFunction :=
  mk_function "C" "f"
    [ MoveInstruction 10 (ex_r 1) ex_const;
      MoveInstruction 11 (ex_r 2) ex_const;
      MoveInstruction 12 (ex_r 3) (VRegister (ex_r 2));
      MoveInstruction 13 (ex_r 4) ex_const;
      BinaryOperationInstruction 14 PLUS (ex_r 5)
        (VRegister (ex_r 1)) (VRegister (ex_r 3));
      MoveInstruction 15 (ex_r 6) ex_const;
      BinaryOperationInstruction 16 PLUS (ex_r 4)
        (VRegister (ex_r 5)) (VRegister (ex_r 6)) ]
    ex_me [] (ex_r 4).

(** [location = -1] on every register, as [Register.__init__] leaves it. *)
Definition unallocated : Register -> Z := fun _ => -1.

(** The state of the allocation of [ex_pool_function] after its first five
    instructions. *)
Definition ex_pool_state : State (S := FingerSet) :=
  fold_left
    (process_instruction
       (compute_last_used (get_all_instructions ex_pool_function)))
    (take 5 (get_all_instructions ex_pool_function))
    (allocate_parameters ex_pool_function
       {| allocator := new_allocation; location := unallocated |}).

(** The [me] register is also the first argument. *)
Definition ex_alias_function : AssemblyFunction :=
  mk_function "C" "f" [] ex_me [ex_me] (ex_r 1).

(** Two arguments, all registers distinct. *)
Definition ex_two_arguments : AssemblyFunction :=
  mk_function "C" "f"
    [BinaryOperationInstruction 10 PLUS (ex_r 3)
       (VRegister (ex_r 1)) (VRegister (ex_r 2))]
    ex_me [ex_r 1; ex_r 2] (ex_r 3).

End RegAllocExamples.

(** ** More inputs *)

Module MoreExamples.
Import Asm Compiler AsmExamples Functions.

(** The field [amount], not yet in a class. *)
Definition ex_amount : AssemblyField :=
  {| field_name := "amount"; field_type := Uint; field_location := None |}.

(** The class [Coin], with the field [owner] alone. *)
Definition ex_coin : AssemblyClass := mk_class "Coin" 0 [].

(** The contract [Coin]: the fields [owner] and [amount], and the function
    [zero], which returns 0. *)
Definition ex_contract : Contract :=
  {| contract_name := "Coin"; contract_has_address := false;
     zapper_fields := [("owner", Address); ("amount", Uint)];
     zapper_functions :=
       [{| contract_type := "Coin"; name := "zero";
           argument_types := [("self", ClassType "Coin")];
           return_type := Uint; is_private := false; is_private_for := None;
           is_constructor := false;
           function_code := fun _ _ => ret ([], ReturnedInt 0) |}] |}.

Definition ex_compiler_state : CompilerState :=
  {| next_object := 0; types := no_types |}.

(** A constructor of [Coin]: the NEW, then the STORE into [owner]. *)
Definition ex_owner_reference : FieldReference :=
  {| field := LinkedField {| field_name := "owner"; field_type := Address;
                             field_location := Some 0 |};
     fr_assembly_type := Address |}.

Definition ex_constructor : AssemblyFunction :=
  mk_function "Coin" "create"
    [NewInstruction 20 (reg "obj" 11) (LinkedClass "Coin");
     StoreInstruction 21 (reg "o" 12) (VRegister (reg "obj" 11))
       ex_owner_reference;
     MoveInstruction 22 (reg "return" 13) (VRegister (reg "obj" 11))]
    (reg "me" 10) [reg "o" 12] (reg "return" 13).

(** A function that moves a constant through [res#1] into its return
    register, and types in which the return register alone has a type. *)
Definition ex_typed_function : AssemblyFunction :=
  mk_function "C" "f"
    [ex_mov; MoveInstruction 1 (reg "return" 2) (VRegister ex_d)]
    (reg "me" 1) [] (reg "return" 2).

Definition ex_types : Types := set_type (reg "return" 2) (Some Uint) no_types.

(** The storage after [add_class] of [Coin]. *)
Definition ex_coin_storage : AssemblyStorage :=
  {| assembly_classes := [("Coin", ex_coin)];
     classes_to_check := ["Coin"];
     class_to_id := [("Coin", 0%nat)];
     _next_class_id := 1%nat |}.

End MoreExamples.

(* ===================================================================== *)
(** * Part II: properties                                                 *)
(* ===================================================================== *)

(** ** The monad *)

Lemma bind_Ok {S A B} (m : SE S A) (k : A -> SE S B) s s' b :
  Py.bind m k s = (s', Ok b) ->
  exists s1 a, m s = (s1, Ok a) /\ k a s1 = (s', Ok b).
Proof.
  unfold Py.bind. destruct (m s) as [s1 [a|e]]; [eauto | discriminate].
Qed.

Lemma ret_Ok {S A} (x : A) (s s' : S) a :
  Py.ret x s = (s', Ok a) -> s' = s /\ a = x.
Proof. unfold Py.ret. intros [= -> ->]. done. Qed.


Lemma of_result_Ok {S A} (r : Result A) (s s' : S) a :
  of_result r s = (s', Ok a) -> s' = s /\ r = Ok a.
Proof. unfold of_result. intros [= -> ->]. done. Qed.

(** ** Dicts *)

Section DictFacts.
Context {K V : Type} `{EqDecision K}.
Implicit Types (d : list (K * V)).

Lemma dict_get_set (k k' : K) (v : V) d :
  dict_get k (dict_set k' v d) = if decide (k = k') then Some v else dict_get k d.
Proof.
  induction d as [|[k0 v0] d IH]; simpl.
  - by destruct (decide (k = k')).
  - destruct (decide (k' = k0)) as [->|Hne]; simpl.
    + by destruct (decide (k = k0)).
    + destruct (decide (k = k0)) as [->|]; [by rewrite decide_False|done].
Qed.

Lemma dict_get_elem k v d : dict_get k d = Some v -> (k, v) ∈ d.
Proof.
  induction d as [|[k0 v0] d IH]; simpl; [done|].
  destruct (decide (k = k0)) as [->|]; [intros [= ->]; set_solver|].
  intros H. apply elem_of_cons. right. by apply IH.
Qed.

Lemma dict_get_None k d : dict_get k d = None <-> k ∉ dict_keys d.
Proof.
  induction d as [|[k0 v0] d IH]; simpl; [set_solver|].
  destruct (decide (k = k0)) as [->|]; [set_solver|].
  rewrite IH. unfold dict_keys. set_solver.
Qed.

Lemma dict_get_is_Some k d : is_Some (dict_get k d) <-> k ∈ dict_keys d.
Proof.
  destruct (dict_get k d) eqn:E.
  - split; [|by eauto]. intros _. apply dict_get_elem in E.
    unfold dict_keys. apply list_elem_of_fmap. by exists (k, v).
  - apply dict_get_None in E. split; [by intros [? ?]|done].
Qed.

Lemma elem_dict_get k v d : NoDup (dict_keys d) -> (k, v) ∈ d -> dict_get k d = Some v.
Proof.
  induction d as [|[k0 v0] d IH]; simpl; [set_solver|].
  intros [Hk0 Hnd]%NoDup_cons [Heq|Hin]%elem_of_cons.
  - injection Heq as -> ->. by rewrite decide_True.
  - rewrite decide_False; [by apply IH|]. intros ->. apply Hk0.
    apply list_elem_of_fmap. by exists (k0, v).
Qed.

Lemma dict_set_keys k v d :
  dict_keys (dict_set k v d)
  = if bool_decide (k ∈ dict_keys d) then dict_keys d else dict_keys d ++ [k].
Proof.
  induction d as [|[k0 v0] d IH]; simpl; [done|].
  destruct (decide (k = k0)) as [->|Hne]; simpl.
  - rewrite bool_decide_eq_true_2 by set_solver. done.
  - rewrite IH. case_bool_decide as H1; case_bool_decide as H2; try done; set_solver.
Qed.

Lemma dict_set_NoDup k v d : NoDup (dict_keys d) -> NoDup (dict_keys (dict_set k v d)).
Proof.
  intros Hnd. rewrite dict_set_keys. case_bool_decide; [done|].
  apply NoDup_app. split; [done|]. split; [set_solver|apply NoDup_singleton].
Qed.

Lemma dict_set_length k v d :
  length (dict_set k v d) = if bool_decide (k ∈ dict_keys d) then length d else S (length d).
Proof.
  rewrite <- (length_fmap fst (dict_set k v d)), <- (length_fmap fst d).
  fold (dict_keys (dict_set k v d)). fold (dict_keys d).
  rewrite dict_set_keys. case_bool_decide; [done|]. rewrite length_app. simpl. lia.
Qed.

Lemma dict_del_keys_subseteq k d : dict_keys (dict_del k d) ⊆ dict_keys d.
Proof.
  induction d as [|[k0 v0] d IH]; simpl; [done|].
  destruct (decide (k = k0)); simpl; set_solver.
Qed.

Lemma dict_del_NoDup k d : NoDup (dict_keys d) -> NoDup (dict_keys (dict_del k d)).
Proof.
  induction d as [|[k0 v0] d IH]; simpl; [done|].
  intros [Hk0 Hnd]%NoDup_cons. destruct (decide (k = k0)); [done|]. simpl.
  apply NoDup_cons. split; [|by apply IH].
  intros Hin. apply Hk0. by apply (dict_del_keys_subseteq k).
Qed.

Lemma dict_get_del k k' d :
  NoDup (dict_keys d) ->
  dict_get k' (dict_del k d) = if decide (k' = k) then None else dict_get k' d.
Proof.
  induction d as [|[k0 v0] d IH]; simpl; [by destruct (decide (k' = k))|].
  intros [Hk0 Hnd]%NoDup_cons.
  destruct (decide (k = k0)) as [->|Hne]; simpl.
  - destruct (decide (k' = k0)) as [->|]; [|done]. by apply dict_get_None.
  - rewrite IH by done. destruct (decide (k' = k0)) as [->|]; [by rewrite decide_False|done].
Qed.

Lemma dict_del_length k d :
  k ∈ dict_keys d -> S (length (dict_del k d)) = length d.
Proof.
  induction d as [|[k0 v0] d IH]; simpl; [set_solver|].
  destruct (decide (k = k0)) as [->|Hne]; [done|]. simpl.
  intros Hin. rewrite IH; [done|set_solver].
Qed.
End DictFacts.

(** ** The ledger *)

Section LedgerProperties.
Import Ledger.
Context `{B : Backend} `{P : Pipeline}.

Lemma collect_serials_ok ss : forall acc (l : Ledger),
  NoDup ss -> (forall s, s ∈ ss -> s ∉ acc) ->
  collect_serials ss acc l = (l, Ok (list_to_set ss ∪ acc)).
Proof.
  induction ss as [|s ss IH]; intros acc l Hnd Hdisj; simpl.
  - unfold ret. f_equal. f_equal. set_solver.
  - unfold add_to_set_check_unique.
    rewrite bool_decide_eq_false_2 by (apply Hdisj; set_solver). simpl.
    apply NoDup_cons in Hnd as [Hs Hnd].
    rewrite IH; [| done |].
    + f_equal. f_equal. set_solver.
    + intros s' Hs'. specialize (Hdisj s'). set_solver.
Qed.

Lemma collect_serials_raise ss : forall acc (l : Ledger),
  ~ (NoDup ss /\ forall s, s ∈ ss -> s ∉ acc) ->
  collect_serials ss acc l =
    (l, Raise (TxRejectedException "serial numbers of transaction not unique")).
Proof.
  induction ss as [|s ss IH]; intros acc l Hbad; simpl.
  - exfalso. apply Hbad. split; [constructor | set_solver].
  - unfold add_to_set_check_unique.
    destruct (decide (s ∈ acc)) as [Hin|Hnin].
    + rewrite bool_decide_eq_true_2 by done. done.
    + rewrite bool_decide_eq_false_2 by done. simpl.
      apply IH. intros [Hnd Hdisj]. apply Hbad. split.
      * apply NoDup_cons. split; [|done]. intros Hs. apply (Hdisj s Hs). set_solver.
      * intros s' Hs'. apply elem_of_cons in Hs' as [->|Hs']; [done|].
        specialize (Hdisj s' Hs'). set_solver.
Qed.


Lemma for_each_insert_record rs : forall l : Ledger,
  exists l', for_each rs insert_record l = (l', Ok tt)
    /\ published_serial_numbers l' = published_serial_numbers l
    /\ published_unique_seeds l' = published_unique_seeds l.
Proof.
  induction rs as [|r rs IH]; intros l; simpl.
  - eexists; split; [reflexivity | done].
  - unfold bind at 1. unfold insert_record at 1. unfold bind at 1. unfold modify at 1 2.
    simpl.
    match goal with
    | |- context [for_each rs insert_record ?x] =>
        destruct (IH x) as (l' & -> & ? & ?)
    end.
    eexists; split; [reflexivity|]. simpl in *. done.
Qed.

Lemma size_inter_zero (ss : list string) (pub : gset string) :
  Nat.eqb (size ((list_to_set ss ∪ ∅) ∩ pub)) 0 = true ->
  ~ (exists s, s ∈ ss /\ s ∈ pub).
Proof.
  rewrite Nat.eqb_eq, size_empty_iff. intros Hemp (s & Hs & Hp). set_solver.
Qed.

Lemma size_inter_pos (ss : list string) (pub : gset string) :
  Nat.eqb (size ((list_to_set ss ∪ ∅) ∩ pub)) 0 = false ->
  exists s, s ∈ ss /\ s ∈ pub.
Proof.
  rewrite Nat.eqb_neq, size_empty_iff. intros Hne.
  apply set_choose in Hne as [s Hs]. exists s. set_solver.
Qed.

Lemma state_update_spec (t : Tx.Transaction) (ss : gset string) (l : Ledger) :
  exists l', state_update t ss l = (l', Ok tt)
    /\ published_serial_numbers l' = published_serial_numbers l ∪ ss
    /\ published_unique_seeds l' = {[Tx.unique_seed t]} ∪ published_unique_seeds l.
Proof.
  unfold state_update. unfold bind at 1, modify at 1. unfold bind at 1, modify at 1.
  unfold bind at 1.
  match goal with |- context [for_each _ insert_record ?x] =>
    destruct (for_each_insert_record (Tx.new_records t) x) as (l' & -> & Hp1 & Hp2) end.
  unfold modify. eexists. split; [reflexivity|]. simpl in *. by rewrite Hp1, Hp2.
Qed.

Ltac step_in H :=
  cbv beta iota zeta delta
    [bind get raise raise_if ret of_result try_except get_serialized_function check_proof] in H.

(** The four ways a call of [verify_and_execute_transaction] ends. *)
Lemma verify_cases (t : Tx.Transaction) (l : Ledger) :
  (precheck_fails t l /\
   exists m,
     verify_and_execute_transaction t l = (l, Raise (TxRejectedException m)))
  \/ (~ precheck_fails t l /\ function_unknown t l /\
      verify_and_execute_transaction t l
      = (l, Raise (ValueError
                     ("unknown function " +:+ Tx.class_name t +:+ "."
                      +:+ Tx.function_name t +:+ " or function not public"))))
  \/ (~ precheck_fails t l /\ proof_refused t l /\
      exists m,
        verify_and_execute_transaction t l
        = (l, Raise (TxRejectedException m)))
  \/ (~ precheck_fails t l /\ ~ function_unknown t l /\ ~ proof_refused t l /\
      exists l', verify_and_execute_transaction t l = (l', Ok tt)
        /\ published_serial_numbers l'
           = published_serial_numbers l ∪ list_to_set (Tx.consumed_serials t)
        /\ published_unique_seeds l'
           = {[Tx.unique_seed t]} ∪ published_unique_seeds l).
Proof.
  destruct (verify_and_execute_transaction t l) as [l1 r1] eqn:Hr.
  unfold verify_and_execute_transaction in Hr.
  unfold precheck_fails, serials_repeat, serial_published, seed_replayed, root_stale, time_wrong.
  step_in Hr.
  destruct (decide (NoDup (Tx.consumed_serials t))) as [Hnd|Hnd]; cycle 1.
  { left. rewrite collect_serials_raise in Hr by (intros [? _]; done).
    simplify_eq. split; [by left|]. eauto. }
  rewrite collect_serials_ok in Hr by (done || set_solver).
  destruct (Nat.eqb _ 0) eqn:Hsz; simpl in Hr; cycle 1.
  { left. simplify_eq. split; [|eauto]. right; left. by apply size_inter_pos. }
  apply size_inter_zero in Hsz.
  destruct (bool_decide _) eqn:Hseed; simpl in Hr.
  { left. simplify_eq. apply bool_decide_eq_true in Hseed. split; [|eauto]. tauto. }
  apply bool_decide_eq_false in Hseed.
  destruct (String.eqb _ _) eqn:Hroot; simpl in Hr; cycle 1.
  { left. simplify_eq. apply String.eqb_neq in Hroot. split; [|eauto]. tauto. }
  apply String.eqb_eq in Hroot.
  destruct (Z.eqb _ _) eqn:Htime; simpl in Hr; cycle 1.
  { left. simplify_eq. apply Z.eqb_neq in Htime. split; [|eauto]. tauto. }
  apply Z.eqb_eq in Htime.
  assert (Hpre : ~ (~ NoDup (Tx.consumed_serials t) \/
      (exists s, s ∈ Tx.consumed_serials t /\ s ∈ published_serial_numbers l) \/
      Tx.unique_seed t ∈ published_unique_seeds l \/
      Tx.merkle_tree_root t <> mt_get_root (merkle_tree l) \/
      Tx.current_time t <> current_time l)) by tauto.
  right.
  unfold function_unknown, proof_refused.
  destruct (serialized_functions l !! _) as [sf|] eqn:Hsf; cycle 1.
  { left. simplify_eq. split; [done|]. split; done. }
  right.
  destruct (state_update_spec t (list_to_set (Tx.consumed_serials t) ∪ ∅) l)
    as (l' & Hup & Hp1 & Hp2).
  assert (Hp1' : published_serial_numbers l' =
                 published_serial_numbers l ∪ list_to_set (Tx.consumed_serials t))
    by (rewrite Hp1; set_solver).
  destruct (verifier l) as [v|] eqn:Hv.
  - destruct (verify v _ _ _ _ _ _ _ _ _) as [[]|e] eqn:Hver; simpl in Hr.
    + right. rewrite Hup in Hr. simplify_eq.
      split; [done|]. split; [congruence|]. split.
      { intros (v' & sf' & Hv' & Hsf' & Hne). simplify_eq. }
      eauto.
    + left. simplify_eq. split; [done|]. split; [|eauto].
      exists v, sf. rewrite Hver. done.
    + left. simplify_eq. split; [done|]. split; [|eauto].
      exists v, sf. rewrite Hver. done.
  - right. rewrite Hup in Hr. simplify_eq.
    split; [done|]. split; [congruence|]. split.
    { intros (v' & sf' & Hv' & _). congruence. }
    eauto.
Qed.


Lemma verify_accept_facts (t : Tx.Transaction) (l l' : Ledger) :
  verify_and_execute_transaction t l = (l', Ok tt) ->
  ~ precheck_fails t l
  /\ published_serial_numbers l'
     = published_serial_numbers l ∪ list_to_set (Tx.consumed_serials t)
  /\ published_unique_seeds l' = {[Tx.unique_seed t]} ∪ published_unique_seeds l.
Proof.
  intros Hv.
  destruct (verify_cases t l)
    as [(_ & m & H)|[(_ & _ & H)|[(_ & _ & m & H)
       |(Hp & _ & _ & l2 & H & H1 & H2)]]];
    rewrite H in Hv; try discriminate.
  injection Hv as ->. done.
Qed.

Lemma verify_reject_unchanged (t : Tx.Transaction) (l l' : Ledger) e :
  verify_and_execute_transaction t l = (l', Raise e) -> l' = l.
Proof.
  intros Hv.
  destruct (verify_cases t l)
    as [(_ & m & H)|[(_ & _ & H)|[(_ & _ & m & H)
       |(Hp & _ & _ & l2 & H & H1 & H2)]]];
    rewrite H in Hv; by simplify_eq.
Qed.

Lemma accepted_history_split (txs : list Tx.Transaction) :
  forall (l0 : Ledger) h1 l t h2,
  accepted_history l0 txs = h1 ++ (l, t) :: h2 ->
  (exists l2, verify_and_execute_transaction t l = (l2, Ok tt))
  /\ published_serial_numbers l0 ⊆ published_serial_numbers l
  /\ published_unique_seeds l0 ⊆ published_unique_seeds l
  /\ forall l' t', (l', t') ∈ h1 ->
       list_to_set (Tx.consumed_serials t') ⊆ published_serial_numbers l
       /\ Tx.unique_seed t' ∈ published_unique_seeds l.
Proof.
  induction txs as [|t1 txs IH]; intros l0 h1 l t h2 Hh; simpl in Hh.
  { by destruct h1. }
  destruct (verify_and_execute_transaction t1 l0) as [l1 [[]|e]] eqn:Hv.
  - destruct (verify_accept_facts _ _ _ Hv) as (_ & Hp & Hs).
    destruct h1 as [|[la ta] h1]; simpl in Hh.
    + injection Hh as <- <- _. split; [eauto|]. split; [done|]. split; [done|].
      intros ? ? Hin. by apply elem_of_nil in Hin.
    + injection Hh as <- <- Hh. apply IH in Hh as (Hacc & Hpub & Hseed & Hall).
      split; [done|]. rewrite Hp in Hpub. rewrite Hs in Hseed.
      split; [set_solver|]. split; [set_solver|].
      intros l' t' [Heq|Hin]%elem_of_cons; [|by apply (Hall l' t')].
      injection Heq as -> ->. split; set_solver.
  - apply verify_reject_unchanged in Hv as ->. by apply IH in Hh.
Qed.

(** C1 (amended).  A call of [verify_and_execute_transaction] that raises
    leaves the whole ledger as it was.  What it raises depends on the check
    that fails: [TxRejectedException] for repeated serials, a published
    serial, a replayed seed, a stale root or a wrong timestamp, and for a
    verifier that raises or does not return [True]; but [ValueError], from
    [get_serialized_function], for a (class, function) pair that is unknown
    or not public.  When no check fails the transaction is accepted. *)
Theorem transaction_outcome (t : Tx.Transaction) (l : Ledger) :
  (forall e, snd (verify_and_execute_transaction t l) = Raise e ->
             fst (verify_and_execute_transaction t l) = l)
  /\ ((precheck_fails t l /\
       exists m, snd (verify_and_execute_transaction t l)
                 = Raise (TxRejectedException m))
      \/ (~ precheck_fails t l /\ function_unknown t l /\
          snd (verify_and_execute_transaction t l)
          = Raise (ValueError
                     ("unknown function " +:+ Tx.class_name t +:+ "."
                      +:+ Tx.function_name t +:+ " or function not public")))
      \/ (~ precheck_fails t l /\ proof_refused t l /\
          exists m, snd (verify_and_execute_transaction t l)
                    = Raise (TxRejectedException m))
      \/ (~ precheck_fails t l /\ ~ function_unknown t l /\
          ~ proof_refused t l /\
          snd (verify_and_execute_transaction t l) = Ok tt)).
Proof.
  split.
  - intros e He.
    destruct (verify_and_execute_transaction t l) as [l' r] eqn:Hv.
    simpl in *. subst r. by eapply verify_reject_unchanged.
  - destruct (verify_cases t l)
      as [(Hp & m & H)|[(Hp & Hu & H)|[(Hp & Hr & m & H)
         |(Hp & Hu & Hr & l2 & H & _)]]]; rewrite H; simpl.
    + left. eauto.
    + right; left. done.
    + right; right; left. eauto.
    + right; right; right. done.
Qed.

(** C2.  In a sequence of submissions, an accepted transaction [t] has
    mutually distinct serials, none of them a serial of a transaction
    accepted before it ([h1]); its seed is the seed of none of those; and
    its root is the root of the tree of the ledger [l] it was submitted to,
    before its records are inserted. *)
Theorem accepted_transactions_fresh (l0 : Ledger) (txs : list Tx.Transaction)
    h1 l t h2 :
  accepted_history l0 txs = h1 ++ (l, t) :: h2 ->
  NoDup (Tx.consumed_serials t)
  /\ (forall l' t' s, (l', t') ∈ h1 -> s ∈ Tx.consumed_serials t ->
                      s ∉ Tx.consumed_serials t')
  /\ (forall l' t', (l', t') ∈ h1 -> Tx.unique_seed t <> Tx.unique_seed t')
  /\ Tx.merkle_tree_root t = mt_get_root (merkle_tree l).
Proof.
  intros Hh. apply accepted_history_split in Hh as ([l2 Hacc] & _ & _ & Hall).
  apply verify_accept_facts in Hacc as (Hpre & _ & _).
  unfold precheck_fails, serials_repeat, serial_published, seed_replayed,
    root_stale, time_wrong in Hpre.
  split; [|split; [|split]].
  - destruct (decide (NoDup (Tx.consumed_serials t))); tauto.
  - intros l' t' s Hin Hs Hs'. destruct (Hall l' t' Hin) as [Hsub _].
    apply Hpre. right; left. exists s. set_solver.
  - intros l' t' Hin Heq. destruct (Hall l' t' Hin) as [_ Hseed].
    apply Hpre. do 2 right; left. by rewrite Heq.
  - destruct (decide (Tx.merkle_tree_root t = mt_get_root (merkle_tree l))); tauto.
Qed.

Lemma keeps_bind {A C} (m : SE Ledger A) (k : A -> SE Ledger C) :
  keeps_published m -> (forall a, keeps_published (k a)) ->
  keeps_published (Py.bind m k).
Proof.
  intros Hm Hk l. unfold Py.bind. specialize (Hm l).
  destruct (m l) as [l1 [a|e]]; simpl in *; [|done].
  destruct (Hk a l1) as [H1 H2]. rewrite H1, H2. done.
Qed.

Lemma keeps_on_storage {A} (m : SE AssemblyStorage A) :
  keeps_published (on_storage m).
Proof.
  intros l. unfold on_storage, zoom. by destruct (m (assembly_storage l)).
Qed.

Lemma keeps_for_each {A} (xs : list A) (body : A -> SE Ledger unit) :
  (forall x, keeps_published (body x)) -> keeps_published (for_each xs body).
Proof.
  intros Hb. induction xs as [|x xs IH]; simpl; [done|].
  apply keeps_bind; [apply Hb | intros _; apply IH].
Qed.

Lemma keeps_serialize_functions cname fs : forall fid,
  keeps_published (serialize_functions cname fs fid).
Proof.
  induction fs as [|[[fname priv] ser] fs IH]; intros fid; simpl; [done|].
  destruct priv; [apply IH|].
  apply keeps_bind; [intros l; by unfold of_result|]. intros sf.
  apply keeps_bind; [done|]. intros _. apply IH.
Qed.

Lemma keeps_register_classes classes : keeps_published (register_classes classes).
Proof.
  unfold register_classes.
  repeat (apply keeps_bind;
    [first [apply keeps_on_storage
           |apply keeps_for_each; intros; apply keeps_on_storage]
    |intros _]).
  apply keeps_for_each. intros c. apply keeps_bind; [done|]. intros l.
  apply keeps_serialize_functions.
Qed.

Lemma run_call_monotone (c : Call) (l : Ledger) :
  published_serial_numbers l ⊆ published_serial_numbers (fst (run_call c l))
  /\ published_unique_seeds l ⊆ published_unique_seeds (fst (run_call c l)).
Proof.
  destruct c as [t|cs|a]; simpl.
  - destruct (verify_and_execute_transaction t l) as [l' [[]|e]] eqn:Hv; simpl.
    + apply verify_accept_facts in Hv as (_ & -> & ->). set_solver.
    + by apply verify_reject_unchanged in Hv as ->.
  - destruct (keeps_register_classes cs l) as [-> ->]. done.
  - done.
Qed.

(** C9.  Whatever calls are made on a ledger, whether they return or
    raise, every published serial and every published seed of the ledger
    before them is still published after them. *)
Theorem published_sets_monotone (cs : list Call) (l : Ledger) :
  published_serial_numbers l ⊆ published_serial_numbers (run_calls cs l)
  /\ published_unique_seeds l ⊆ published_unique_seeds (run_calls cs l).
Proof.
  revert l. induction cs as [|c cs IH]; intros l; simpl; [done|].
  destruct (run_call_monotone c l) as [H1 H2].
  destruct (IH (fst (run_call c l))) as [H3 H4]. split; set_solver.
Qed.

End LedgerProperties.

Section LedgerRuns.
Import Ledger LedgerExamples.

(** C1, the counterexample: nothing is registered on [ex_new_ledger], so
    [ex_tx] names an unknown function; the call raises [ValueError], which
    is neither acceptance nor [TxRejectedException]. *)
Lemma unknown_function_raises_ValueError :
  verify_and_execute_transaction ex_tx ex_new_ledger
  = (ex_new_ledger,
     Raise (ValueError "unknown function Class.f or function not public"))
  /\ ~ accepts_or_rejects
        (snd (verify_and_execute_transaction ex_tx ex_new_ledger)).
Proof.
  assert (H : verify_and_execute_transaction ex_tx ex_new_ledger
              = (ex_new_ledger,
                 Raise (ValueError
                          "unknown function Class.f or function not public")))
    by (vm_compute; reflexivity).
  split; [exact H|]. rewrite H. simpl.
  intros [Hok|[m Hr]]; discriminate.
Qed.

(** [ex_ledger] accepts [ex_tx] and then [ex_tx_2]. *)
Lemma ex_history :
  accepted_history ex_ledger [ex_tx; ex_tx_2]
  = [(ex_ledger, ex_tx)] ++ (ex_ledger_1, ex_tx_2) :: [].
Proof. vm_compute. reflexivity. Qed.

Lemma accepted_transactions_fresh_witness :
  NoDup (Tx.consumed_serials ex_tx_2)
  /\ (forall l' t' s, (l', t') ∈ [(ex_ledger, ex_tx)] ->
        s ∈ Tx.consumed_serials ex_tx_2 -> s ∉ Tx.consumed_serials t')
  /\ (forall l' t', (l', t') ∈ [(ex_ledger, ex_tx)] ->
        Tx.unique_seed ex_tx_2 <> Tx.unique_seed t')
  /\ Tx.merkle_tree_root ex_tx_2 = mt_get_root (merkle_tree ex_ledger_1).
Proof.
  apply (accepted_transactions_fresh ex_ledger [ex_tx; ex_tx_2]
           [(ex_ledger, ex_tx)] ex_ledger_1 ex_tx_2 []).
  vm_compute. reflexivity.
Defined.

End LedgerRuns.

(** ** Phase L3: the label check *)

Section Checks.
Import Asm Compiler AsmExamples.

Lemma get_duplicates_from_nil `{EqDecision T} (it : list T) : forall unique,
  General.get_duplicates_from unique it = [] <->
  NoDup it /\ (forall x, x ∈ it -> x ∉ unique).
Proof.
  induction it as [|x it IH]; intros unique; simpl.
  - split; [intros _; split; [constructor | set_solver] | done].
  - case_bool_decide as Hx.
    + split; [done|]. intros [_ Hd]. exfalso. apply (Hd x); [set_solver | done].
    + rewrite IH, NoDup_cons. split.
      * intros [Hnd Hd]. split; [split; [|done]|].
        -- intros Hin. apply (Hd x Hin). set_solver.
        -- intros y Hy. apply elem_of_cons in Hy as [->|Hy]; [done|].
           specialize (Hd y Hy). set_solver.
      * intros [[Hx' Hnd] Hd]. split; [done|]. intros y Hy Hyu.
        apply elem_of_cons in Hyu as [->|Hyu]; [done|].
        apply (Hd y); [set_solver|done].
Qed.

Lemma get_duplicates_nil `{EqDecision T} (it : list T) :
  General.get_duplicates it = [] <-> NoDup it.
Proof.
  unfold General.get_duplicates. rewrite get_duplicates_from_nil.
  split; [tauto|]. intros H; split; [done|]. intros x _. set_solver.
Qed.

Lemma NoDup_fmap_inj_on {A B} (f : A -> B) (l : list A) x y :
  NoDup (f <$> l) -> x ∈ l -> y ∈ l -> f x = f y -> x = y.
Proof.
  induction l as [|a l IH]; simpl; [set_solver|].
  rewrite NoDup_cons. intros [Ha Hnd] Hx Hy Hxy.
  apply elem_of_cons in Hx as [->|Hx]; apply elem_of_cons in Hy as [->|Hy]; auto.
  - exfalso. apply Ha. rewrite Hxy. by apply list_elem_of_fmap_2.
  - exfalso. apply Ha. rewrite <- Hxy. by apply list_elem_of_fmap_2.
Qed.

Lemma length_filter_const {A} (P : Prop) `{Decision P} (l : list A) :
  filter (fun _ => P) l = if decide P then l else [].
Proof.
  induction l as [|a l IH]; simpl; [by destruct (decide P)|].
  rewrite filter_cons, IH. by destruct (decide P).
Qed.

(** The comprehension [[n for n in names if '.' in names]] tests the list
    of labels, not the label: it is all of [names] when some label is the
    string ".", and empty otherwise. *)
Lemma check_register_labels_dot_element f :
  "." ∈ (label <$> AssemblyFunction_get_registers f) ->
  exists m, check_register_labels f = Raise (AssemblySecurityException m).
Proof.
  intros Hin. unfold check_register_labels.
  rewrite length_filter_const. rewrite decide_True by done.
  destruct (label <$> AssemblyFunction_get_registers f) eqn:E; [set_solver|].
  simpl. eauto.
Qed.

(** Two distinct registers with one label are reported. *)
Lemma check_register_labels_duplicate f r1 r2 :
  r1 ∈ AssemblyFunction_get_registers f ->
  r2 ∈ AssemblyFunction_get_registers f ->
  r1 <> r2 -> label r1 = label r2 ->
  exists m, check_register_labels f = Raise (AssemblySecurityException m).
Proof.
  intros H1 H2 Hne Hl. unfold check_register_labels.
  destruct (negb (length (filter _ _) =? 0)%nat) eqn:E1; [eauto|].
  destruct (negb (length (General.get_duplicates _) =? 0)%nat) eqn:E2; [eauto|].
  exfalso. apply negb_false_iff, Nat.eqb_eq, length_zero_iff_nil, get_duplicates_nil in E2.
  apply Hne. by eapply NoDup_fmap_inj_on.
Qed.

(** The check passes when no label holds a dot and no label is shared. *)
Lemma check_register_labels_clean f :
  (forall r, r ∈ AssemblyFunction_get_registers f ->
             contains_dot (label r) = false) ->
  (forall r1 r2, r1 ∈ AssemblyFunction_get_registers f ->
                 r2 ∈ AssemblyFunction_get_registers f ->
                 label r1 = label r2 -> r1 = r2) ->
  check_register_labels f = Ok tt.
Proof.
  intros Hdot Hinj. unfold check_register_labels.
  rewrite length_filter_const. rewrite decide_False.
  2:{ intros Hin. apply list_elem_of_fmap in Hin as (r & Hr & Hin).
      specialize (Hdot r Hin). rewrite <- Hr in Hdot. done. }
  simpl.
  assert (Hnd : NoDup (label <$> AssemblyFunction_get_registers f)).
  { apply NoDup_fmap_2_strong; [|apply NoDup_remove_dups].
    intros x y Hx Hy. by apply Hinj. }
  apply get_duplicates_nil in Hnd. by rewrite Hnd.
Qed.

(** C7, the failing input: [ex_dotted_function] has the register [x.y],
    whose label holds a dot, and [check_register_labels] returns. *)
Theorem check_register_labels_misses_dot :
  ex_dotted ∈ AssemblyFunction_get_registers ex_dotted_function
  /\ contains_dot (label ex_dotted) = true
  /\ check_register_labels ex_dotted_function = Ok tt.
Proof.
  split; [|split]; [|reflexivity|vm_compute; reflexivity].
  vm_compute. set_solver.
Qed.

(** ** The constructor check *)

Lemma check_no_later_new_not_index later m :
  check_no_later_new later <> Raise (IndexError m).
Proof. induction later as [|i l IH]; simpl; [done|]. by destruct (is_new i). Qed.

Lemma written_fields_not_index sr instrs : forall acc m,
  written_fields sr instrs acc <> Raise (IndexError m).
Proof.
  induction instrs as [|i l IH]; intros acc m; simpl; [done|].
  destruct (is_store i); [|apply IH].
  case_bool_decide; [|apply IH].
  destruct (value_2 i) as [[| |[[fld|q] t]|]|]; try done; try apply IH.
Qed.

Lemma all_fields_written_not_index names written m :
  all_fields_written names written <> Raise (IndexError m).
Proof. induction names as [|n l IH]; simpl; [done|]. by case_bool_decide. Qed.

Lemma dict_set_elem {K V} `{EqDecision K} (k0 : K) (v0 : V) d k v :
  (k, v) ∈ dict_set k0 v0 d -> (k, v) = (k0, v0) \/ (k, v) ∈ d.
Proof.
  induction d as [|[k' v'] d IH]; simpl.
  - intros H%list_elem_of_singleton. by left.
  - destruct (decide (k0 = k')) as [->|Hne].
    + intros [H|H]%elem_of_cons; [by left | right; by apply elem_of_cons; right].
    + intros [H|H]%elem_of_cons; [right; rewrite H; apply elem_of_cons; by left|].
      destruct (IH H) as [?|?]; [by left | right; apply elem_of_cons; by right].
Qed.

Lemma zapper_function_ends_with_move function st st' f :
  zapper_function_to_assembly_function function st = (st', Ok f) ->
  ends_with_return_move f.
Proof.
  unfold zapper_function_to_assembly_function. intros H.
  apply bind_Ok in H as (s1 & me & _ & H).
  apply bind_Ok in H as (s2 & obs & _ & H).
  destruct obs as [|self obs]; [discriminate|].
  apply bind_Ok in H as (s3 & prologue & _ & H).
  apply bind_Ok in H as (s4 & [body returned] & _ & H).
  apply bind_Ok in H as (s5 & rr & _ & H).
  apply bind_Ok in H as (s6 & value & _ & H).
  apply bind_Ok in H as (s7 & id & _ & H).
  apply ret_Ok in H as [_ ->]. unfold ends_with_return_move. simpl.
  exists id, value. rewrite app_assoc. apply last_snoc.
Qed.

Lemma add_function_elem function c c' k f :
  Compiler.add_function function c = Ok c' ->
  (k, f) ∈ functions c' ->
  (k, f) ∈ functions c \/
  (instructions f = instructions function /\ return_register f = return_register function).
Proof.
  unfold Compiler.add_function. case_bool_decide; [discriminate|].
  case_bool_decide; [discriminate|]. intros [= <-]. simpl.
  intros [Heq|Hin]%dict_set_elem; [right | by left].
  injection Heq as _ ->. done.
Qed.

Lemma compile_functions_invariant fs : forall compiled st st' c,
  (forall k f, (k, f) ∈ functions compiled -> ends_with_return_move f) ->
  compile_functions fs compiled st = (st', Ok c) ->
  forall k f, (k, f) ∈ functions c -> ends_with_return_move f.
Proof.
  induction fs as [|function fs IH]; intros compiled st st' c Hinv H; simpl in H.
  - apply ret_Ok in H as [_ ->]. done.
  - apply bind_Ok in H as (s1 & af & Haf & H).
    apply bind_Ok in H as (s2 & compiled' & Hadd & H).
    apply of_result_Ok in Hadd as [-> Hadd].
    eapply IH; [|exact H]. intros k f Hkf.
    destruct (add_function_elem _ _ _ _ _ Hadd Hkf) as [Hold|[Hi Hr]]; [eauto|].
    apply zapper_function_ends_with_move in Haf as (id & v & Hlast).
    exists id, v. by rewrite Hi, Hr.
Qed.

Lemma compile_fields_functions flds : forall compiled c,
  compile_fields flds compiled = Ok c -> functions c = functions compiled.
Proof.
  induction flds as [|fld flds IH]; intros compiled c; simpl.
  - by intros [= ->].
  - unfold Compiler.add_field. case_bool_decide; [discriminate|]. simpl.
    intros Hc. apply IH in Hc. by rewrite Hc.
Qed.

(** C10.  [check_constructor] reads [instructions[0]] unguarded: on a
    function with no instruction it raises [IndexError], on any other it
    never does; and every function of a class that [compile_contract]
    returns has a body that ends with the MOV into its return register, so
    the body is not empty. *)
Theorem check_constructor_needs_instructions :
  (forall owner f, instructions f = [] ->
     check_constructor owner f = Raise (IndexError "list index out of range"))
  /\ (forall owner f m, instructions f <> [] ->
        check_constructor owner f <> Raise (IndexError m))
  /\ (forall contract st st' c,
        compile_contract contract st = (st', Ok c) ->
        forall k f, (k, f) ∈ functions c ->
          instructions f <> [] /\
          exists id v, last (instructions f)
                       = Some (MoveInstruction id (return_register f) v)).
Proof.
  split; [|split].
  - intros owner f Hnil. unfold check_constructor. by rewrite Hnil.
  - intros owner f m Hne. unfold check_constructor, rbind.
    destruct (check_no_later_new _) as [[]|e] eqn:Hl.
    + destruct (instructions f) as [|first rest] eqn:Hi; [done|].
      destruct (is_new first); [|done].
      unfold _check_all_fields_initialized_for, rbind.
      destruct (written_fields _ _ _) as [w|e] eqn:Hw.
      * destruct owner; [apply all_fields_written_not_index | done].
      * intros [= ->]. by apply written_fields_not_index in Hw.
    + intros [= ->]. by apply check_no_later_new_not_index in Hl.
  - intros contract st st' c H k f Hkf. unfold compile_contract in H.
    apply bind_Ok in H as (s1 & compiled & Hf & H).
    apply of_result_Ok in Hf as [-> Hf]. apply compile_fields_functions in Hf.
    assert (Hends : ends_with_return_move f).
    { eapply compile_functions_invariant; [|exact H|exact Hkf].
      intros k' f'. rewrite Hf. simpl. set_solver. }
    split; [|exact Hends]. destruct Hends as (id & v & Hlast).
    intros Hnil. by rewrite Hnil in Hlast.
Qed.

(** ** Type checking of write instructions *)

(** C8, the counterexample: a CMOV of a [Uint] into a register whose type
    is still unknown.  [check_argument_types] compares the types of the
    destination and of the source, [None] against [Uint], and raises. *)
Lemma cmov_unknown_destination_fails :
  plain_write (kind ex_cmov) /\ well_formed ex_cmov /\
  register ex_cmov = Some ex_d /\ no_types ex_d = None /\
  infer_and_check_types false ex_cmov no_types
  = (no_types, Raise (AssemblyTypeError "Types must match for CMOV")).
Proof.
  split; [exact I|]. split; [|done].
  split; [by eexists|]. split; by eexists.
Qed.

Ltac run_se := cbv beta iota zeta delta
  [Py.bind Py.get Py.raise Py.raise_if Py.ret Py.of_result Py.modify Py.rbind
   infer_and_check_types write_infer_and_check_types check_argument_types
   infer_written_type destination_type operand_type rule_operands rule_written_type
   check_assembly_supertype check_assembly_type is_assembly_type is_uint].

(** C8 (amended).  For a write instruction (MOV, CMOV, LOAD, NEW, PK, FRESH,
    NOW, CID, a binary operation) with destination [d], checked without
    [allow_type_change]: the check raises a type error, and changes no
    type, when the operands break the rule of the instruction, where the
    rule of CMOV wants the destination to have the type of the source
    already; it raises [ValueError] when the operands keep the rule but
    the rule infers no type, an operand that gives its type having none;
    otherwise the type the rule infers is assigned to [d] when [d] had
    none, accepted when [d] has it, and a type error when [d] has another
    one.  So a destination of unknown type passes the check exactly when
    the operands keep the rule and the rule infers a type; and a CMOV with
    a destination of unknown type never passes: it raises a type error
    when its source has a type or its condition is not [Uint], and the
    [ValueError] otherwise. *)
Theorem write_instruction_type_rules (i : Instruction) (d : Register)
    (ty : Types) :
  plain_write (kind i) -> well_formed i -> register i = Some d ->
  let r := infer_and_check_types false i ty in
  (~ rule_operands ty i ->
     fst r = ty /\ exists m, snd r = Raise (AssemblyTypeError m))
  /\ (rule_operands ty i -> rule_written_type ty i = None ->
        r = (ty, Raise (ValueError "Unexpected type None")))
  /\ (forall w, rule_operands ty i -> rule_written_type ty i = Some w ->
        (ty d = None -> r = (set_type d (Some w) ty, Ok tt))
        /\ (ty d = Some w -> r = (ty, Ok tt))
        /\ (forall t, ty d = Some t -> t <> w ->
              fst r = ty /\ exists m, snd r = Raise (AssemblyTypeError m)))
  /\ (ty d = None ->
        (snd r = Ok tt <->
         rule_operands ty i /\ is_Some (rule_written_type ty i)))
  /\ (kind i = CMOV -> ty d = None ->
        fst r = ty
        /\ (is_Some (v ← value_2 i; value_type ty v)
            \/ (v ← value_1 i; value_type ty v) <> Some Uint ->
            exists m, snd r = Raise (AssemblyTypeError m))
        /\ ((v ← value_2 i; value_type ty v) = None ->
            (v ← value_1 i; value_type ty v) = Some Uint ->
            snd r = Raise (ValueError "Unexpected type None"))).
Proof.
  destruct i as [id k reg v1 v2]. simpl. intros Hk [_ Hwf] ->. simpl in *.
  destruct k; try done; simpl in Hwf;
    repeat match goal with
           | H : is_Some _ |- _ => destruct H as [? ->]
           | H : _ /\ _ |- _ => destruct H
           | H : exists _, _ |- _ => destruct H as [? ->]
           end.
  all: try match goal with op : BinaryOperator |- _ => destruct op end.
  all: run_se; simpl.
  all: repeat match goal with
       | |- context [value_type ?t ?v] =>
           let n := fresh "t" in
           let E := fresh "E" in
           remember (value_type t v) as n eqn:E; clear E
       end.
  all: match goal with |- context [set_type ?x _ ?ty] =>
         let n := fresh "td" in remember (ty x) as n end.
  all: repeat match goal with t : option AssemblyType |- _ => destruct t end.
  all: simpl; repeat case_bool_decide; simpl.
  all: repeat split; intros; destruct_and?; destruct_or?; simplify_eq; eauto; try tauto; try congruence.
  all: try (by eexists).
  all: try match goal with H : is_Some None |- _ => by destruct H end.
  Unshelve. all: exact EmptyString.
Qed.

Lemma write_instruction_type_rules_witness :
  let r := infer_and_check_types false ex_mov no_types in
  (~ rule_operands no_types ex_mov ->
     fst r = no_types /\ exists m, snd r = Raise (AssemblyTypeError m))
  /\ (rule_operands no_types ex_mov ->
      rule_written_type no_types ex_mov = None ->
        r = (no_types, Raise (ValueError "Unexpected type None")))
  /\ (forall w, rule_operands no_types ex_mov ->
        rule_written_type no_types ex_mov = Some w ->
        (no_types ex_d = None -> r = (set_type ex_d (Some w) no_types, Ok tt))
        /\ (no_types ex_d = Some w -> r = (no_types, Ok tt))
        /\ (forall t, no_types ex_d = Some t -> t <> w ->
              fst r = no_types /\
              exists m, snd r = Raise (AssemblyTypeError m)))
  /\ (no_types ex_d = None ->
        (snd r = Ok tt <->
         rule_operands no_types ex_mov
         /\ is_Some (rule_written_type no_types ex_mov)))
  /\ (kind ex_mov = CMOV -> no_types ex_d = None ->
        fst r = no_types
        /\ (is_Some (v ← value_2 ex_mov; value_type no_types v)
            \/ (v ← value_1 ex_mov; value_type no_types v) <> Some Uint ->
            exists m, snd r = Raise (AssemblyTypeError m))
        /\ ((v ← value_2 ex_mov; value_type no_types v) = None ->
            (v ← value_1 ex_mov; value_type no_types v) = Some Uint ->
            snd r = Raise (ValueError "Unexpected type None"))).
Proof.
  apply (write_instruction_type_rules ex_mov ex_d no_types).
  - exact I.
  - vm_compute. eauto.
  - reflexivity.
Defined.

End Checks.

(** ** Register allocation *)

Section Allocation.
Import Asm RegAlloc.
Context {S : Type} `{PS : PySet S}.

Lemma next_free_register_cases (a : RegisterAllocation) :
  (set_elements (free_registers a) = ∅ /\
   _next_free_register a
   = (n_registers a,
      {| free_registers := free_registers a; n_registers := n_registers a + 1 |}))
  \/ (exists slot rest,
        slot ∈ set_elements (free_registers a) /\
        set_elements rest = set_elements (free_registers a) ∖ {[slot]} /\
        _next_free_register a
        = (slot, {| free_registers := rest; n_registers := n_registers a |})).
Proof.
  unfold _next_free_register.
  destruct (decide (set_elements (free_registers a) = ∅)) as [He|Hne].
  - left. by rewrite (set_pop_empty _ He).
  - right. destruct (set_pop_member _ Hne) as (x & s' & -> & Hx & Hs'). eauto.
Qed.

(** Releasing keeps the locations and adds the released slots. *)
Lemma release_operands_spec lu i rs : forall st : State,
  let st' := fold_left (release_operand lu i) rs st in
  location st' = location st
  /\ n_registers (allocator st') = n_registers (allocator st)
  /\ pool st ⊆ pool st'
  /\ forall r, r ∈ rs -> dict_get r lu = Some i -> location st r ∈ pool st'.
Proof.
  induction rs as [|r rs IH]; intros st; simpl.
  - split; [done|]. split; [done|]. split; [done|]. intros r Hr. by apply elem_of_nil in Hr.
  - destruct (IH (release_operand lu i st r)) as (Hl & Hn & Hp & Hr).
    assert (Hstep : location (release_operand lu i st r) = location st
              /\ n_registers (allocator (release_operand lu i st r)) = n_registers (allocator st)
              /\ pool st ⊆ pool (release_operand lu i st r)
              /\ (dict_get r lu = Some i -> location st r ∈ pool (release_operand lu i st r))).
    { unfold release_operand. case_bool_decide as Hd; simpl; [|done].
      unfold pool; simpl. rewrite set_add_elements. set_solver. }
    destruct Hstep as (Hl1 & Hn1 & Hp1 & Hr1).
    split; [congruence|]. split; [congruence|]. split; [set_solver|].
    intros r' [->|Hin]%elem_of_cons Hlu.
    + apply Hp. by apply Hr1.
    + rewrite <- Hl1. by apply Hr.
Qed.

Lemma allocate_operand_location (st : State) (r r' : Register) :
  location st r' <> -1 -> location (allocate_operand st r) r' = location st r'.
Proof.
  intros Hr'. unfold allocate_operand. destruct (Z.eqb_spec (location st r) (-1)) as [E|E]; [|done].
  unfold allocate. destruct (_next_free_register _) as [slot a]. simpl.
  unfold set_location. destruct (decide (r' = r)) as [->|]; [done|done].
Qed.

Lemma allocate_operands_location rs : forall (st : State) r',
  location st r' <> -1 -> location (fold_left allocate_operand rs st) r' = location st r'.
Proof.
  induction rs as [|r rs IH]; intros st r' Hr'; simpl; [done|].
  rewrite IH; [by apply allocate_operand_location|].
  by rewrite allocate_operand_location.
Qed.

Lemma process_instruction_location lu (st : State) i r' :
  location st r' <> -1 -> location (process_instruction lu st i) r' = location st r'.
Proof.
  intros Hr'. unfold process_instruction, release_operands.
  destruct (release_operands_spec lu i (get_registers i) (allocate_operands i st)) as (-> & _).
  by apply allocate_operands_location.
Qed.

Lemma process_instructions_location lu instrs : forall (st : State) r',
  location st r' <> -1 ->
  location (fold_left (process_instruction lu) instrs st) r' = location st r'.
Proof.
  induction instrs as [|i instrs IH]; intros st r' Hr'; simpl; [done|].
  rewrite IH; [by apply process_instruction_location|].
  by rewrite process_instruction_location.
Qed.

(** The parameters, allocated from a new allocator. *)
Lemma allocate_args_spec args : forall (st : State) (k : Z),
  set_elements (free_registers (allocator st)) = ∅ ->
  n_registers (allocator st) = k ->
  NoDup args ->
  let st' := fold_left (fun st arg => allocate arg st) args st in
  (forall r, r ∉ args -> location st' r = location st r)
  /\ (forall (i : nat) r, args !! i = Some r -> location st' r = k + Z.of_nat i).
Proof.
  induction args as [|a args IH]; intros st k Hemp Hn Hnd; simpl.
  - split; [done|]. intros i r Hi. by rewrite lookup_nil in Hi.
  - apply NoDup_cons in Hnd as [Ha Hnd].
    destruct (next_free_register_cases (allocator st)) as [[_ Hnext]|(slot & rest & Hin & _)];
      [|set_solver].
    assert (Hst1 : allocate a st =
              {| allocator := {| free_registers := free_registers (allocator st);
                                 n_registers := n_registers (allocator st) + 1 |};
                 location := set_location a (n_registers (allocator st)) (location st) |}).
    { unfold allocate. by rewrite Hnext. }
    rewrite Hst1.
    match goal with |- context [fold_left _ args ?s] =>
      destruct (IH s (k + 1)) as [Hother Hargs]; [done|simpl; lia|done|] end.
    split.
    + intros r Hr. rewrite Hother by set_solver. simpl.
      unfold set_location. rewrite decide_False; [done|set_solver].
    + intros [|i] r Hi; simpl in Hi.
      * injection Hi as ->. rewrite Hother by done. simpl.
        unfold set_location. rewrite decide_True by done. lia.
      * rewrite (Hargs i r Hi). lia.
Qed.

(** C6 (amended).  When [me] and the argument registers of a function are
    pairwise distinct registers, register allocation leaves [me] in slot 0
    and the [i]-th argument register (from 0) in slot [i+1]. *)
Theorem parameters_get_first_slots (function : AssemblyFunction)
    (loc : Register -> Z) :
  NoDup (me_register function :: argument_registers function) ->
  register_allocation function loc (me_register function) = 0
  /\ forall (i : nat) r,
       argument_registers function !! i = Some r ->
       register_allocation function loc r = Z.of_nat i + 1.
Proof.
  intros [Hme Hnd]%NoDup_cons. unfold register_allocation, run.
  set (st0 := {| allocator := new_allocation; location := loc |}).
  assert (Hst1 : allocate (me_register function) st0 =
            {| allocator := {| free_registers := set_new; n_registers := 1 |};
               location := set_location (me_register function) 0 loc |}).
  { unfold allocate, st0. cbn [allocator location].
    destruct (next_free_register_cases new_allocation) as [[_ ->]|(slot & rest & Hin & _)]; [done|].
    simpl in Hin. rewrite set_new_elements in Hin. set_solver. }
  destruct (allocate_args_spec (argument_registers function)
              (allocate (me_register function) st0) 1)
    as [Hother Hargs]; [by rewrite Hst1; simpl; apply set_new_elements | by rewrite Hst1 | done |].
  fold (allocate_parameters function st0) in Hother, Hargs.
  split.
  - rewrite process_instructions_location.
    + rewrite Hother by done. rewrite Hst1. simpl. unfold set_location. by rewrite decide_True.
    + rewrite Hother by done. rewrite Hst1. simpl. unfold set_location. by rewrite decide_True.
  - intros i r Hi. rewrite process_instructions_location; rewrite (Hargs i r Hi); lia.
Qed.

Lemma record_uses_get (d : list (Register * Instruction)) i r :
  dict_get r (record_uses d i)
  = if bool_decide (r ∈ get_registers i) then Some i else dict_get r d.
Proof.
  unfold record_uses. revert d.
  induction (get_registers i) as [|r0 rs IH]; intros d; simpl; [done|].
  rewrite IH. case_bool_decide as H1; case_bool_decide as H2; try done.
  - set_solver.
  - rewrite dict_get_set. destruct (decide (r = r0)) as [->|]; [done|set_solver].
  - rewrite dict_get_set. rewrite decide_False; [done|set_solver].
Qed.

Lemma last_used_get all : forall (d : list (Register * Instruction)) r,
  dict_get r (fold_left record_uses all d)
  = match last (filter (fun i => r ∈ get_registers i) all) with
    | Some i => Some i
    | None => dict_get r d
    end.
Proof.
  induction all as [|i all IH]; intros d r; simpl; [done|].
  rewrite IH, record_uses_get, filter_cons.
  case_bool_decide as Hr; destruct (decide (r ∈ get_registers i)) as [Hd|Hd]; try done.
  destruct (filter _ all) as [|j l] eqn:E; [done|].
  rewrite !last_cons. by destruct (last l).
Qed.

End Allocation.

Section AllocationTrace.
Import Asm RegAlloc Liveness.
Context {S : Type} `{PS : PySet S}.
Implicit Types (st : @State S) (r : Register).

Lemma state_at_S function loc (k : nat) i :
  get_all_instructions function !! k = Some i ->
  state_at function loc (Datatypes.S k)
  = process_instruction (compute_last_used (get_all_instructions function))
      (state_at function loc k) i.
Proof.
  intros Hi. unfold state_at. by rewrite (take_S_r _ _ _ Hi), fold_left_app.
Qed.

Lemma state_at_final function loc :
  register_allocation function loc
  = location
      (state_at function loc (length (get_all_instructions function))).
Proof. unfold register_allocation, run, state_at. by rewrite firstn_all. Qed.

(** A slot, once given, stays. *)
Lemma state_at_stays function loc (k k' : nat) r :
  (k <= k')%nat ->
  location (state_at function loc k) r <> -1 ->
  location (state_at function loc k') r
  = location (state_at function loc k) r.
Proof.
  intros Hk Hr. unfold state_at in *.
  replace (take k' (get_all_instructions function))
    with (take k (get_all_instructions function)
          ++ drop k (take k' (get_all_instructions function))).
  2:{ rewrite <- (take_drop k (take k' (get_all_instructions function))) at 2.
      f_equal. rewrite take_take. f_equal. lia. }
  rewrite fold_left_app. by apply process_instructions_location.
Qed.

Lemma process_instruction_location_mid lu (st : @State S) i :
  location (process_instruction lu st i)
  = location (allocate_operands i st).
Proof.
  unfold process_instruction, release_operands.
  by destruct (release_operands_spec lu i (get_registers i)
                 (allocate_operands i st)) as (-> & _).
Qed.

(** No slot is -1: the counter is not negative and -1 is not in the pool. *)
Lemma allocate_slots st r :
  0 <= n_registers (allocator st) -> (-1 ∉ pool st) ->
  0 <= n_registers (allocator (allocate r st))
  /\ (-1 ∉ pool (allocate r st))
  /\ location (allocate r st) r <> -1
  /\ (forall r', r' <> r -> location (allocate r st) r' = location st r')
  /\ ((pool st = ∅ /\ location (allocate r st) r = n_registers (allocator st)
       /\ n_registers (allocator (allocate r st))
          = n_registers (allocator st) + 1
       /\ pool (allocate r st) = ∅)
      \/ (location (allocate r st) r ∈ pool st
          /\ pool (allocate r st) = pool st ∖ {[location (allocate r st) r]}
          /\ n_registers (allocator (allocate r st))
             = n_registers (allocator st))).
Proof.
  intros Hn Hp. unfold allocate, pool in *.
  destruct (next_free_register_cases (allocator st))
    as [[He ->]|(slot & rest & Hin & Hrest & ->)]; simpl;
    unfold set_location; rewrite decide_True by done.
  - split; [lia|]. split; [done|]. split; [lia|].
    split; [by intros r' Hr'; rewrite decide_False|]. left. done.
  - split; [done|]. split; [rewrite Hrest; set_solver|].
    split; [by intros ->|].
    split; [by intros r' Hr'; rewrite decide_False|]. right. done.
Qed.

Lemma allocate_operands_slots rs : forall st,
  0 <= n_registers (allocator st) -> (-1 ∉ pool st) ->
  let st' := fold_left allocate_operand rs st in
  0 <= n_registers (allocator st') /\ (-1 ∉ pool st')
  /\ forall r, r ∈ rs -> location st' r <> -1.
Proof.
  induction rs as [|r0 rs IH]; intros st Hn Hp; simpl.
  - split; [done|]. split; [done|]. by intros r Hr%elem_of_nil.
  - assert (H0 : 0 <= n_registers (allocator (allocate_operand st r0))
                 /\ (-1 ∉ pool (allocate_operand st r0))
                 /\ location (allocate_operand st r0) r0 <> -1).
    { unfold allocate_operand.
      destruct (Z.eqb_spec (location st r0) (-1)) as [E|E]; [|done].
      destruct (allocate_slots st r0 Hn Hp) as (? & ? & ? & _). done. }
    destruct H0 as (Hn0 & Hp0 & Hr0).
    destruct (IH _ Hn0 Hp0) as (Hn' & Hp' & Hall).
    split; [done|]. split; [done|].
    intros r [->|Hr]%elem_of_cons; [|by apply Hall].
    by rewrite allocate_operands_location.
Qed.

(** The pool after the registers [rs] were released. *)
Lemma release_operands_pool lu i rs : forall st slot,
  slot ∈ pool (fold_left (release_operand lu i) rs st)
  <-> slot ∈ pool st
      \/ exists r, r ∈ rs /\ dict_get r lu = Some i /\ slot = location st r.
Proof.
  induction rs as [|r0 rs IH]; intros st slot; simpl.
  - split; [by left|]. intros [?|(r & Hr%elem_of_nil & _)]; done.
  - rewrite IH.
    assert (Hl : location (release_operand lu i st r0) = location st).
    { unfold release_operand. by case_bool_decide. }
    assert (Hp : slot ∈ pool (release_operand lu i st r0)
                 <-> slot ∈ pool st
                     \/ (dict_get r0 lu = Some i /\ slot = location st r0)).
    { unfold release_operand. case_bool_decide as Hd; simpl.
      - unfold pool. simpl. rewrite set_add_elements. set_solver.
      - tauto. }
    rewrite Hp, Hl. split.
    + intros [[?|[? ?]]|(r & Hr & Hlu & ->)]; [by left| |].
      * right. exists r0. split; [set_solver|done].
      * right. exists r. split; [set_solver|done].
    + intros [?|(r & [->|Hr]%elem_of_cons & Hlu & ->)].
      * by left; left.
      * left; right. done.
      * right. by exists r.
Qed.

Lemma process_instruction_slots lu st i :
  0 <= n_registers (allocator st) -> (-1 ∉ pool st) ->
  0 <= n_registers (allocator (process_instruction lu st i))
  /\ (-1 ∉ pool (process_instruction lu st i)).
Proof.
  intros Hn Hp. unfold process_instruction, release_operands.
  destruct (allocate_operands_slots (get_registers i) st Hn Hp)
    as (Hn' & Hp' & Hall).
  fold (allocate_operands i st) in Hn', Hp', Hall.
  destruct (release_operands_spec lu i (get_registers i)
              (allocate_operands i st)) as (_ & -> & _).
  split; [done|]. rewrite release_operands_pool.
  intros [?|(r & Hr & _ & Heq)]; [done|]. by apply (Hall r Hr).
Qed.

Lemma state_at_slots function (loc : Register -> Z) (k : nat) :
  0 <= n_registers (allocator (state_at function loc k))
  /\ (-1 ∉ pool (state_at function loc k)).
Proof.
  unfold state_at.
  generalize (take k (get_all_instructions function)) as instrs.
  assert (H0 : 0 <= n_registers (allocator
                      (allocate_parameters function
                         {| allocator := new_allocation; location := loc |}))
               /\ (-1 ∉ pool (allocate_parameters function
                         {| allocator := new_allocation; location := loc |}))).
  { unfold allocate_parameters.
    assert (Hargs : forall args st,
              0 <= n_registers (allocator st) -> (-1 ∉ pool st) ->
              0 <= n_registers (allocator
                     (fold_left (fun st arg => allocate arg st) args st))
              /\ (-1 ∉ pool (fold_left (fun st arg => allocate arg st) args st))).
    { induction args as [|a args IH]; intros st Hn Hp; simpl; [done|].
      destruct (allocate_slots st a Hn Hp) as (? & ? & _). by apply IH. }
    destruct (allocate_slots {| allocator := new_allocation; location := loc |}
                (me_register function)) as (? & ? & _);
      [done|unfold pool; simpl; rewrite set_new_elements; set_solver|].
    by apply Hargs. }
  revert H0.
  generalize (allocate_parameters function
                {| allocator := new_allocation; location := loc |}) as st.
  intros st H0 instrs. revert st H0.
  induction instrs as [|i instrs IH]; intros st [Hn Hp]; simpl; [done|].
  apply IH. by apply process_instruction_slots.
Qed.

(** C5 (amended).  The run of [register_allocation] on a function starts
    with an empty pool and the counter at 0, allocates the parameters, and
    then takes the instructions in order.  At an instruction, each of its
    registers in turn keeps its slot when it has one, and otherwise gets
    the counter, which then grows by one, when the pool is empty, or else
    the slot that [pop] takes out of the pool, some slot of the pool and
    not always the lowest; no other register changes its slot.  After
    that, the slots of the registers of the instruction whose last use it
    is, where the last use of a register is the last instruction that has
    it among its registers, are added to the pool, and nothing else
    changes.  The slot a register of the instruction has at that point is
    the slot it has when the allocation ends. *)
Theorem allocation_pool_discipline (function : AssemblyFunction)
    (loc : Register -> Z) :
  let all := get_all_instructions function in
  let start := {| allocator := new_allocation; location := loc |} in
  (pool start = ∅ /\ n_registers (allocator start) = 0)
  /\ state_at function loc 0 = allocate_parameters function start
  /\ run function start = state_at function loc (length all)
  /\ forall (k : nat) instruction,
       all !! k = Some instruction ->
       let before := state_at function loc k in
       let allocated := allocate_operands instruction before in
       let after := state_at function loc (Datatypes.S k) in
       (forall (j : nat) r,
          get_registers instruction !! j = Some r ->
          let s := fold_left allocate_operand
                     (take j (get_registers instruction)) before in
          let s' := fold_left allocate_operand
                      (take (Datatypes.S j) (get_registers instruction))
                      before in
          (location s r <> -1 -> s' = s)
          /\ (location s r = -1 ->
              (forall r', r' <> r -> location s' r' = location s r')
              /\ location s' r <> -1
              /\ ((pool s = ∅
                   /\ location s' r = n_registers (allocator s)
                   /\ n_registers (allocator s')
                      = n_registers (allocator s) + 1
                   /\ pool s' = ∅)
                  \/ (location s' r ∈ pool s
                      /\ pool s' = pool s ∖ {[location s' r]}
                      /\ n_registers (allocator s')
                         = n_registers (allocator s)))))
       /\ location after = location allocated
       /\ n_registers (allocator after) = n_registers (allocator allocated)
       /\ (forall slot,
             slot ∈ pool after <->
             slot ∈ pool allocated
             \/ exists r,
                  r ∈ get_registers instruction
                  /\ last (filter (fun i' => r ∈ get_registers i') all)
                     = Some instruction
                  /\ slot = location allocated r)
       /\ (forall r,
             r ∈ get_registers instruction ->
             location allocated r <> -1
             /\ register_allocation function loc r = location allocated r).
Proof.
  intros all start. split; [|split; [|split]].
  - split; [apply set_new_elements|done].
  - reflexivity.
  - unfold run, state_at. fold all. by rewrite firstn_all.
  - intros k i Hi before allocated after.
    destruct (state_at_slots function loc k) as [Hn Hp].
    fold before in Hn, Hp.
    assert (Hafter : after
              = release_operands (compute_last_used all) i allocated).
    { unfold after. by rewrite (state_at_S _ _ _ _ Hi). }
    split; [|split; [|split; [|split]]].
    + intros j r Hj s s'.
      assert (Hs' : s' = allocate_operand s r).
      { unfold s', s. by rewrite (take_S_r _ _ _ Hj), fold_left_app. }
      destruct (allocate_operands_slots (take j (get_registers i)) before
                  Hn Hp) as (Hns & Hps & _).
      fold s in Hns, Hps. rewrite Hs'. unfold allocate_operand. split.
      * intros Hr. by destruct (Z.eqb_spec (location s r) (-1)).
      * intros Hr. rewrite Hr. simpl.
        destruct (allocate_slots s r Hns Hps) as (_ & _ & H1 & H2 & H3).
        done.
    + rewrite Hafter. unfold release_operands.
      by destruct (release_operands_spec (compute_last_used all) i
                     (get_registers i) allocated) as (-> & _).
    + rewrite Hafter. unfold release_operands.
      by destruct (release_operands_spec (compute_last_used all) i
                     (get_registers i) allocated) as (_ & -> & _).
    + intros slot. rewrite Hafter. unfold release_operands.
      rewrite release_operands_pool.
      assert (Hlu : forall r,
                dict_get r (compute_last_used all) = Some i
                <-> last (filter (fun i' => r ∈ get_registers i') all)
                    = Some i).
      { intros r. unfold compute_last_used. rewrite last_used_get.
        by destruct (last _). }
      split; (intros [?|(r & Hr & Hl & ->)]; [by left|right; exists r]);
        by rewrite ?Hlu in *.
    + intros r Hr.
      destruct (allocate_operands_slots (get_registers i) before Hn Hp)
        as (_ & _ & Hall).
      fold (allocate_operands i before) in Hall. fold allocated in Hall.
      split; [by apply Hall|].
      rewrite state_at_final. fold all.
      assert (Hk : (Datatypes.S k <= length all)%nat).
      { apply lookup_lt_Some in Hi. lia. }
      assert (Hmid : location (state_at function loc (Datatypes.S k)) r
                     = location allocated r).
      { rewrite (state_at_S _ _ _ _ Hi).
        by rewrite process_instruction_location_mid. }
      rewrite (state_at_stays function loc (Datatypes.S k) (length all) r Hk).
      * exact Hmid.
      * rewrite Hmid. by apply Hall.
Qed.

End AllocationTrace.

Section AllocationRuns.
Import Asm RegAlloc AsmExamples RegAllocExamples.

(** C5, the counterexample: after five instructions of [ex_pool_function],
    with a set that pops as CPython does, the pool holds the slots 1 and 3
    and the finger of the set stands after slot 2; the operand [r#6], which
    has no slot, gets slot 3. *)
Lemma pop_not_lowest :
  1 ∈ pool ex_pool_state /\ 3 ∈ pool ex_pool_state /\
  location ex_pool_state (ex_r 6) = -1 /\
  fst (_next_free_register (allocator ex_pool_state)) = 3 /\
  register_allocation (S := FingerSet) ex_pool_function unallocated (ex_r 6)
  = 3.
Proof.
  repeat split; try (apply bool_decide_unpack; vm_compute; exact I);
    vm_compute; reflexivity.
Qed.

(** C6, the counterexample: in [ex_alias_function] the register [me] is
    also the first argument; its slot is overwritten when the arguments are
    allocated, and [me] ends in slot 1. *)
Lemma aliased_me_loses_slot_zero :
  register_allocation (S := FingerSet) ex_alias_function unallocated
    (me_register ex_alias_function) = 1.
Proof. vm_compute. reflexivity. Qed.

Lemma parameters_get_first_slots_witness :
  register_allocation (S := FingerSet) ex_two_arguments unallocated
    (me_register ex_two_arguments) = 0
  /\ forall (i : nat) r,
       argument_registers ex_two_arguments !! i = Some r ->
       register_allocation (S := FingerSet) ex_two_arguments unallocated r
       = Z.of_nat i + 1.
Proof.
  apply (parameters_get_first_slots (S := FingerSet) ex_two_arguments
           unallocated).
  apply (bool_decide_unpack _). vm_compute. exact I.
Defined.

End AllocationRuns.

(** ** Inlining *)

Section Inlining.
Import Asm.
Local Close Scope Z_scope.

(** *** The clones: totality, and kinds kept *)

Lemma fresh_Ok n : fresh n = (S n, Ok n).
Proof. done. Qed.

Lemma clone_total r p n : exists n' r', clone r p n = (n', Ok r').
Proof. destruct p; simpl; eauto. Qed.

Lemma inline_register_total p r m n :
  exists n' r' m', inline_register p r m n = (n', Ok (r', m')).
Proof.
  unfold inline_register. destruct (dict_get r m); [by eauto|].
  unfold Py.bind. destruct (clone_total r p n) as (n' & r' & ->). simpl. eauto.
Qed.

Lemma inline_value_total p v m n :
  exists n' v' m', inline_value p v m n = (n', Ok (v', m')).
Proof.
  unfold inline_value. destruct v as [[r| | |]|]; try by eauto.
  unfold Py.bind. destruct (inline_register_total p r m n) as (n' & r' & m' & ->).
  simpl. eauto.
Qed.

Lemma get_inlined_equivalent_total i m p n :
  exists n' i' m', get_inlined_equivalent i m p n = (n', Ok (i', m')) /\ kind i' = kind i.
Proof.
  unfold get_inlined_equivalent, Py.bind. rewrite fresh_Ok.
  destruct (register i) as [r|].
  - destruct (inline_register_total p r m (S n)) as (n1 & r' & m1 & ->). simpl.
    destruct (inline_value_total p (value_1 i) m1 n1) as (n2 & v1 & m2 & ->).
    destruct (inline_value_total p (value_2 i) m2 n2) as (n3 & v2 & m3 & ->).
    simpl. eauto.
  - simpl.
    destruct (inline_value_total p (value_1 i) m (S n)) as (n2 & v1 & m2 & ->).
    destruct (inline_value_total p (value_2 i) m2 n2) as (n3 & v2 & m3 & ->).
    simpl. eauto.
Qed.

Lemma inline_instructions_total instrs : forall m p n,
  exists n' instrs', inline_instructions instrs m p n = (n', Ok instrs') /\
    Forall2 (fun i i' => kind i' = kind i) instrs instrs'.
Proof.
  induction instrs as [|i instrs IH]; intros m p n; simpl.
  - eexists _, _. split; [reflexivity|constructor].
  - unfold Py.bind.
    destruct (get_inlined_equivalent_total i m p n) as (n1 & i' & m1 & -> & Hk).
    destruct (IH m1 p n1) as (n2 & instrs' & -> & Hall). simpl.
    eexists _, _. split; [reflexivity|]. by constructor.
Qed.

Lemma clone_all_total rs : forall p n, exists n' rs', clone_all rs p n = (n', Ok rs').
Proof.
  induction rs as [|r rs IH]; intros p n; simpl; [by eauto|].
  unfold Py.bind. destruct (clone_total r p n) as (n1 & r' & ->).
  destruct (IH p n1) as (n2 & rs' & ->). simpl. eauto.
Qed.

Lemma Forall2_kind_not_call l l' :
  Forall2 (fun i i' => kind i' = kind i) l l' -> Forall not_call l -> Forall not_call l'.
Proof.
  induction 1 as [|i i' l l' Hk _ IH]; [done|].
  intros [Hi Hl]%Forall_cons. constructor; [|by apply IH].
  unfold not_call, is_call in *. by rewrite Hk.
Qed.

Lemma clone_for_inlining_total f p n :
  exists n' f', clone_for_inlining f p n = (n', Ok f') /\
    (call_free f -> call_free f').
Proof.
  unfold clone_for_inlining, Py.bind.
  destruct (clone_total (me_register f) p n) as (n1 & me' & ->).
  destruct (clone_all_total (argument_registers f) p n1) as (n2 & args' & ->).
  destruct (clone_total (return_register f) p n2) as (n3 & ret' & ->).
  match goal with |- context [inline_instructions ?a ?b ?c ?d] =>
    destruct (inline_instructions_total a b c d) as (n4 & instrs' & -> & Hk) end.
  simpl. eexists _, _. split; [reflexivity|].
  unfold call_free. simpl. by apply Forall2_kind_not_call.
Qed.

Lemma bind_parameters_total ps : forall args n,
  exists n' l, bind_parameters ps args n = (n', Ok l) /\ Forall not_call l.
Proof.
  induction ps as [|p ps IH]; intros args n; simpl.
  - eexists _, _. split; [reflexivity|constructor].
  - destruct args as [|a args].
    + eexists _, _. split; [reflexivity|constructor].
    + unfold Py.bind. rewrite fresh_Ok.
      destruct (IH args (S n)) as (n' & l & -> & Hl). simpl.
      eexists _, _. split; [reflexivity|]. by constructor.
Qed.

(** *** An expansion holds no CALL *)

Lemma lookup_function_unfold st cn fn :
  lookup_function st (cn, fn)
  = match dict_get cn (assembly_classes st) with
    | Some c => dict_get fn (functions c)
    | None => None
    end.
Proof. unfold lookup_function. simpl. by destruct (dict_get cn _). Qed.

(** A successful expansion of a CALL whose target is call-free holds no CALL. *)
Lemma inline_call_not_call st self i instruction fp args sis n n' l :
  inline_call st self i instruction (LinkedFunction fp) args sis n = (n', Ok l) ->
  (forall callee, lookup_function st (fp_class fp, fp_name fp) = Some callee ->
                  call_free callee) ->
  Forall not_call l.
Proof.
  unfold inline_call. rewrite lookup_function_unfold. intros H Hfree.
  destruct (dict_get (fp_class fp) _) as [c|]; [|discriminate].
  destruct (dict_get (fp_name fp) _) as [callee|]; [|discriminate].
  specialize (Hfree callee eq_refl).
  apply bind_Ok in H as (n1 & callee' & Hclone & H).
  destruct (clone_for_inlining_total callee (Some ("inlined#" +:+ pretty i)) n)
    as (n1' & callee'' & Hclone' & Hcf).
  rewrite Hclone' in Hclone. injection Hclone as <- <-.
  apply bind_Ok in H as (n2 & me_binding & Hme & H).
  apply bind_Ok in H as (n3 & params & Hparams & H).
  apply bind_Ok in H as (n4 & id & _ & H).
  apply ret_Ok in H as [_ ->].
  destruct (bind_parameters_total (argument_registers callee'') args n2)
    as (n3' & params' & Hparams' & Hnc).
  rewrite Hparams' in Hparams. injection Hparams as <- <-.
  assert (Hmb : not_call me_binding).
  { destruct sis.
    - destruct (argument_registers self); [discriminate|].
      apply bind_Ok in Hme as (? & ? & _ & Hme). apply ret_Ok in Hme as [_ ->]. done.
    - apply bind_Ok in Hme as (? & ? & _ & Hme). apply ret_Ok in Hme as [_ ->]. done. }
  apply Forall_app. split; [by constructor|].
  apply Forall_app. split; [done|].
  apply Forall_app. split; [by apply Hcf|]. by constructor.
Qed.

Lemma inline_from_not_call st self instrs : forall i n n' l,
  inline_from st self i instrs n = (n', Ok l) ->
  (forall instruction fp args sis callee,
     instruction ∈ instrs ->
     kind instruction = CALL (LinkedFunction fp) args sis ->
     lookup_function st (fp_class fp, fp_name fp) = Some callee ->
     call_free callee) ->
  Forall not_call l.
Proof.
  induction instrs as [|instruction instrs IH]; intros i n n' l H Hfree; simpl in H.
  - apply ret_Ok in H as [_ ->]. constructor.
  - apply bind_Ok in H as (n1 & here & Hhere & H).
    apply bind_Ok in H as (n2 & rest & Hrest & H).
    apply ret_Ok in H as [_ ->].
    apply Forall_app. split.
    + destruct (kind instruction) as [| | | | | | | | | | | | |[fp|q] args sis] eqn:Hk;
        try (apply ret_Ok in Hhere as [_ ->]; constructor;
             [by unfold not_call, is_call; rewrite Hk|constructor]).
      * eapply inline_call_not_call; [exact Hhere|].
        intros callee Hc. eapply Hfree; [|exact Hk|exact Hc]. set_solver.
      * discriminate.
    + eapply IH; [exact Hrest|]. intros ? ? ? ? ? Hin. apply Hfree. set_solver.
Qed.

Lemma inline_call_free st self n n' f' :
  inline st self n = (n', Ok f') ->
  (forall instruction fp args sis callee,
     instruction ∈ instructions self ->
     kind instruction = CALL (LinkedFunction fp) args sis ->
     lookup_function st (fp_class fp, fp_name fp) = Some callee ->
     call_free callee) ->
  call_free f' /\ function_name f' = function_name self
  /\ argument_registers f' = argument_registers self.
Proof.
  unfold inline. intros H Hfree.
  apply bind_Ok in H as (n1 & all_inlined & Hall & H).
  apply ret_Ok in H as [_ ->]. simpl. split; [|done].
  unfold call_free. simpl. eapply inline_from_not_call; eauto.
Qed.

(** Totality of [inline] when every CALL resolves. *)
Lemma inline_call_total st self i instruction fp args sis n :
  is_Some (lookup_function st (fp_class fp, fp_name fp)) ->
  (sis = true -> argument_registers self <> []) ->
  exists n' l, inline_call st self i instruction (LinkedFunction fp) args sis n = (n', Ok l).
Proof.
  unfold inline_call. rewrite lookup_function_unfold. intros [callee Hc] Hargs.
  destruct (dict_get (fp_class fp) _) as [c|]; [|discriminate].
  rewrite Hc. unfold Py.bind.
  destruct (clone_for_inlining_total callee (Some ("inlined#" +:+ pretty i)) n)
    as (n1 & callee' & -> & _).
  destruct sis.
  - destruct (argument_registers self) as [|a ?]; [by exfalso; apply Hargs|].
    unfold fresh; simpl.
    destruct (bind_parameters_total (argument_registers callee') args (S n1))
      as (n3 & params & -> & _).
    unfold fresh; simpl. eauto.
  - unfold fresh; simpl.
    destruct (bind_parameters_total (argument_registers callee') args (S n1))
      as (n3 & params & -> & _).
    unfold fresh; simpl. eauto.
Qed.

Lemma inline_from_total st self instrs : forall i n,
  Forall (call_resolves st self) instrs ->
  exists n' l, inline_from st self i instrs n = (n', Ok l).
Proof.
  induction instrs as [|instruction instrs IH]; intros i n Hall; simpl; [by eauto|].
  apply Forall_cons in Hall as [Hi Hall]. unfold Py.bind.
  assert (Hhere : exists n1 here,
    match kind instruction with
    | CALL function call_arguments sender_is_self =>
        inline_call st self i instruction function call_arguments sender_is_self
    | _ => Py.ret [instruction]
    end n = (n1, Ok here)).
  { unfold call_resolves in Hi.
    destruct (kind instruction) as [| | | | | | | | | | | | |[fp|q] args sis];
      try (by eauto); try done.
    destruct Hi. by apply inline_call_total. }
  destruct Hhere as (n1 & here & ->).
  destruct (IH (S i) n1 Hall) as (n2 & l & ->). simpl. eauto.
Qed.

Lemma inline_total st self n :
  Forall (call_resolves st self) (instructions self) ->
  exists n' f', inline st self n = (n', Ok f').
Proof.
  intros Hall. unfold inline, Py.bind.
  destruct (inline_from_total st self (instructions self) 0 n Hall) as (n' & l & ->).
  simpl. eauto.
Qed.

(** *** The effect of [inline_function] on the storage *)

Lemma inline_function_Ok cn fn w w' :
  inline_function cn fn w = (w', Ok tt) ->
  exists prev f' n',
    lookup_function (storage w) (cn, fn) = Some prev /\
    inline (storage w) prev (next_id w) = (n', Ok f') /\
    classes_to_check (storage w') = classes_to_check (storage w) /\
    forall k', lookup_function (storage w') k'
               = if decide (k' = (cn, fn)) then Some f'
                 else lookup_function (storage w) k'.
Proof.
  unfold inline_function. intros H.
  apply bind_Ok in H as (w1 & w0 & Hget & H). injection Hget as <- <-.
  rewrite lookup_function_unfold.
  destruct (dict_get cn (assembly_classes (storage w))) as [c|] eqn:Hc; [|discriminate].
  destruct (dict_get fn (functions c)) as [prev|] eqn:Hf; [|discriminate].
  apply bind_Ok in H as (w2 & f' & Hin & H).
  unfold zoom in Hin.
  destruct (inline (storage w) prev (next_id w)) as [n' r] eqn:Hinl.
  injection Hin as <- ->.
  unfold modify in H. injection H as <-.
  exists prev, f', n'. split; [done|]. split; [done|]. split; [done|].
  intros [cn' fn']. rewrite !lookup_function_unfold. simpl.
  rewrite dict_get_set.
  destruct (decide (cn' = cn)) as [->|Hne].
  - simpl. rewrite dict_get_set, Hc.
    destruct (decide (fn' = fn)) as [->|Hnf].
    + by rewrite decide_True.
    + rewrite decide_False; [done|congruence].
  - rewrite decide_False; [done|congruence].
Qed.

Lemma inline_function_total cn fn w prev :
  lookup_function (storage w) (cn, fn) = Some prev ->
  Forall (call_resolves (storage w) prev) (instructions prev) ->
  exists w', inline_function cn fn w = (w', Ok tt).
Proof.
  rewrite lookup_function_unfold. intros Hl Hall.
  unfold inline_function, Py.bind, Py.get.
  destruct (dict_get cn (assembly_classes (storage w))) as [c|]; [|discriminate].
  rewrite Hl. unfold zoom.
  destruct (inline_total (storage w) prev (next_id w) Hall) as (n' & f' & ->).
  unfold modify. eauto.
Qed.

(** *** The call graph *)

Lemma list_remove_elem `{EqDecision A} (x y : A) l :
  y ∈ l -> y <> x -> y ∈ list_remove x l.
Proof.
  induction l as [|a l IH]; simpl; [done|].
  intros [->|Hin]%elem_of_cons Hne.
  - rewrite decide_False by done. set_solver.
  - destruct (decide (x = a)); [done|]. apply elem_of_cons. right. by apply IH.
Qed.

Lemma prune_elem k k' callees : k' ∈ callees -> k' <> k -> k' ∈ prune k callees.
Proof.
  intros Hin Hne. unfold prune. case_bool_decide; [|done]. by apply list_remove_elem.
Qed.

Lemma dict_get_fmap_snd {K V W} `{EqDecision K} (h : V -> W) (d : list (K * V)) k :
  dict_get k ((fun e => (fst e, h (snd e))) <$> d) = h <$> dict_get k d.
Proof.
  induction d as [|[k0 v0] d IH]; simpl; [done|].
  destruct (decide (k = k0)); [done|]. apply IH.
Qed.

Lemma dict_keys_fmap_snd {K V W} (h : V -> W) (d : list (K * V)) :
  dict_keys ((fun e => (fst e, h (snd e))) <$> d) = dict_keys d.
Proof.
  unfold dict_keys. rewrite <- list_fmap_compose. by apply list_fmap_ext.
Qed.

Lemma remove_node_prune k (g : CallGraph) :
  remove_node k g = dict_del k ((fun e => (fst e, prune k (snd e))) <$> g).
Proof. reflexivity. Qed.

Lemma remove_node_get k k' (g : CallGraph) :
  NoDup (dict_keys g) ->
  dict_get k' (remove_node k g)
  = if decide (k' = k) then None else prune k <$> dict_get k' g.
Proof.
  intros Hnd. rewrite remove_node_prune.
  rewrite dict_get_del by (by rewrite dict_keys_fmap_snd).
  destruct (decide (k' = k)); [done|].
  by rewrite (dict_get_fmap_snd (prune k)).
Qed.

Lemma remove_node_NoDup k (g : CallGraph) :
  NoDup (dict_keys g) -> NoDup (dict_keys (remove_node k g)).
Proof.
  intros Hnd. rewrite remove_node_prune. apply dict_del_NoDup. by rewrite dict_keys_fmap_snd.
Qed.

Lemma remove_node_length k (g : CallGraph) :
  k ∈ dict_keys g -> S (length (remove_node k g)) = length g.
Proof.
  intros Hk. rewrite remove_node_prune. rewrite dict_del_length.
  - by rewrite length_fmap.
  - by rewrite dict_keys_fmap_snd.
Qed.

Lemma remove_node_keys k k' (g : CallGraph) :
  NoDup (dict_keys g) ->
  k' ∈ dict_keys (remove_node k g) <-> k' <> k /\ k' ∈ dict_keys g.
Proof.
  intros Hnd. rewrite <- !dict_get_is_Some, remove_node_get by done.
  destruct (decide (k' = k)) as [->|Hne].
  - split; [by intros [? ?]|tauto].
  - rewrite fmap_is_Some. tauto.
Qed.

Lemma find_leaf_Some (g : CallGraph) k :
  find_leaf g = Some k -> (k, []) ∈ g.
Proof.
  induction g as [|[k0 callees] g IH]; simpl; [done|].
  destruct callees as [|c callees]; simpl.
  - intros [= ->]. set_solver.
  - intros H. apply elem_of_cons. right. by apply IH.
Qed.

Lemma find_leaf_None (g : CallGraph) k callees :
  find_leaf g = None -> (k, callees) ∈ g -> callees <> [].
Proof.
  induction g as [|[k0 c0] g IH]; simpl; [set_solver|].
  destruct c0 as [|c c0]; simpl; [done|].
  intros Hn [Heq|Hin]%elem_of_cons; [by injection Heq as -> ->|by apply IH].
Qed.

(** *** Building the call graph *)

Lemma called_names_from instrs : forall acc called,
  get_called_function_names_from instrs acc = Ok called ->
  (forall k, k ∈ acc -> k ∈ called) /\
  (forall i fp args sis, i ∈ instrs ->
     kind i = CALL (LinkedFunction fp) args sis ->
     (fp_class fp, fp_name fp) ∈ called).
Proof.
  induction instrs as [|i instrs IH]; intros acc called H; simpl in H.
  - injection H as <-. split; [done|]. intros ? ? ? ? Hin. by apply elem_of_nil in Hin.
  - destruct (kind i) as [| | | | | | | | | | | | |[fp|q] args sis] eqn:Hk;
      try (apply IH in H as [Hacc Hcalls]; split; [done|];
           intros i' fp' args' sis' [->|Hin]%elem_of_cons Hk'; [congruence|by eapply Hcalls]).
    + apply IH in H as [Hacc Hcalls]. split.
      * intros k Hin. apply Hacc. case_bool_decide; set_solver.
      * intros i' fp' args' sis' [->|Hin]%elem_of_cons Hk'; [|by eapply Hcalls].
        rewrite Hk in Hk'. injection Hk' as <- _ _. apply Hacc.
        case_bool_decide; set_solver.
    + discriminate.
Qed.

Lemma called_names_total instrs : forall acc,
  Forall (fun i => forall q args sis, kind i <> CALL (UnlinkedFunction q) args sis) instrs ->
  exists called, get_called_function_names_from instrs acc = Ok called.
Proof.
  induction instrs as [|i instrs IH]; intros acc Hall; simpl; [by eauto|].
  apply Forall_cons in Hall as [Hi Hall].
  destruct (kind i) as [| | | | | | | | | | | | |[fp|q] args sis] eqn:Hk; try by apply IH.
  exfalso. by eapply Hi.
Qed.

Lemma graph_of_functions names c fs : forall g g' P,
  callgraph_of_functions names c fs g = Ok g' ->
  graph_of names P g ->
  graph_of names (fun c' f' => P c' f' \/ (c' = c /\ f' ∈ fs)) g'.
Proof.
  induction fs as [|f fs IH]; intros g g' P H (Hnd & Hget & Hkeys); simpl in H.
  - injection H as <-. split; [done|]. split.
    + intros k callees Hk. destruct (Hget k callees Hk) as (c' & f' & called & HP & ?).
      exists c', f', called. tauto.
    + intros c' f' [HP|[_ Hin]]; [by apply Hkeys|by apply elem_of_nil in Hin].
  - unfold rbind in H. destruct (get_called_function_names f) as [called|e] eqn:Hc; [|discriminate].
    apply (IH _ _ (fun c' f' => P c' f' \/ (c' = c /\ f' = f))) in H.
    + destruct H as (Hnd' & Hget' & Hkeys'). split; [done|]. split.
      * intros k callees Hk. destruct (Hget' k callees Hk) as (c' & f' & called' & HP & ?).
        exists c', f', called'. split; [|done]. set_solver.
      * intros c' f' HP. apply Hkeys'. set_solver.
    + split; [by apply dict_set_NoDup|]. split.
      * intros k callees. rewrite dict_get_set.
        destruct (decide (k = (qualified_name c, function_name f))) as [->|Hne].
        -- intros [= <-]. exists c, f, called. split; [by right|done].
        -- intros Hk. destruct (Hget k callees Hk) as (c' & f' & called' & HP & ?).
           exists c', f', called'. tauto.
      * intros c' f' HP. rewrite dict_set_keys.
        destruct HP as [HP|[-> ->]].
        -- specialize (Hkeys c' f' HP). case_bool_decide; set_solver.
        -- case_bool_decide; set_solver.
Qed.

Lemma graph_of_classes names cs : forall g g' P,
  callgraph_of_classes names cs g = Ok g' ->
  graph_of names P g ->
  graph_of names
    (fun c' f' => P c' f' \/ (c' ∈ cs /\ f' ∈ dict_values (functions c'))) g'.
Proof.
  induction cs as [|c cs IH]; intros g g' P H Hg; simpl in H.
  - injection H as <-. destruct Hg as (Hnd & Hget & Hkeys). split; [done|]. split.
    + intros k callees Hk. destruct (Hget k callees Hk) as (c' & f' & called & HP & ?).
      exists c', f', called. tauto.
    + intros c' f' [HP|[Hin _]]; [by apply Hkeys|by apply elem_of_nil in Hin].
  - unfold rbind in H.
    destruct (callgraph_of_functions names c _ g) as [g1|e] eqn:Hf; [|discriminate].
    eapply graph_of_functions in Hf; [|exact Hg].
    eapply IH in H; [|exact Hf].
    destruct H as (Hnd & Hget & Hkeys). split; [done|]. split.
    + intros k callees Hk. destruct (Hget k callees Hk) as (c' & f' & called & HP & ?).
      exists c', f', called. split; [|done].
      destruct HP as [[HP|[-> Hin]]|[Hin1 Hin2]]; [by left| |]; right; set_solver.
    + intros c' f' [HP|[[->|Hin1]%elem_of_cons Hin2]]; apply Hkeys; tauto.
Qed.

Lemma classes_of_spec st keys cs :
  classes_of st keys = Ok cs ->
  Forall2 (fun k c => dict_get k (assembly_classes st) = Some c) keys cs.
Proof.
  revert cs. induction keys as [|k keys IH]; intros cs H; simpl in H.
  - injection H as <-. constructor.
  - destruct (dict_get k _) as [c|] eqn:Hk; [|discriminate].
    unfold rbind in H. destruct (classes_of st keys) as [cs'|]; [|discriminate].
    injection H as <-. constructor; [done|]. by apply IH.
Qed.

Lemma classes_of_total st keys :
  (forall k, k ∈ keys -> is_Some (dict_get k (assembly_classes st))) ->
  exists cs, classes_of st keys = Ok cs.
Proof.
  induction keys as [|k keys IH]; intros Hall; simpl; [by eauto|].
  destruct (Hall k) as [c ->]; [set_solver|].
  destruct IH as [cs ->]; [set_solver|]. simpl. eauto.
Qed.

Lemma classes_of_names st keys cs :
  keyed_by qualified_name (assembly_classes st) ->
  Forall2 (fun k c => dict_get k (assembly_classes st) = Some c) keys cs ->
  qualified_name <$> cs = keys.
Proof.
  intros [_ Hname]. induction 1 as [|k c keys cs Hk _ IH]; [done|].
  rewrite fmap_cons, IH. f_equal. apply Hname. by apply dict_get_elem.
Qed.

(** The graph [build_callgraph] yields on a well-formed storage. *)
Lemma build_callgraph_spec st g :
  storage_wf st -> build_callgraph st = Ok g ->
  NoDup (dict_keys g)
  /\ (forall k, k ∈ dict_keys g ->
        fst k ∈ classes_to_check st /\ is_Some (lookup_function st k))
  /\ (forall k f, fst k ∈ classes_to_check st -> lookup_function st k = Some f ->
        k ∈ dict_keys g)
  /\ (forall k callees f, dict_get k g = Some callees ->
        lookup_function st k = Some f ->
        exists called, get_called_function_names f = Ok called /\
          callees = filter (fun cf => fst cf ∈ classes_to_check st) called).
Proof.
  intros (Hclasses & Hfuns & Hbatch & _) H. unfold build_callgraph, rbind in H.
  destruct (classes_of st (classes_to_check st)) as [cs|] eqn:Hcs; [|discriminate].
  apply classes_of_spec in Hcs.
  pose proof (classes_of_names _ _ _ Hclasses Hcs) as Hnames. cbv zeta in H. rewrite Hnames in H.
  eapply graph_of_classes in H;
    [|instantiate (1 := fun _ _ => False); split; [constructor|split; [done|done]]].
  destruct H as (Hnd & Hget & Hkeys).
  (* every class of [cs] is stored under its name, which is to be checked *)
  assert (Hcs' : forall c, c ∈ cs ->
            qualified_name c ∈ classes_to_check st /\
            dict_get (qualified_name c) (assembly_classes st) = Some c).
  { intros c Hc. apply list_elem_of_lookup in Hc as [i Hi].
    destruct (Forall2_lookup_r _ _ _ _ _ Hcs Hi) as (k & Hk & Hd).
    assert (qualified_name c = k) as ->.
    { destruct Hclasses as [_ Hn]. apply Hn. by apply dict_get_elem. }
    split; [by eapply list_elem_of_lookup_2|done]. }
  (* a function of a stored class is found under its name *)
  assert (Hf' : forall c f, c ∈ cs -> f ∈ dict_values (functions c) ->
            lookup_function st (qualified_name c, function_name f) = Some f).
  { intros c f Hc Hf. destruct (Hcs' c Hc) as [_ Hd].
    rewrite lookup_function_unfold, Hd.
    apply list_elem_of_fmap in Hf as ([fk f'] & -> & Hin). simpl.
    destruct (Hfuns _ _ (dict_get_elem _ _ _ Hd)) as [Hnd' Hn].
    rewrite (Hn _ _ Hin). by apply elem_dict_get. }
  split; [done|]. split; [|split].
  - intros k Hk. apply dict_get_is_Some in Hk as [callees Hk].
    destruct (Hget k callees Hk) as (c & f & called & [[]|[Hc Hf]] & -> & _).
    split; [by apply Hcs'|]. rewrite (Hf' c f Hc Hf). eauto.
  - intros [cn fn] f Hcn Hl. simpl in Hcn.
    rewrite lookup_function_unfold in Hl.
    destruct (dict_get cn (assembly_classes st)) as [c|] eqn:Hd; [|discriminate].
    assert (Hc : c ∈ cs).
    { apply list_elem_of_lookup in Hcn as [i Hi].
      destruct (Forall2_lookup_l _ _ _ _ _ Hcs Hi) as (c' & Hc' & Hd').
      rewrite Hd in Hd'. injection Hd' as <-. by eapply list_elem_of_lookup_2. }
    assert (Hqn : qualified_name c = cn).
    { destruct Hclasses as [_ Hn]. apply Hn. by apply dict_get_elem. }
    assert (Hfn : function_name f = fn).
    { destruct (Hfuns _ _ (dict_get_elem _ _ _ Hd)) as [_ Hn]. apply Hn.
      by apply dict_get_elem. }
    rewrite <- Hqn, <- Hfn. apply Hkeys. right. split; [done|].
    apply list_elem_of_fmap. exists (fn, f). split; [done|]. by apply dict_get_elem.
  - intros k callees f Hk Hl.
    destruct (Hget k callees Hk) as (c & f' & called & [[]|[Hc Hf]] & -> & Hcalled & ->).
    rewrite (Hf' c f' Hc Hf) in Hl. injection Hl as <-. eauto.
Qed.

Lemma build_callgraph_total st :
  storage_wf st -> all_calls_resolve st ->
  exists g, build_callgraph st = Ok g.
Proof.
  intros (Hclasses & Hfuns & Hbatch & _) Hres. unfold build_callgraph, rbind.
  destruct (classes_of_total st (classes_to_check st) Hbatch) as [cs Hcs].
  rewrite Hcs. cbv zeta. apply classes_of_spec in Hcs.
  assert (Hin : forall c, c ∈ cs -> exists k, (k, c) ∈ assembly_classes st).
  { intros c Hc. apply list_elem_of_lookup in Hc as [i Hi].
    destruct (Forall2_lookup_r _ _ _ _ _ Hcs Hi) as (k & _ & Hd).
    exists k. by apply dict_get_elem. }
  generalize (qualified_name <$> cs) as names. intros names.
  generalize ([] : CallGraph) as g.
  clear Hcs. induction cs as [|c cs IH]; intros g; simpl; [by eauto|].
  assert (Hfs : forall fs g0, (forall f, f ∈ fs -> f ∈ dict_values (functions c)) ->
            exists g1, callgraph_of_functions names c fs g0 = Ok g1).
  { induction fs as [|f fs IHf]; intros g0 Hsub; simpl; [by eauto|].
    destruct (Hin c) as [k Hk]; [set_solver|].
    assert (Hf : f ∈ dict_values (functions c)) by (apply Hsub; set_solver).
    apply list_elem_of_fmap in Hf as ([fk f'] & -> & Hf).
    pose proof (Hres _ _ _ _ Hk Hf) as Hall. simpl in *.
    destruct (called_names_total (instructions f') []) as [called Hc].
    { eapply Forall_impl; [exact Hall|]. intros i Hi q args sis Hk'.
      unfold call_resolves in Hi. by rewrite Hk' in Hi. }
    unfold get_called_function_names. rewrite Hc. simpl. apply IHf.
    intros f0 Hf0. apply Hsub. set_solver. }
  destruct (Hfs (dict_values (functions c)) g) as [g1 ->]; [done|]. simpl.
  apply IH. intros c' Hc'. apply Hin. set_solver.
Qed.

(** *** The loop *)

Lemma loop_inv_init w g :
  storage_wf (storage w) -> build_callgraph (storage w) = Ok g ->
  LoopInv (classes_to_check (storage w)) w g.
Proof.
  intros Hwf Hb. destruct (build_callgraph_spec _ _ Hwf Hb) as (Hnd & Hk & Hall & Hget).
  destruct Hwf as (Hclasses & Hfuns & Hbatch & Hold).
  split; [done|done| | | |].
  - intros k Hin. by apply Hk.
  - intros k f Hb' Hl. left. by eapply Hall.
  - intros k callees f i fp args sis Hd Hl Hi Hkind Hcls. left.
    destruct (Hget k callees f Hd Hl) as (called & Hc & ->).
    apply list_elem_of_filter. split; [done|].
    unfold get_called_function_names in Hc.
    by eapply (called_names_from _ _ _ Hc).
  - intros [cn fn] f Hn Hl. rewrite lookup_function_unfold in Hl.
    destruct (dict_get cn _) as [c|] eqn:Hc; [|discriminate].
    eapply Hold; [by apply dict_get_elem|done|by apply dict_get_elem].
Qed.

Lemma leaf_is_inlined batch w g cn fn w' :
  LoopInv batch w g -> find_leaf g = Some (cn, fn) ->
  inline_function cn fn w = (w', Ok tt) ->
  exists f', call_free f' /\
    classes_to_check (storage w') = classes_to_check (storage w) /\
    forall k', lookup_function (storage w') k'
               = if decide (k' = (cn, fn)) then Some f'
                 else lookup_function (storage w) k'.
Proof.
  intros Hinv Hleaf Hin.
  apply inline_function_Ok in Hin as (prev & f' & n' & Hprev & Hinl & Hb & Hl).
  exists f'. split; [|done].
  apply find_leaf_Some, (elem_dict_get _ _ _ (inv_nodup _ _ _ Hinv)) in Hleaf.
  eapply inline_call_free; [exact Hinl|].
  intros i fp args sis callee Hi Hk Hc.
  destruct (decide (fp_class fp ∈ batch)) as [Hcls|Hcls].
  - destruct (inv_edges _ _ _ Hinv _ _ _ _ _ _ _ Hleaf Hprev Hi Hk Hcls) as [Hnil|Hfree].
    + by apply elem_of_nil in Hnil.
    + by apply Hfree.
  - by eapply (inv_old _ _ _ Hinv (fp_class fp, fp_name fp)).
Qed.

Lemma loop_inv_step batch w g cn fn w' :
  LoopInv batch w g -> find_leaf g = Some (cn, fn) ->
  inline_function cn fn w = (w', Ok tt) ->
  LoopInv batch w' (remove_node (cn, fn) g).
Proof.
  intros Hinv Hleaf Hin.
  destruct (leaf_is_inlined _ _ _ _ _ _ Hinv Hleaf Hin) as (f' & Hfree & Hb & Hl).
  pose proof (inv_nodup _ _ _ Hinv) as Hnd.
  split.
  - rewrite Hb. apply Hinv.
  - by apply remove_node_NoDup.
  - intros k [Hne Hk]%remove_node_keys; [|done]. rewrite Hl, decide_False by done.
    by apply (inv_keys _ _ _ Hinv).
  - intros k f Hcls. rewrite Hl. destruct (decide (k = (cn, fn))) as [->|Hne].
    + intros [= <-]. by right.
    + intros Hf. destruct (inv_done _ _ _ Hinv k f Hcls Hf) as [Hk|Hcf]; [left|by right].
      by apply remove_node_keys.
  - intros k callees f i fp args sis. rewrite remove_node_get by done.
    destruct (decide (k = (cn, fn))) as [->|Hne]; [done|].
    destruct (dict_get k g) as [callees0|] eqn:Hd; [|done]. intros [= <-].
    rewrite (Hl k), decide_False by done. intros Hf Hi Hk Hcls.
    destruct (decide ((fp_class fp, fp_name fp) = (cn, fn))) as [Heq|Hne'].
    + right. intros callee. rewrite Hl, Heq, decide_True by done. by intros [= <-].
    + destruct (inv_edges _ _ _ Hinv _ _ _ _ _ _ _ Hd Hf Hi Hk Hcls) as [Hin'|Hcf].
      * left. by apply prune_elem.
      * right. intros callee. rewrite Hl, decide_False by done. apply Hcf.
  - intros k f Hcls. rewrite Hl. destruct (decide (k = (cn, fn))) as [->|Hne].
    + by intros [= <-].
    + by apply (inv_old _ _ _ Hinv).
Qed.

Lemma loop_success batch fuel : forall g w w',
  LoopInv batch w g -> inline_loop fuel g w = Some (w', Ok tt) ->
  LoopInv batch w' [].
Proof.
  induction fuel as [|fuel IH]; intros g w w' Hinv H;
    (destruct g as [|e g]; cbn [inline_loop] in H; [by injection H as <-|]).
  - destruct (find_leaf (e :: g)) as [[cn fn]|]; [|discriminate].
    by destruct (inline_function cn fn w) as [w1 [[]|?]].
  - destruct (find_leaf (e :: g)) as [[cn fn]|] eqn:Hleaf; [|discriminate].
    destruct (inline_function cn fn w) as [w1 [[]|?]] eqn:Hin; [|discriminate].
    eapply IH; [|exact H]. by eapply loop_inv_step.
Qed.

Lemma loop_total batch fuel : forall g w,
  LoopInv batch w g -> length g <= fuel ->
  exists r, inline_loop fuel g w = Some r.
Proof.
  induction fuel as [|fuel IH]; intros g w Hinv Hlen;
    (destruct g as [|e g]; [by simpl; eauto|]).
  - simpl in Hlen. lia.
  - cbn [inline_loop].
    destruct (find_leaf (e :: g)) as [[cn fn]|] eqn:Hleaf; [|by eauto].
    destruct (inline_function cn fn w) as [w1 [[]|?]] eqn:Hin; [|by eauto].
    apply IH; [by eapply loop_inv_step|].
    assert (S (length (remove_node (cn, fn) (e :: g))) = length (e :: g)).
    { apply remove_node_length. apply find_leaf_Some in Hleaf.
      apply list_elem_of_fmap. by exists (cn, fn, []). }
    lia.
Qed.

Lemma resolved_step batch w g cn fn w' :
  LoopInv batch w g -> find_leaf g = Some (cn, fn) ->
  inline_function cn fn w = (w', Ok tt) ->
  resolved w -> resolved w'.
Proof.
  intros Hinv Hleaf Hin Hres.
  destruct (leaf_is_inlined _ _ _ _ _ _ Hinv Hleaf Hin) as (f' & Hfree & Hb & Hl).
  assert (Hkeep : forall k, is_Some (lookup_function (storage w) k) ->
                            is_Some (lookup_function (storage w') k)).
  { intros k Hk. rewrite Hl. by destruct (decide (k = (cn, fn))). }
  intros k f. rewrite Hl. destruct (decide (k = (cn, fn))) as [->|Hne].
  - intros [= <-]. eapply Forall_impl; [exact Hfree|].
    intros i Hi. unfold call_resolves. unfold is_call in Hi.
    by destruct (kind i).
  - intros Hf. eapply Forall_impl; [exact (Hres k f Hf)|].
    intros i Hi. unfold call_resolves in *.
    destruct (kind i) as [| | | | | | | | | | | | |[fp|q] args sis]; try done.
    destruct Hi as [Hs Ha]. split; [by apply Hkeep|done].
Qed.

Lemma closed_step g ks k :
  NoDup (dict_keys g) -> closed_in g ks -> dict_get k g = Some [] ->
  closed_in (remove_node k g) ks.
Proof.
  intros Hnd [Hne Hcl] Hk. split; [done|].
  assert (Hnot : k ∉ ks).
  { intros Hin. destruct (Hcl k Hin) as (callees & k' & Hd & _ & Hk').
    rewrite Hk in Hd. injection Hd as <-. by apply elem_of_nil in Hk'. }
  intros k2 Hk2. destruct (Hcl k2 Hk2) as (callees & k' & Hd & Hk' & Hin).
  exists (prune k callees), k'. rewrite remove_node_get by done.
  rewrite decide_False by (intros ->; done). rewrite Hd. split; [done|].
  split; [done|]. apply prune_elem; [done|]. intros ->. done.
Qed.

Lemma loop_cycle batch ks fuel : forall g w,
  LoopInv batch w g -> closed_in g ks -> length g <= fuel ->
  exists w' e, inline_loop fuel g w = Some (w', Raise e)
               /\ (resolved w -> e = cycle_error).
Proof.
  induction fuel as [|fuel IH]; intros g w Hinv Hcl Hlen.
  - destruct g as [|e g]; [|simpl in Hlen; lia].
    destruct Hcl as [Hne Hcl]. destruct ks as [|k ks]; [done|].
    destruct (Hcl k) as (? & ? & Hd & _); [set_solver|]. done.
  - destruct g as [|e g].
    { destruct Hcl as [Hne Hcl]. destruct ks as [|k ks]; [done|].
      destruct (Hcl k) as (? & ? & Hd & _); [set_solver|]. done. }
    cbn [inline_loop].
    destruct (find_leaf (e :: g)) as [[cn fn]|] eqn:Hleaf; [|by eauto].
    pose proof (find_leaf_Some _ _ Hleaf) as Hmem.
    pose proof (elem_dict_get _ _ _ (inv_nodup _ _ _ Hinv) Hmem) as Hd.
    destruct (inline_function cn fn w) as [w1 [[]|err]] eqn:Hin.
    + destruct (IH (remove_node (cn, fn) (e :: g)) w1) as (w' & e' & Hloop & He').
      * by eapply loop_inv_step.
      * apply closed_step; [apply Hinv|done|done].
      * assert (S (length (remove_node (cn, fn) (e :: g))) = length (e :: g)).
        { apply remove_node_length. apply list_elem_of_fmap. by exists (cn, fn, []). }
        lia.
      * exists w', e'. split; [done|]. intros Hres. apply He'.
        by eapply resolved_step.
    + exists w1, err. split; [done|]. intros Hres. exfalso.
      destruct (inv_keys _ _ _ Hinv (cn, fn)) as [prev Hprev].
      { apply list_elem_of_fmap. by exists (cn, fn, []). }
      destruct (inline_function_total cn fn w prev Hprev (Hres _ _ Hprev)) as [w2 Hok].
      rewrite Hok in Hin. discriminate.
Qed.

Lemma path_calls st ks : forall back k,
  path st ks back -> k ∈ ks ->
  exists k', (k' ∈ ks \/ k' = back) /\ calls st k k'.
Proof.
  induction ks as [|k0 ks IH]; intros back k Hp Hk; [by apply elem_of_nil in Hk|].
  simpl in Hp. destruct ks as [|k1 ks].
  - apply list_elem_of_singleton in Hk as ->. exists back. split; [by right|done].
  - destruct Hp as [Hc Hp]. apply elem_of_cons in Hk as [->|Hk].
    + exists k1. split; [left; set_solver|done].
    + destruct (IH back k Hp Hk) as (k' & [Hin| ->] & Hc').
      * exists k'. split; [left; set_solver|done].
      * exists back. split; [by right|done].
Qed.

Lemma cycle_closed st g ks :
  storage_wf st -> build_callgraph st = Ok g -> is_cycle st ks -> closed_in g ks.
Proof.
  intros Hwf Hb Hcyc. destruct (build_callgraph_spec _ _ Hwf Hb) as (Hnd & Hk & Hall & Hget).
  destruct ks as [|k0 ks]; [done|]. unfold is_cycle in Hcyc. split; [done|].
  intros k Hin. destruct (path_calls _ _ _ _ Hcyc Hin) as (k' & Hk' & Hc).
  assert (Hk'' : k' ∈ k0 :: ks) by (destruct Hk' as [?| ->]; set_solver).
  destruct Hc as (Hb1 & Hb2 & f & i & fp & args & sis & Hl & Hi & Hkind & ->).
  pose proof (Hall k f Hb1 Hl) as Hkey. apply dict_get_is_Some in Hkey as [callees Hd].
  exists callees, (fp_class fp, fp_name fp). split; [done|]. split; [done|].
  destruct (Hget k callees f Hd Hl) as (called & Hc & ->).
  apply list_elem_of_filter. split; [done|].
  unfold get_called_function_names in Hc. by eapply (called_names_from _ _ _ Hc).
Qed.

Lemma resolved_init w :
  all_calls_resolve (storage w) -> resolved w.
Proof.
  intros Hres [cn fn] f Hl. rewrite lookup_function_unfold in Hl.
  destruct (dict_get cn _) as [c|] eqn:Hc; [|discriminate].
  eapply Hres; by apply dict_get_elem.
Qed.

(** X1.  On a well-formed storage the loop of [inline_new_classes] ends:
    each round takes a function out of the remaining call graph or raises,
    so that as many rounds as the graph has functions are enough. *)
Theorem inline_new_classes_terminates w :
  storage_wf (storage w) -> exists r, inline_new_classes w = Some r.
Proof.
  intros Hwf. unfold inline_new_classes.
  destruct (build_callgraph (storage w)) as [g|e] eqn:Hb; [|by eauto].
  eapply loop_total; [by apply loop_inv_init|done].
Qed.

(** C4 (amended).  On a storage in the state [storage_wf]: when the call
    graph of the classes to check has a cycle, [inline_new_classes]
    raises; and when every CALL of the storage is linked to a stored
    function and every function that holds a CALL with [sender_is_self]
    has an argument register, what it raises is the [AssertionError] of
    the cycle, with the message that a cycle was detected in the call
    graph. *)
Theorem cycle_is_rejected w ks :
  storage_wf (storage w) -> is_cycle (storage w) ks ->
  exists w' e, inline_new_classes w = Some (w', Raise e)
    /\ (all_calls_resolve (storage w) -> e = cycle_error).
Proof.
  intros Hwf Hcyc. unfold inline_new_classes.
  destruct (build_callgraph (storage w)) as [g|e] eqn:Hb.
  - destruct (loop_cycle (classes_to_check (storage w)) ks (length g) g w)
      as (w' & e & Hl & He); [by apply loop_inv_init|by eapply cycle_closed|done|].
    exists w', e. split; [done|]. intros Hres. apply He. by apply resolved_init.
  - exists w, e. split; [done|]. intros Hres.
    destruct (build_callgraph_total _ Hwf Hres) as [g Hg]. congruence.
Qed.

(** *** The shape of the inlined body *)

Lemma renamed_value_extends m m' v v' :
  extends m m' -> renamed_value m v v' -> renamed_value m' v v'.
Proof.
  intros Hext. unfold renamed_value. destruct v as [[r| | |]|]; try done.
  intros (x & -> & Hx). eauto.
Qed.

Lemma renamed_extends m m' i i' : extends m m' -> renamed m i i' -> renamed m' i i'.
Proof.
  intros Hext (Hk & Hr & H1 & H2). split; [done|]. split; [|split].
  - unfold renamed_register in *. destruct (register i); [|done].
    destruct Hr as (x & -> & Hx). eauto.
  - by eapply renamed_value_extends.
  - by eapply renamed_value_extends.
Qed.

Lemma extends_trans m1 m2 m3 : extends m1 m2 -> extends m2 m3 -> extends m1 m3.
Proof. unfold extends. eauto. Qed.

Lemma clone_exact r p n :
  clone r (Some p) n
  = (S n, Ok {| label := label r +:+ "#" +:+ p; rid := n |}).
Proof. reflexivity. Qed.

Lemma mapping_inv_weaken p lo hi hi' m :
  hi <= hi' -> mapping_inv p lo hi m -> mapping_inv p lo hi' m.
Proof.
  intros Hh [Hl Hi]. split; [|done]. intros r r' Hr.
  destruct (Hl r r' Hr) as [? ?]. split; [done|lia].
Qed.

Lemma inline_register_inv p lo r m n n' r' m' :
  inline_register (Some p) r m n = (n', Ok (r', m')) ->
  lo <= n -> mapping_inv p lo n m ->
  dict_get r m' = Some r' /\ extends m m' /\ mapping_inv p lo n' m'
  /\ n <= n'.
Proof.
  unfold inline_register. intros H Hlo [Hl Hi].
  destruct (dict_get r m) as [x|] eqn:Hr.
  - apply ret_Ok in H as [-> [= -> ->]]. split; [done|].
    split; [by intros ? ?|]. split; [by split|lia].
  - apply bind_Ok in H as (n1 & x & Hc & H). rewrite clone_exact in Hc.
    injection Hc as <- <-. apply ret_Ok in H as [-> [= -> ->]].
    split; [by rewrite dict_get_set, decide_True|].
    split; [|split; [|lia]].
    + intros a b Hab. rewrite dict_get_set.
      destruct (decide (a = r)) as [->|]; [congruence|done].
    + split.
      * intros a b. rewrite dict_get_set.
        destruct (decide (a = r)) as [->|].
        -- intros [= <-]. split; [done|]. simpl. lia.
        -- intros Hab. destruct (Hl a b Hab) as [? ?]. split; [done|lia].
      * intros a1 a2 b. rewrite !dict_get_set.
        destruct (decide (a1 = r)) as [->|]; destruct (decide (a2 = r)) as [->|];
          try done.
        -- intros [= <-] Hb. destruct (Hl a2 _ Hb) as [_ ?]. simpl in *. lia.
        -- intros Hb [= <-]. destruct (Hl a1 _ Hb) as [_ ?]. simpl in *. lia.
        -- apply Hi.
Qed.

Lemma inline_value_inv p lo v m n n' v' m' :
  inline_value (Some p) v m n = (n', Ok (v', m')) ->
  lo <= n -> mapping_inv p lo n m ->
  renamed_value m' v v' /\ extends m m' /\ mapping_inv p lo n' m' /\ n <= n'.
Proof.
  unfold inline_value. intros H Hlo Hinv.
  destruct v as [[r| | |]|];
    try (apply ret_Ok in H as [-> [= -> ->]]; split; [done|];
         split; [by intros ? ?|]; split; [done|lia]).
  apply bind_Ok in H as (n1 & [x m1] & Hr & H).
  apply ret_Ok in H as [-> [= -> ->]].
  apply (inline_register_inv p lo) in Hr as (Hx & Hext & Hl & Hn); [|done|done].
  split; [|done]. simpl. eauto.
Qed.

Lemma get_inlined_equivalent_inv p lo i m n n' i' m' :
  get_inlined_equivalent i m (Some p) n = (n', Ok (i', m')) ->
  lo <= n -> mapping_inv p lo n m ->
  renamed m' i i' /\ extends m m' /\ mapping_inv p lo n' m' /\ n <= n'.
Proof.
  unfold get_inlined_equivalent. intros H Hlo Hinv.
  apply bind_Ok in H as (n0 & id & Hid & H). rewrite fresh_Ok in Hid.
  injection Hid as <- <-.
  apply bind_Ok in H as (n1 & [reg m1] & Hreg & H).
  apply bind_Ok in H as (n2 & [v1 m2] & Hv1 & H).
  apply bind_Ok in H as (n3 & [v2 m3] & Hv2 & H).
  apply ret_Ok in H as [-> [= -> ->]].
  assert (Hinv0 : mapping_inv p lo (S n) m)
    by (eapply mapping_inv_weaken; [|exact Hinv]; lia).
  assert (Hreg' : renamed_register m1 (register i) reg /\ extends m m1
                  /\ mapping_inv p lo n1 m1 /\ S n <= n1).
  { destruct (register i) as [r|].
    - apply bind_Ok in Hreg as (? & [x mx] & Hr & Hreg).
      apply ret_Ok in Hreg as [-> [= -> ->]].
      apply (inline_register_inv p lo) in Hr as (Hx & Hext & Hl & Hn);
        [|lia|done].
      split; [|done]. simpl. eauto.
    - apply ret_Ok in Hreg as [-> [= -> ->]]. split; [done|].
      split; [by intros ? ?|]. split; [done|lia]. }
  destruct Hreg' as (Hr & Hext1 & Hl1 & Hn1).
  apply (inline_value_inv p lo) in Hv1 as (Hr1 & Hext2 & Hl2 & Hn2);
    [|lia|done].
  apply (inline_value_inv p lo) in Hv2 as (Hr2 & Hext3 & Hl3 & Hn3);
    [|lia|done].
  split; [|split; [|split; [done|lia]]].
  - split; [done|]. simpl. split; [|split; [|done]].
    + unfold renamed_register in *. destruct (register i); [|done].
      destruct Hr as (x & -> & Hx). exists x. split; [done|].
      by apply Hext3, Hext2.
    + by eapply renamed_value_extends.
  - eauto using extends_trans.
Qed.

Lemma inline_instructions_inv p lo instrs : forall m n n' instrs',
  inline_instructions instrs m (Some p) n = (n', Ok instrs') ->
  lo <= n -> mapping_inv p lo n m ->
  exists m', extends m m' /\ mapping_inv p lo n' m'
             /\ Forall2 (renamed m') instrs instrs' /\ n <= n'.
Proof.
  induction instrs as [|i instrs IH]; intros m n n' instrs' H Hlo Hinv;
    simpl in H.
  - apply ret_Ok in H as [-> ->]. exists m. split; [by intros ? ?|].
    split; [done|]. split; [constructor|lia].
  - apply bind_Ok in H as (n1 & [i' m1] & Hi & H).
    apply bind_Ok in H as (n2 & rest & Hrest & H).
    apply ret_Ok in H as [-> ->].
    apply (get_inlined_equivalent_inv p lo) in Hi as (Hren & Hext & Hl & Hn);
      [|done|done].
    destruct (IH _ _ _ _ Hrest) as (m' & Hext' & Hl' & Hall & Hn');
      [lia|done|].
    exists m'. split; [by eapply extends_trans|]. split; [done|].
    split; [|lia]. constructor; [by eapply renamed_extends|done].
Qed.

Lemma clone_all_exact p rs : forall n,
  clone_all rs (Some p) n
  = (n + length rs,
     Ok (imap (fun j r => {| label := label r +:+ "#" +:+ p; rid := n + j |})
           rs)).
Proof.
  induction rs as [|r rs IH]; intros n.
  - simpl. unfold Py.ret. f_equal. lia.
  - cbn [clone_all]. unfold Py.bind at 1. rewrite clone_exact.
    unfold Py.bind at 1. rewrite IH. unfold Py.ret. simpl.
    f_equal; [lia|]. f_equal. f_equal.
    + f_equal. lia.
    + apply imap_ext. intros j x _. simpl. f_equal. lia.
Qed.

Lemma dict_zip_fold_get {K V} `{EqDecision K} (ks : list K) :
  forall (vs : list V) (d : list (K * V)) a x,
    length ks = length vs ->
    dict_get a (fold_left (fun d kv => dict_set (fst kv) (snd kv) d)
                  (zip ks vs) d) = Some x
    <-> (exists j : nat, ks !! j = Some a /\ vs !! j = Some x
                         /\ a ∉ drop (S j) ks)
        \/ ((a ∉ ks) /\ dict_get a d = Some x).
Proof.
  induction ks as [|k ks IH]; intros vs d a x Hlen.
  - simpl. split.
    + intros H. right. split; [apply not_elem_of_nil|done].
    + intros [(j & Hj & _)|[_ H]]; [by rewrite lookup_nil in Hj|done].
  - destruct vs as [|v vs]; [done|]. simpl in Hlen. simpl.
    rewrite IH by lia. rewrite dict_get_set. split.
    + intros [(j & Hj & Hv & Hd)|[Hnot Hd]].
      * left. by exists (S j).
      * destruct (decide (a = k)) as [->|Hne].
        -- injection Hd as <-. left. exists 0. by rewrite drop_0.
        -- right. split; [|done]. by intros [?|?]%elem_of_cons.
    + intros [([|j] & Hj & Hv & Hd)|[Hnot Hd]].
      * simpl in *. injection Hj as ->. injection Hv as ->.
        rewrite drop_0 in Hd. right. split; [done|].
        by rewrite decide_True.
      * left. by exists j.
      * right. apply not_elem_of_cons in Hnot as [Hne Hnot].
        split; [done|]. by rewrite decide_False.
Qed.

Lemma dict_zip_get {K V} `{EqDecision K} (ks : list K) (vs : list V) a x :
  length ks = length vs ->
  dict_get a (dict_zip ks vs) = Some x
  <-> exists j : nat, ks !! j = Some a /\ vs !! j = Some x
                      /\ a ∉ drop (S j) ks.
Proof.
  intros Hlen. unfold dict_zip. rewrite dict_zip_fold_get by done.
  split; [intros [?|[_ ?]]; done|by left].
Qed.

Lemma clone_for_inlining_inv f p lo n n' f' :
  clone_for_inlining f (Some p) n = (n', Ok f') ->
  lo <= n -> cloned_under p lo f f' /\ n <= n'.
Proof.
  unfold clone_for_inlining. intros H Hlo.
  apply bind_Ok in H as (n1 & me' & Hme & H). rewrite clone_exact in Hme.
  injection Hme as <- <-.
  apply bind_Ok in H as (n2 & args' & Hargs & H).
  rewrite clone_all_exact in Hargs. injection Hargs as <- <-.
  apply bind_Ok in H as (n3 & ret' & Hret & H). rewrite clone_exact in Hret.
  injection Hret as <- <-.
  apply bind_Ok in H as (n4 & instrs' & Hinstrs & H).
  apply ret_Ok in H as [-> ->].
  set (me' := {| label := label (me_register f) +:+ "#" +:+ p; rid := n |})
    in *.
  set (args' := imap (fun j r => {| label := label r +:+ "#" +:+ p;
                                    rid := S n + j |})
                  (argument_registers f)) in *.
  set (ret' := {| label := label (return_register f) +:+ "#" +:+ p;
                  rid := S n + length (argument_registers f) |}) in *.
  set (M := dict_set (return_register f) ret'
              (dict_set (me_register f) me'
                 (dict_zip (argument_registers f) args'))) in *.
  assert (Hlen : length (argument_registers f) = length args')
    by (unfold args'; by rewrite length_imap).
  assert (Harg : forall (j : nat) a x,
            argument_registers f !! j = Some a -> args' !! j = Some x ->
            x = {| label := label a +:+ "#" +:+ p; rid := S n + j |}).
  { intros j a x Ha Hx. unfold args' in Hx.
    rewrite list_lookup_imap, Ha in Hx. simpl in Hx. by injection Hx as <-. }
  assert (HM : forall a x, dict_get a M = Some x ->
            postfixed p a x
            /\ ((a = return_register f
                 /\ rid x = S n + length (argument_registers f))
                \/ (a = me_register f /\ rid x = n)
                \/ exists j : nat, argument_registers f !! j = Some a
                                   /\ rid x = S n + j)).
  { intros a x. unfold M. rewrite !dict_get_set.
    destruct (decide (a = return_register f)) as [->|];
      [intros [= <-]; split; [done|by left]|].
    destruct (decide (a = me_register f)) as [->|];
      [intros [= <-]; split; [done|right; by left]|].
    rewrite dict_zip_get by done. intros (j & Hj & Hx & _).
    rewrite (Harg _ _ _ Hj Hx). split; [done|]. right. right. by exists j. }
  assert (Hinv : mapping_inv p lo (S (S n + length (argument_registers f))) M).
  { split.
    - intros a x [Hp [[_ Hr]|[[_ Hr]|(j & Hj & Hr)]]]%HM;
        (split; [done|]); try lia.
      apply lookup_lt_Some in Hj. lia.
    - intros a1 a2 x [_ H1]%HM [_ H2]%HM.
      destruct H1 as [[-> E1]|[[-> E1]|(j1 & Hj1 & E1)]];
        destruct H2 as [[-> E2]|[[-> E2]|(j2 & Hj2 & E2)]];
        try done; try lia;
        try (apply lookup_lt_Some in Hj1; lia);
        try (apply lookup_lt_Some in Hj2; lia).
      assert (j1 = j2) as -> by lia. congruence. }
  assert (Hnd : NoDup (me' :: ret' :: args')).
  { apply (NoDup_fmap_1 rid). rewrite !fmap_cons.
    assert (Hrids : rid <$> args'
                    = (fun j => S n + j) <$> seq 0 (length (argument_registers f))).
    { apply list_eq. intros j. unfold args'.
      rewrite !list_lookup_fmap, list_lookup_imap.
      destruct (argument_registers f !! j) as [a|] eqn:Ha; simpl.
      - apply lookup_lt_Some in Ha. by rewrite lookup_seq_lt.
      - apply lookup_ge_None in Ha. by rewrite lookup_seq_ge. }
    rewrite Hrids. simpl rid.
    assert (Hin : forall x, x ∈ (fun j => S n + j) <$> seq 0 (length (argument_registers f))
                  -> S n <= x < S n + length (argument_registers f)).
    { intros x (j & -> & Hj%elem_of_seq)%list_elem_of_fmap. lia. }
    apply NoDup_cons. split.
    + intros [E|E%Hin]%elem_of_cons; lia.
    + apply NoDup_cons. split; [intros E%Hin; lia|].
      apply NoDup_fmap_2; [intros ? ?; lia|apply NoDup_seq]. }
  apply (inline_instructions_inv p lo) in Hinstrs
    as (mp & Hext & [Hl Hi] & Hall & Hn); [|lia|done].
  split; [|lia]. exists mp. simpl.
  split; [|split; [done|split; [|split; [|split; [|split; [|split]]]]]].
  - split; [|done]. intros a x Hx. destruct (Hl a x Hx) as [? ?].
    split; [done|lia].
  - apply Hext. unfold M. by rewrite dict_get_set, decide_True.
  - split; [done|]. simpl. lia.
  - intros Hne. apply Hext. unfold M. rewrite dict_get_set, decide_False by done.
    by rewrite dict_get_set, decide_True.
  - apply Forall2_same_length_lookup. split; [done|].
    intros j a x Hj Hx. rewrite (Harg _ _ _ Hj Hx). split; [done|]. simpl. lia.
  - intros j a x Hj Hx Hlast Hme Hret. apply Hext. unfold M.
    rewrite !dict_get_set, !decide_False by done.
    apply dict_zip_get; [done|]. by exists j.
  - exact Hnd.
Qed.

Lemma bind_parameters_inv ps : forall args n n' l,
  bind_parameters ps args n = (n', Ok l) ->
  Forall2 binds_parameter (zip ps args) l /\ n <= n'.
Proof.
  induction ps as [|p ps IH]; intros args n n' l H; simpl in H.
  - apply ret_Ok in H as [-> ->]. split; [constructor|lia].
  - destruct args as [|a args].
    + apply ret_Ok in H as [-> ->]. split; [constructor|lia].
    + apply bind_Ok in H as (n1 & id & Hid & H). rewrite fresh_Ok in Hid.
      injection Hid as <- <-.
      apply bind_Ok in H as (n2 & rest & Hrest & H).
      apply ret_Ok in H as [-> ->].
      apply IH in Hrest as [Hrest Hn]. split; [|lia].
      simpl. constructor; [done|done].
Qed.

Lemma inline_call_inv st lo self i instruction fp args sis n n' l :
  kind instruction = CALL (LinkedFunction fp) args sis ->
  inline_call st self i instruction (LinkedFunction fp) args sis n
  = (n', Ok l) ->
  lo <= n ->
  expansion st lo self i instruction l /\ n <= n'.
Proof.
  intros Hk H Hlo. unfold inline_call in H.
  destruct (dict_get (fp_class fp) _) as [c|] eqn:Hc; [|discriminate].
  destruct (dict_get (fp_name fp) _) as [callee|] eqn:Hf; [|discriminate].
  apply bind_Ok in H as (n1 & callee' & Hclone & H).
  apply bind_Ok in H as (n2 & me_binding & Hme & H).
  apply bind_Ok in H as (n3 & params & Hparams & H).
  apply bind_Ok in H as (n4 & id & Hid & H). rewrite fresh_Ok in Hid.
  injection Hid as <- <-.
  apply ret_Ok in H as [-> ->].
  apply (clone_for_inlining_inv _ _ lo) in Hclone as [Hclone Hn1]; [|done].
  apply bind_parameters_inv in Hparams as [Hparams Hn3].
  assert (Hme' : binds_me self sis callee' me_binding /\ n1 <= n2).
  { destruct sis.
    - destruct (argument_registers self) as [|a ?] eqn:Ha; [discriminate|].
      apply bind_Ok in Hme as (? & ? & Hid & Hme). rewrite fresh_Ok in Hid.
      injection Hid as <- <-. apply ret_Ok in Hme as [-> ->].
      split; [|lia]. split; [done|]. split; [done|]. split; [done|].
      exists a. by rewrite Ha.
    - apply bind_Ok in Hme as (? & ? & Hid & Hme). rewrite fresh_Ok in Hid.
      injection Hid as <- <-. apply ret_Ok in Hme as [-> ->].
      split; [done|lia]. }
  destruct Hme' as [Hme' Hn2]. split; [|lia].
  eapply expansion_call; [exact Hk| |exact Hclone|exact Hme'|exact Hparams|done].
  by rewrite lookup_function_unfold, Hc.
Qed.

Lemma inline_from_inv st lo self instrs : forall i n n' l,
  inline_from st self i instrs n = (n', Ok l) ->
  lo <= n ->
  inlined_body st lo self i instrs l /\ n <= n'.
Proof.
  induction instrs as [|instruction instrs IH]; intros i n n' l H Hlo;
    simpl in H.
  - apply ret_Ok in H as [-> ->]. split; [constructor|lia].
  - apply bind_Ok in H as (n1 & here & Hhere & H).
    apply bind_Ok in H as (n2 & rest & Hrest & H).
    apply ret_Ok in H as [-> ->].
    assert (Hh : expansion st lo self i instruction here /\ n <= n1).
    { destruct (kind instruction)
        as [| | | | | | | | | | | | |[fp|q] args sis] eqn:Hk;
        try (apply ret_Ok in Hhere as [-> ->]; split; [|lia];
             apply expansion_keep; by unfold is_call; rewrite Hk).
      - by eapply inline_call_inv.
      - discriminate. }
    destruct Hh as [Hh Hn1].
    apply IH in Hrest as [Hrest Hn2]; [|lia].
    split; [|lia]. by constructor.
Qed.

Lemma inline_inv st lo self n n' f' :
  inline st self n = (n', Ok f') ->
  lo <= n ->
  inlined_body st lo self 0 (instructions self) (instructions f')
  /\ function_name f' = function_name self
  /\ me_register f' = me_register self
  /\ argument_registers f' = argument_registers self
  /\ return_register f' = return_register self
  /\ n <= n'.
Proof.
  unfold inline. intros H Hlo.
  apply bind_Ok in H as (n1 & all_inlined & Hall & H).
  apply ret_Ok in H as [-> ->]. simpl.
  apply (inline_from_inv _ lo) in Hall as [Hall Hn]; done.
Qed.

(** [inline] reads the storage at the functions the CALLs name, and nowhere
    else. *)
Lemma inline_from_agree st st' self instrs : forall i n n' l,
  inline_from st self i instrs n = (n', Ok l) ->
  (forall instruction fp args sis,
     instruction ∈ instrs ->
     kind instruction = CALL (LinkedFunction fp) args sis ->
     lookup_function st' (fp_class fp, fp_name fp)
     = lookup_function st (fp_class fp, fp_name fp)) ->
  inline_from st' self i instrs n = (n', Ok l).
Proof.
  induction instrs as [|instruction instrs IH]; intros i n n' l H Hag;
    simpl in *; [done|].
  apply bind_Ok in H as (n1 & here & Hhere & H).
  apply bind_Ok in H as (n2 & rest & Hrest & H).
  apply ret_Ok in H as [-> ->].
  apply IH in Hrest; [|intros i0 fp args sis Hi0; apply Hag; set_solver].
  assert (Hh : match kind instruction with
               | CALL function call_arguments sender_is_self =>
                   inline_call st' self i instruction function call_arguments
                     sender_is_self
               | _ => Py.ret [instruction]
               end n = (n1, Ok here)).
  { destruct (kind instruction)
      as [| | | | | | | | | | | | |[fp|q] args sis] eqn:Hk; try done.
    pose proof (Hag instruction fp args sis
                  ltac:(apply elem_of_cons; by left) Hk) as Hl.
    rewrite !lookup_function_unfold in Hl.
    unfold inline_call in *.
    destruct (dict_get (fp_class fp) (assembly_classes st)) as [c|] eqn:Hc;
      [|discriminate].
    destruct (dict_get (fp_name fp) (functions c)) as [callee|] eqn:Hf;
      [|discriminate].
    destruct (dict_get (fp_class fp) (assembly_classes st')) as [c'|];
      [|discriminate].
    by rewrite Hl. }
  unfold Py.bind at 1. rewrite Hh. unfold Py.bind at 1. rewrite Hrest. done.
Qed.

Lemma inline_agree st st' self n n' f :
  inline st self n = (n', Ok f) ->
  (forall k, calls_key self k ->
             lookup_function st' k = lookup_function st k) ->
  inline st' self n = (n', Ok f).
Proof.
  unfold inline. intros H Hag.
  apply bind_Ok in H as (n1 & all_inlined & Hall & H).
  apply ret_Ok in H as [-> ->].
  unfold Py.bind. erewrite inline_from_agree; [done|exact Hall|].
  intros instruction fp args sis Hi Hk. apply Hag.
  by exists instruction, fp, args, sis.
Qed.

Lemma inline_function_next_id cn fn w w' :
  inline_function cn fn w = (w', Ok tt) ->
  exists prev f',
    lookup_function (storage w) (cn, fn) = Some prev /\
    inline (storage w) prev (next_id w) = (next_id w', Ok f') /\
    forall k', lookup_function (storage w') k'
               = if decide (k' = (cn, fn)) then Some f'
                 else lookup_function (storage w) k'.
Proof.
  intros H.
  destruct (inline_function_Ok _ _ _ _ H) as (prev & f' & n' & Hp & Hi & _ & Hl).
  exists prev, f'. split; [done|]. split; [|done].
  rewrite Hi. f_equal.
  unfold inline_function in H.
  apply bind_Ok in H as (w1 & w0 & Hget & H). injection Hget as <- <-.
  rewrite lookup_function_unfold in Hp.
  destruct (dict_get cn (assembly_classes (storage w))) as [c|]; [|discriminate].
  simpl in Hp. rewrite Hp in H.
  apply bind_Ok in H as (w2 & f2 & Hin & H).
  unfold zoom in Hin. rewrite Hi in Hin. injection Hin as <- <-.
  unfold modify in H. by injection H as <-.
Qed.

Lemma history_init w g :
  storage_wf (storage w) -> build_callgraph (storage w) = Ok g ->
  History (classes_to_check (storage w)) w w g.
Proof.
  intros Hwf Hb.
  destruct (build_callgraph_spec _ _ Hwf Hb) as (Hnd & Hk & Hall & Hget).
  split; [done|done| |].
  - intros k callees f k' Hd Hf (i & fp & args & sis & Hi & Hkind & ->).
    destruct (decide (fp_class fp ∈ classes_to_check (storage w)))
      as [Hcls|Hcls].
    + left. destruct (Hget k callees f Hd Hf) as (called & Hc & ->).
      apply list_elem_of_filter. split; [done|].
      unfold get_called_function_names in Hc.
      by eapply (called_names_from _ _ _ Hc).
    + right. intros Hin. by apply Hk in Hin as [? _].
  - intros k f Hcls Hf. left. by eapply Hall.
Qed.

Lemma history_step batch w0 w g cn fn w' :
  LoopInv batch w g -> History batch w0 w g ->
  find_leaf g = Some (cn, fn) ->
  inline_function cn fn w = (w', Ok tt) ->
  History batch w0 w' (remove_node (cn, fn) g).
Proof.
  intros Hinv Hhist Hleaf Hin.
  destruct (inline_function_next_id _ _ _ _ Hin) as (prev & f' & Hprev & Hinl & Hl).
  pose proof (inv_nodup _ _ _ Hinv) as Hnd.
  pose proof (find_leaf_Some _ _ Hleaf) as Hmem.
  pose proof (elem_dict_get _ _ _ Hnd Hmem) as Hd.
  assert (Hkey : (cn, fn) ∈ dict_keys g).
  { apply list_elem_of_fmap. by exists (cn, fn, []). }
  assert (Horig : lookup_function (storage w0) (cn, fn) = Some prev)
    by (by rewrite <- (hist_orig _ _ _ _ Hhist)).
  assert (Hout : forall k', calls_key prev k' -> k' ∉ dict_keys g).
  { intros k' Hc.
    destruct (hist_edges _ _ _ _ Hhist _ _ _ k' Hd Horig Hc) as [Hnil|?];
      [by apply elem_of_nil in Hnil|done]. }
  assert (Hkeep : forall k', k' ∉ dict_keys g ->
            lookup_function (storage w') k' = lookup_function (storage w) k').
  { intros k' Hk'. rewrite Hl, decide_False; [done|]. by intros ->. }
  split.
  - intros k [Hne Hk]%remove_node_keys; [|done].
    rewrite Hl, decide_False by done. by apply (hist_orig _ _ _ _ Hhist).
  - pose proof (hist_next _ _ _ _ Hhist).
    apply (inline_inv _ 0) in Hinl as (_ & _ & _ & _ & _ & ?); lia.
  - intros k callees f k'. rewrite remove_node_get by done.
    destruct (decide (k = (cn, fn))) as [->|Hne]; [done|].
    destruct (dict_get k g) as [callees0|] eqn:Hd0; [|done]. intros [= <-] Hf Hc.
    destruct (decide (k' = (cn, fn))) as [->|Hne'].
    + right. intros [? _]%remove_node_keys; done.
    + destruct (hist_edges _ _ _ _ Hhist _ _ _ k' Hd0 Hf Hc) as [Hin'|Hnot].
      * left. by apply prune_elem.
      * right. intros [_ ?]%remove_node_keys; done.
  - intros k f Hcls. rewrite Hl. destruct (decide (k = (cn, fn))) as [->|Hne].
    + intros [= <-]. right. exists prev, (next_id w), (next_id w').
      split; [done|]. split; [apply (hist_next _ _ _ _ Hhist)|].
      split.
      * eapply inline_agree; [exact Hinl|]. intros k' Hc. by apply Hkeep, Hout.
      * intros k' Hc [_ ?]%remove_node_keys; [|done]. by apply (Hout k').
    + intros Hf.
      destruct (hist_done _ _ _ _ Hhist k f Hcls Hf)
        as [Hk|(f0 & n & n' & Hf0 & Hn & Hi0 & Ho)].
      * left. by apply remove_node_keys.
      * right. exists f0, n, n'. split; [done|]. split; [done|]. split.
        -- eapply inline_agree; [exact Hi0|]. intros k' Hc. by apply Hkeep, Ho.
        -- intros k' Hc [_ ?]%remove_node_keys; [|done]. by apply (Ho k').
Qed.

Lemma loop_history batch w0 fuel : forall g w w',
  LoopInv batch w g -> History batch w0 w g ->
  inline_loop fuel g w = Some (w', Ok tt) ->
  History batch w0 w' [].
Proof.
  induction fuel as [|fuel IH]; intros g w w' Hinv Hhist H;
    (destruct g as [|e g]; cbn [inline_loop] in H; [by injection H as <-|]).
  - destruct (find_leaf (e :: g)) as [[cn fn]|]; [|discriminate].
    by destruct (inline_function cn fn w) as [w1 [[]|?]].
  - destruct (find_leaf (e :: g)) as [[cn fn]|] eqn:Hleaf; [|discriminate].
    destruct (inline_function cn fn w) as [w1 [[]|?]] eqn:Hin; [|discriminate].
    eapply IH; [| |exact H]; [by eapply loop_inv_step|by eapply history_step].
Qed.

(** C3.  On a storage in the state [storage_wf], which the rounds of the
    pipeline keep ([storage_wf_init], [storage_wf_add_class],
    [storage_wf_after_inlining]): after [inline_new_classes] returned, a
    function [f] of a class that was to be checked holds no CALL.  It has
    the name and the registers of the function [f0] it was before, and its
    body is that of [f0] with every CALL of [f0], at position [i], replaced
    by: the instruction that binds the [me] of the callee (a MOV, or a PK
    under [sender_is_self]), the MOVs that bind its parameters, the body
    that the callee has in the storage after the inlining, which holds no
    CALL, with its registers cloned under the postfix [inlined#i], and the
    MOV of the return register of the callee into the destination of the
    CALL.  The clones are registers made during the inlining, one for each
    register of the callee, and the parameters bound are the clones of the
    parameters of the callee.  In all, [f] is what [inline] returns on
    [f0] against the storage after the inlining. *)
Theorem inlining_removes_calls (w w' : World) :
  storage_wf (storage w) ->
  inline_new_classes w = Some (w', Ok tt) ->
  forall k f,
    fst k ∈ classes_to_check (storage w) ->
    lookup_function (storage w') k = Some f ->
    call_free f /\
    exists f0,
      lookup_function (storage w) k = Some f0
      /\ inlined_body (storage w') (next_id w) f0 0
           (instructions f0) (instructions f)
      /\ already_inlined (storage w') f0
      /\ function_name f = function_name f0
      /\ me_register f = me_register f0
      /\ argument_registers f = argument_registers f0
      /\ return_register f = return_register f0
      /\ exists n n',
           next_id w <= n /\ inline (storage w') f0 n = (n', Ok f).
Proof.
  intros Hwf H k f Hk Hf. unfold inline_new_classes in H.
  destruct (build_callgraph (storage w)) as [g|e] eqn:Hb; [|discriminate].
  pose proof (loop_inv_init _ _ Hwf Hb) as Hinv.
  pose proof (history_init _ _ Hwf Hb) as Hhist.
  pose proof (loop_success _ _ _ _ _ Hinv H) as Hfin.
  pose proof (loop_history _ _ _ _ _ _ Hinv Hhist H) as Hhfin.
  assert (Hfree : forall k0 f0, lookup_function (storage w') k0 = Some f0 ->
                                call_free f0).
  { intros k0 f0 Hf0.
    destruct (decide (fst k0 ∈ classes_to_check (storage w))) as [Hin|Hnin].
    - destruct (inv_done _ _ _ Hfin k0 f0 Hin Hf0) as [Hg|?]; [|done].
      by apply elem_of_nil in Hg.
    - by apply (inv_old _ _ _ Hfin k0 f0). }
  split; [by eapply Hfree|].
  destruct (hist_done _ _ _ _ Hhfin k f Hk Hf)
    as [Hin|(f0 & n & n' & Hf0 & Hn & Hi & _)]; [by apply elem_of_nil in Hin|].
  exists f0. split; [done|].
  destruct (inline_inv _ (next_id w) _ _ _ _ Hi Hn)
    as (Hbody & Hname & Hme & Hargs & Hret & _).
  split; [done|]. split.
  { intros i fp args sis callee _ _ Hc. by eapply Hfree. }
  split; [done|]. split; [done|]. split; [done|]. split; [done|].
  by exists n, n'.
Qed.

(** *** The state of the storage from round to round *)

(** [storage_wf] holds of a new storage, [add_class] keeps it for a class
    whose functions are stored under their names, and so does a round of
    inlining that returned, followed by [reset_new_classes]. *)

Lemma keyed_by_set {V} (name_of : V -> string) k v (d : list (string * V)) :
  keyed_by name_of d -> name_of v = k -> keyed_by name_of (dict_set k v d).
Proof.
  intros [Hnd Hk] Hv. split; [by apply dict_set_NoDup|].
  intros k' v' [[= -> ->]|Hin]%dict_set_elem; [done|by apply Hk].
Qed.

Lemma storage_wf_init : storage_wf AssemblyStorage_init.
Proof.
  split; [|split; [|split]]; simpl.
  - split; [constructor|]. intros k v H. by apply elem_of_nil in H.
  - intros k c H. by apply elem_of_nil in H.
  - intros k H. by apply elem_of_nil in H.
  - intros k c fk f H. by apply elem_of_nil in H.
Qed.

Lemma add_class_raise_unchanged c st st' e :
  add_class c st = (st', Raise e) -> st' = st.
Proof.
  unfold add_class, Py.bind, Py.get, Py.raise_if, Py.raise, Py.put, Py.ret.
  case_bool_decide; simpl; [by intros [= <- _]|].
  destruct (dict_get "owner" (fields c)) as [owner|]; [|by intros [= <- _]].
  destruct (negb (is_address _)); simpl; [by intros [= <- _]|].
  destruct (negb (bool_decide _)); simpl; [by intros [= <- _]|].
  discriminate.
Qed.

Lemma storage_wf_add_class c st st' r :
  storage_wf st -> keyed_by function_name (functions c) ->
  add_class c st = (st', r) -> storage_wf st'.
Proof.
  intros Hwf Hc H. destruct r as [[]|e];
    [|by apply add_class_raise_unchanged in H as ->].
  destruct Hwf as (Hcls & Hfuns & Hbatch & Hold).
  revert H.
  unfold add_class, Py.bind, Py.get, Py.raise_if, Py.raise, Py.put, Py.ret.
  case_bool_decide as Hnew; simpl; [discriminate|].
  destruct (dict_get "owner" (fields c)) as [owner|]; [|discriminate].
  destruct (negb (is_address _)); simpl; [discriminate|].
  destruct (negb (bool_decide _)); simpl; [discriminate|].
  intros [= <-]. split; [|split; [|split]]; simpl.
  - by apply keyed_by_set.
  - intros k c' [[= -> ->]|Hin]%dict_set_elem; [done|by eapply Hfuns].
  - intros k Hk. rewrite dict_get_set.
    destruct (decide (k = qualified_name c)); [by eexists|].
    apply Hbatch. set_solver.
  - intros k c' fk f [[= -> ->]|Hin]%dict_set_elem Hk Hf.
    + exfalso. apply Hk. set_solver.
    + eapply Hold; [exact Hin| |exact Hf]. set_solver.
Qed.

Lemma inline_function_name st self n n' f' :
  inline st self n = (n', Ok f') -> function_name f' = function_name self.
Proof.
  unfold inline. intros H.
  apply bind_Ok in H as (n1 & all_inlined & Hall & H).
  by apply ret_Ok in H as [_ ->].
Qed.

Lemma inline_function_keyed cn fn w w' :
  storage_keyed (storage w) ->
  inline_function cn fn w = (w', Ok tt) ->
  storage_keyed (storage w').
Proof.
  intros [Hcls Hfuns] H. unfold inline_function in H.
  apply bind_Ok in H as (w1 & w0 & Hget & H). injection Hget as <- <-.
  destruct (dict_get cn (assembly_classes (storage w))) as [c|] eqn:Hc;
    [|discriminate].
  destruct (dict_get fn (functions c)) as [prev|] eqn:Hf; [|discriminate].
  apply bind_Ok in H as (w2 & f' & Hin & H).
  unfold zoom in Hin.
  destruct (inline (storage w) prev (next_id w)) as [n' r] eqn:Hinl.
  injection Hin as <- ->.
  unfold modify in H. injection H as <-. simpl.
  apply dict_get_elem in Hc, Hf.
  pose proof (Hfuns _ _ Hc) as Hfc.
  assert (Hc' : keyed_by function_name (dict_set fn f' (functions c))).
  { apply keyed_by_set; [done|].
    rewrite (inline_function_name _ _ _ _ _ Hinl). by apply Hfc. }
  split; simpl.
  - apply keyed_by_set; [done|]. simpl. by apply Hcls.
  - intros k c' [[= -> ->]|Hin]%dict_set_elem; [done|by eapply Hfuns].
Qed.

Lemma loop_keyed fuel : forall g w w',
  storage_keyed (storage w) ->
  inline_loop fuel g w = Some (w', Ok tt) ->
  storage_keyed (storage w').
Proof.
  induction fuel as [|fuel IH]; intros g w w' Hk H;
    (destruct g as [|e g]; cbn [inline_loop] in H; [by injection H as <-|]).
  - destruct (find_leaf (e :: g)) as [[cn fn]|]; [|discriminate].
    by destruct (inline_function cn fn w) as [w1 [[]|?]].
  - destruct (find_leaf (e :: g)) as [[cn fn]|] eqn:Hleaf; [|discriminate].
    destruct (inline_function cn fn w) as [w1 [[]|?]] eqn:Hin; [|discriminate].
    eapply IH; [|exact H]. by eapply inline_function_keyed.
Qed.

(** A round of inlining that returned, followed by [reset_new_classes],
    leaves the storage in the state the next round starts from. *)
Theorem storage_wf_after_inlining w w' :
  storage_wf (storage w) ->
  inline_new_classes w = Some (w', Ok tt) ->
  storage_wf (reset_new_classes (storage w')).
Proof.
  intros Hwf H. unfold inline_new_classes in H.
  destruct (build_callgraph (storage w)) as [g|e] eqn:Hb; [|discriminate].
  pose proof (loop_success _ _ _ _ _ (loop_inv_init _ _ Hwf Hb) H) as Hfin.
  assert (Hk : storage_keyed (storage w')).
  { eapply loop_keyed; [|exact H]. destruct Hwf as (? & ? & _). by split. }
  destruct Hk as [Hcls Hfuns].
  split; [done|]. split; [done|]. split.
  - intros k Hin. by apply elem_of_nil in Hin.
  - intros k c fk f Hc _ Hf. simpl in Hc.
    assert (Hl : lookup_function (storage w') (k, fk) = Some f).
    { rewrite lookup_function_unfold.
      rewrite (elem_dict_get _ _ _ (proj1 Hcls) Hc).
      apply elem_dict_get; [|done]. by apply (Hfuns _ _ Hc). }
    destruct (decide (k ∈ classes_to_check (storage w))) as [Hin|Hnin].
    + destruct (inv_done _ _ _ Hfin (k, fk) f Hin Hl) as [Hg|?]; [|done].
      by apply elem_of_nil in Hg.
    + by apply (inv_old _ _ _ Hfin (k, fk) f).
Qed.

End Inlining.

Section InliningRuns.
Import Asm AsmExamples.
Local Close Scope Z_scope.

Ltac elem_cases H :=
  repeat (apply elem_of_cons in H as [H|H]); [..|by apply elem_of_nil in H].

Ltac storage_wf_by_cases :=
  split; [|split; [|split]];
  [ split;
    [ vm_compute; repeat constructor; set_solver
    | let H := fresh in intros ? ? H; vm_compute in H;
      elem_cases H; by injection H as -> -> ]
  | let H := fresh in intros ? ? H; vm_compute in H;
    elem_cases H; injection H as -> ->;
      (split;
       [ vm_compute; repeat constructor; set_solver
       | let Hf := fresh in intros ? ? Hf; vm_compute in Hf;
         elem_cases Hf; by injection Hf as -> -> ])
  | let H := fresh in intros ? H; vm_compute in H;
    elem_cases H; subst; by vm_compute; eauto
  | let H := fresh in let Hk := fresh in
    intros ? ? ? ? H Hk; exfalso; apply Hk; vm_compute in H;
    elem_cases H; injection H as -> ->; vm_compute; set_solver ].

Lemma ex_storage_wf : storage_wf ex_storage.
Proof. storage_wf_by_cases. Qed.

Lemma ex_cyclic_storage_wf : storage_wf ex_cyclic_storage.
Proof. storage_wf_by_cases. Qed.

Lemma ex_world_inlines :
  inline_new_classes ex_world = Some (ex_world_inlined, Ok tt).
Proof. vm_compute. reflexivity. Qed.

(** [A.f] calls [B.g] and [B.g] calls [A.f]. *)
Lemma ex_cyclic_is_cycle :
  is_cycle ex_cyclic_storage [("A", "f"); ("B", "g")].
Proof.
  split.
  - split; [vm_compute; set_solver|]. split; [vm_compute; set_solver|].
    eexists ex_f, _, _, _, _. split; [vm_compute; reflexivity|].
    split; [apply elem_of_cons; left; reflexivity|].
    split; reflexivity.
  - split; [vm_compute; set_solver|]. split; [vm_compute; set_solver|].
    eexists ex_g_calling_f, _, _, _, _. split; [vm_compute; reflexivity|].
    split; [apply elem_of_cons; left; reflexivity|].
    split; reflexivity.
Qed.

(** C4, the counterexample: on the two classes of the cycle the inlining
    raises [AssertionError], and no [RecursionError]. *)
Lemma cycle_raises_AssertionError :
  is_cycle ex_cyclic_storage [("A", "f"); ("B", "g")]
  /\ inline_new_classes ex_cyclic
     = Some (ex_cyclic,
             Raise (AssertionError
                      "detected cycle in call graph, cannot inline"))
  /\ ~ raises_RecursionError (inline_new_classes ex_cyclic).
Proof.
  assert (H : inline_new_classes ex_cyclic
              = Some (ex_cyclic,
                      Raise (AssertionError
                               "detected cycle in call graph, cannot inline")))
    by (vm_compute; reflexivity).
  split; [exact ex_cyclic_is_cycle|]. split; [exact H|].
  rewrite H. intros (w & msg & Hr). discriminate.
Qed.

Lemma cycle_is_rejected_witness :
  exists w' e,
    inline_new_classes ex_cyclic = Some (w', Raise e)
    /\ (all_calls_resolve (storage ex_cyclic) -> e = cycle_error).
Proof.
  apply (cycle_is_rejected ex_cyclic [("A", "f"); ("B", "g")]).
  - exact ex_cyclic_storage_wf.
  - exact ex_cyclic_is_cycle.
Defined.

Lemma inlining_removes_calls_witness :
  call_free ex_f_inlined /\
  exists f0,
    lookup_function (storage ex_world) ("A", "f") = Some f0
    /\ inlined_body (storage ex_world_inlined) (next_id ex_world) f0 0
         (instructions f0) (instructions ex_f_inlined)
    /\ already_inlined (storage ex_world_inlined) f0
    /\ function_name ex_f_inlined = function_name f0
    /\ me_register ex_f_inlined = me_register f0
    /\ argument_registers ex_f_inlined = argument_registers f0
    /\ return_register ex_f_inlined = return_register f0
    /\ exists n n',
         next_id ex_world <= n
         /\ inline (storage ex_world_inlined) f0 n = (n', Ok ex_f_inlined).
Proof.
  apply (inlining_removes_calls ex_world ex_world_inlined ex_storage_wf
           ex_world_inlines ("A", "f") ex_f_inlined).
  - vm_compute. set_solver.
  - vm_compute. reflexivity.
Defined.

End InliningRuns.
(* ===================================================================== *)
(** * Part III: more properties of the code                               *)
(* ===================================================================== *)

(** ** utils/general.py *)

Section GeneralFacts.
Import General.

Lemma get_duplicates_from_elem `{EqDecision T} (x : T) (it : list T) :
  forall unique,
    x ∈ get_duplicates_from unique it <->
    exists l1 l2, it = l1 ++ x :: l2 /\ (x ∈ unique \/ x ∈ l1).
Proof.
  induction it as [|y it IH]; intros unique; simpl.
  - split; [by intros ?%elem_of_nil|]. intros (l1 & l2 & H & _). by destruct l1.
  - case_bool_decide as Hy.
    + rewrite elem_of_cons, IH. split.
      * intros [->|(l1 & l2 & -> & Hx)].
        -- exists [], it. by split; [|left].
        -- exists (y :: l1), l2. split; [done|]. set_solver.
      * intros (l1 & l2 & H & Hx). destruct l1 as [|z l1]; simpl in H.
        -- injection H as -> ->. by left.
        -- injection H as -> ->. destruct (decide (x = z)) as [->|Hne]; [by left|].
           right. exists l1, l2. split; [done|]. set_solver.
    + rewrite IH. split.
      * intros (l1 & l2 & -> & Hx). exists (y :: l1), l2. split; [done|]. set_solver.
      * intros (l1 & l2 & H & Hx). destruct l1 as [|z l1]; simpl in H.
        -- injection H as -> ->. set_solver.
        -- injection H as -> ->. exists l1, l2. split; [done|]. set_solver.
Qed.

(** X3.  An element is in the list that [get_duplicates] returns exactly
    when it occurs in the argument after an earlier occurrence of it. *)
Theorem get_duplicates_elem `{EqDecision T} (x : T) (it : list T) :
  x ∈ get_duplicates it <-> exists l1 l2, it = l1 ++ x :: l2 /\ x ∈ l1.
Proof.
  unfold get_duplicates. rewrite get_duplicates_from_elem.
  split; intros (l1 & l2 & H & Hx); exists l1, l2; set_solver.
Qed.

Lemma string_length_app (s1 s2 : string) :
  String.length (s1 +:+ s2) = (String.length s1 + String.length s2)%nat.
Proof. induction s1; simpl; [done|]. by rewrite IHs1. Qed.

(** X4.  [to_hex_str] of a number that is not negative has an even number
    of digits and, read as a hexadecimal number, gives the number back. *)
Theorem to_hex_str_round_trip (x : Z) :
  0 <= x ->
  Nat.even (String.length (to_hex_str x)) = true
  /\ Z.of_N (HexString.Raw.to_N (to_hex_str x) 0) = x.
Proof.
  intros Hx. unfold to_hex_str.
  assert (Hs : Z.of_N (HexString.Raw.to_N
                         (string_drop 2 (HexString.of_Z x)) 0) = x).
  { destruct x as [|p|p]; [done| |lia]. simpl.
    rewrite HexString.Raw.to_N_of_pos. done. }
  destruct (Nat.even (String.length (string_drop 2 (HexString.of_Z x))))
    eqn:He.
  - split; [exact He|exact Hs].
  - split; [|exact Hs]. rewrite string_length_app.
    change (String.length "0") with 1%nat.
    rewrite Nat.add_1_l, Nat.even_succ, <- Nat.negb_even, He. done.
Qed.

End GeneralFacts.

(** ** The fields of a class and the compiled class *)

Section FieldLocations.
Import Asm Compiler Fields.

Lemma insert_sorted_perm kv l : insert_sorted kv l ≡ₚ kv :: l.
Proof.
  induction l as [|kv' l IH]; simpl; [done|].
  destruct (String.leb _ _); [done|]. rewrite IH. apply Permutation_swap.
Qed.

(** [order_dictionary_by_keys] returns the items of the dict, in another
    order. *)
Lemma order_dictionary_by_keys_perm d : order_dictionary_by_keys d ≡ₚ d.
Proof.
  unfold order_dictionary_by_keys. induction d as [|kv d IH]; simpl; [done|].
  by rewrite insert_sorted_perm, IH.
Qed.

Lemma dict_del_perm {K V} `{EqDecision K} (k : K) (v : V) d :
  dict_get k d = Some v -> (k, v) :: dict_del k d ≡ₚ d.
Proof.
  induction d as [|[k' v'] d IH]; simpl; [done|].
  destruct (decide (k = k')) as [->|Hne]; [by intros [= ->]|].
  intros H. rewrite Permutation_swap. by rewrite IH.
Qed.

Lemma location_order_perm d : location_order d ≡ₚ d.
Proof.
  unfold location_order.
  destruct (dict_get _ _) as [f|] eqn:Hf.
  - rewrite (dict_del_perm _ _ _ Hf). apply order_dictionary_by_keys_perm.
  - apply order_dictionary_by_keys_perm.
Qed.

Lemma field_locations_unfold d :
  field_locations d
  = imap (fun location kv => (fst kv, Z.of_nat location)) (location_order d).
Proof. done. Qed.

Lemma dict_get_lookup {K V} `{EqDecision K} (k : K) (v : V) d :
  dict_get k d = Some v -> exists i : nat, d !! i = Some (k, v).
Proof. intros H%dict_get_elem. by apply list_elem_of_lookup. Qed.

Lemma field_locations_get d k v :
  dict_get k (field_locations d) = Some v ->
  exists (i : nat) f,
    v = Z.of_nat i /\ location_order d !! i = Some (k, f).
Proof.
  rewrite field_locations_unfold. intros [i Hi]%dict_get_lookup.
  rewrite list_lookup_imap in Hi.
  destruct (location_order d !! i) as [[k' f]|] eqn:Hl; [|done].
  injection Hi as <- <-. by exists i, f.
Qed.

Lemma field_locations_keys d :
  dict_keys (field_locations d) = dict_keys (location_order d).
Proof.
  rewrite field_locations_unfold. unfold dict_keys.
  apply list_eq. intros i. rewrite !list_lookup_fmap, list_lookup_imap.
  by destruct (location_order d !! i).
Qed.

(** [set_field_locations] numbers the fields from 0, [owner] first. *)
Lemma field_locations_numbering d :
  NoDup (dict_keys d) ->
  (forall k, k ∈ dict_keys d ->
     exists i : nat,
       dict_get k (field_locations d) = Some (Z.of_nat i)
       /\ (i < length d)%nat)
  /\ (forall k1 k2 v,
        dict_get k1 (field_locations d) = Some v ->
        dict_get k2 (field_locations d) = Some v -> k1 = k2)
  /\ ("owner" ∈ dict_keys d ->
      dict_get "owner" (field_locations d) = Some 0).
Proof.
  intros Hnd. split; [|split].
  - intros k Hk.
    assert (Hin : k ∈ dict_keys (field_locations d)).
    { rewrite field_locations_keys. unfold dict_keys.
      by rewrite (location_order_perm d). }
    apply dict_get_is_Some in Hin as [v Hv].
    destruct (field_locations_get _ _ _ Hv) as (i & f & -> & Hi).
    exists i. split; [done|]. apply lookup_lt_Some in Hi.
    by rewrite (location_order_perm d) in Hi.
  - intros k1 k2 v H1 H2.
    destruct (field_locations_get _ _ _ H1) as (i & f & -> & Hi).
    destruct (field_locations_get _ _ _ H2) as (j & g & Hij & Hj).
    apply Nat2Z.inj in Hij as <-. congruence.
  - intros Ho. rewrite field_locations_unfold. unfold location_order.
    destruct (dict_get "owner" (order_dictionary_by_keys d)) as [f|] eqn:Hf.
    + reflexivity.
    + exfalso. apply dict_get_None in Hf. apply Hf. unfold dict_keys.
      by rewrite (order_dictionary_by_keys_perm d).
Qed.

Lemma set_field_locations_elem c k f :
  (k, f) ∈ fields (set_field_locations c) ->
  exists f0, (k, f0) ∈ fields c
    /\ field_name f = field_name f0 /\ field_type f = field_type f0
    /\ field_location f = dict_get k (field_locations (fields c)).
Proof.
  unfold set_field_locations. simpl.
  intros ([k0 f0] & [= -> ->] & Hin)%list_elem_of_fmap. simpl. by exists f0.
Qed.

Lemma set_field_locations_keys c :
  dict_keys (fields (set_field_locations c)) = dict_keys (fields c).
Proof.
  unfold set_field_locations, dict_keys. simpl.
  rewrite <- list_fmap_compose. by apply list_fmap_ext.
Qed.

Lemma add_field_Ok fld c c' :
  add_field fld c = Ok c' ->
  (field_name fld ∉ dict_keys (fields c))
  /\ c' = set_field_locations
            {| qualified_name := qualified_name c;
               has_address := has_address c;
               fields := dict_set (field_name fld) fld (fields c);
               functions := functions c;
               class_id := class_id c |}.
Proof.
  unfold add_field. case_bool_decide; [discriminate|]. by intros [= <-].
Qed.

Lemma add_field_numbering fld c c' :
  NoDup (dict_keys (fields c)) ->
  add_field fld c = Ok c' ->
  dict_keys (fields c') = dict_keys (fields c) ++ [field_name fld]
  /\ (forall k f, (k, f) ∈ fields c' ->
        exists i : nat,
          field_location f = Some (Z.of_nat i)
          /\ (i < length (fields c'))%nat)
  /\ (forall k1 f1 k2 f2,
        (k1, f1) ∈ fields c' -> (k2, f2) ∈ fields c' ->
        field_location f1 = field_location f2 -> k1 = k2)
  /\ (forall f, ("owner", f) ∈ fields c' -> field_location f = Some 0).
Proof.
  intros Hnd [Hnew ->]%add_field_Ok.
  set (d' := dict_set (field_name fld) fld (fields c)).
  assert (Hk : dict_keys d' = dict_keys (fields c) ++ [field_name fld]).
  { unfold d'. rewrite dict_set_keys. by rewrite bool_decide_eq_false_2. }
  assert (Hnd' : NoDup (dict_keys d')) by by apply dict_set_NoDup.
  destruct (field_locations_numbering d' Hnd') as (Hrange & Hinj & Hown).
  assert (Hlen : length (fields (set_field_locations
            {| qualified_name := qualified_name c;
               has_address := has_address c; fields := d';
               functions := functions c; class_id := class_id c |}))
          = length d').
  { unfold set_field_locations. simpl. by rewrite length_fmap. }
  split; [by rewrite set_field_locations_keys|]. split; [|split].
  - intros k f (f0 & Hin & _ & _ & Hloc)%set_field_locations_elem.
    simpl in *. destruct (Hrange k) as (i & Hi & Hlt).
    { apply list_elem_of_fmap. by exists (k, f0). }
    exists i. rewrite Hloc, Hi, Hlen. done.
  - intros k1 f1 k2 f2 (g1 & Hin1 & _ & _ & Hl1)%set_field_locations_elem
      (g2 & Hin2 & _ & _ & Hl2)%set_field_locations_elem Heq.
    simpl in *. destruct (Hrange k1) as (i & Hi & _).
    { apply list_elem_of_fmap. by exists (k1, g1). }
    apply (Hinj k1 k2 (Z.of_nat i)); [done|]. congruence.
  - intros f (f0 & Hin & _ & _ & Hloc)%set_field_locations_elem.
    simpl in *. rewrite Hloc. apply Hown.
    apply list_elem_of_fmap. by exists ("owner", f0).
Qed.

(** X5.  After [add_field], the fields of the class are numbered: each has
    a location from 0 to their number less one, no two have the same, and
    [owner], when it is a field, has location 0. *)
Theorem add_field_numbers_fields fld c c' :
  NoDup (dict_keys (fields c)) ->
  add_field fld c = Ok c' ->
  dict_keys (fields c') = dict_keys (fields c) ++ [field_name fld]
  /\ (forall k f, (k, f) ∈ fields c' ->
        exists i : nat,
          field_location f = Some (Z.of_nat i)
          /\ (i < length (fields c'))%nat)
  /\ (forall k1 f1 k2 f2,
        (k1, f1) ∈ fields c' -> (k2, f2) ∈ fields c' ->
        field_location f1 = field_location f2 -> k1 = k2)
  /\ (forall f, ("owner", f) ∈ fields c' -> field_location f = Some 0).
Proof. apply add_field_numbering. Qed.

Lemma add_field_elem fld c c' k f :
  add_field fld c = Ok c' -> (k, f) ∈ fields c' ->
  (exists f0, (k, f0) ∈ fields c
     /\ field_name f = field_name f0 /\ field_type f = field_type f0)
  \/ (k = field_name fld /\ field_type f = field_type fld
      /\ field_name f = field_name fld).
Proof.
  intros [Hnew ->]%add_field_Ok
    (f0 & Hin & Hn & Ht & _)%set_field_locations_elem.
  simpl in Hin. apply dict_set_elem in Hin as [[= -> ->]|Hin].
  - by right.
  - left. by exists f0.
Qed.

Lemma add_field_rest fld c c' :
  add_field fld c = Ok c' ->
  qualified_name c' = qualified_name c /\ has_address c' = has_address c
  /\ functions c' = functions c /\ class_id c' = class_id c.
Proof. by intros [_ ->]%add_field_Ok. Qed.

Lemma compile_fields_spec flds : forall c0 c,
  NoDup (dict_keys (fields c0)) ->
  compile_fields flds c0 = Ok c ->
  dict_keys (fields c) = dict_keys (fields c0) ++ (fst <$> flds)
  /\ NoDup (dict_keys (fields c))
  /\ (forall k f, (k, f) ∈ fields c ->
        (exists f0, (k, f0) ∈ fields c0
           /\ field_name f = field_name f0 /\ field_type f = field_type f0)
        \/ ((k, field_type f) ∈ flds /\ field_name f = k))
  /\ qualified_name c = qualified_name c0
  /\ functions c = functions c0
  /\ (flds <> [] -> fields_numbered c).
Proof.
  induction flds as [|fld flds IH]; intros c0 c Hnd H; simpl in H.
  - injection H as <-. rewrite app_nil_r. split; [done|]. split; [done|].
    split; [|done]. intros k f Hin. left. by exists f.
  - unfold rbind in H.
    destruct (add_field (zapper_field_to_assembly_field fld) c0)
      as [c1|e] eqn:H1; [|discriminate].
    destruct (add_field_numbering _ _ _ Hnd H1) as (Hk1 & Hnum).
    destruct (add_field_rest _ _ _ H1) as (Hq1 & _ & Hf1 & _).
    assert (Hnd1 : NoDup (dict_keys (fields c1))).
    { rewrite Hk1. apply add_field_Ok in H1 as [Hnew _].
      apply NoDup_app. split; [done|]. split; [|apply NoDup_singleton].
      intros x Hx ->%list_elem_of_singleton. done. }
    destruct (IH c1 c Hnd1 H) as (Hk & Hndc & He & Hq & Hf & Hn).
    split; [|split; [done|split; [|split; [congruence|split; [congruence|]]]]].
    + rewrite Hk, Hk1. simpl. by rewrite <- app_assoc.
    + intros k f Hin. destruct (He k f Hin) as [(f1 & Hin1 & Hn1 & Ht1)|[Hin1 Hn1]].
      * destruct (add_field_elem _ _ _ _ _ H1 Hin1)
          as [(f0 & Hin0 & Hn0 & Ht0)|(-> & Ht0 & Hn0)].
        -- left. exists f0. split; [done|]. split; congruence.
        -- right. simpl in *. split; [|congruence].
           rewrite Ht1, Ht0. destruct fld as [n t]; simpl.
           apply elem_of_cons. by left.
      * right. split; [set_solver|done].
    + intros _. destruct flds as [|fld' flds]; [|by apply Hn].
      simpl in H. injection H as <-. exact Hnum.
Qed.

Lemma add_function_rest function c c' :
  Compiler.add_function function c = Ok c' ->
  qualified_name c' = qualified_name c /\ fields c' = fields c
  /\ (function_name function ∉ dict_keys (functions c))
  /\ exists function',
       function_name function' = function_name function
       /\ functions c'
          = dict_set (function_name function) function' (functions c).
Proof.
  unfold Compiler.add_function. case_bool_decide; [discriminate|].
  case_bool_decide; [discriminate|]. intros [= <-]. simpl.
  split; [done|]. split; [done|]. split; [done|].
  eexists. split; [|reflexivity]. reflexivity.
Qed.

Lemma compile_functions_spec fs : forall compiled st st' c,
  keyed_by function_name (functions compiled) ->
  compile_functions fs compiled st = (st', Ok c) ->
  qualified_name c = qualified_name compiled
  /\ fields c = fields compiled
  /\ keyed_by function_name (functions c).
Proof.
  induction fs as [|function fs IH]; intros compiled st st' c Hk H; simpl in H.
  - apply ret_Ok in H as [_ ->]. done.
  - apply bind_Ok in H as (s1 & af & Haf & H).
    apply bind_Ok in H as (s2 & compiled' & Hadd & H).
    apply of_result_Ok in Hadd as [-> Hadd].
    apply add_function_rest in Hadd as (Hq & Hf & Hnew & f' & Hn & Hfs).
    apply IH in H as (Hq' & Hf' & Hk'); [|].
    + split; [congruence|]. split; [congruence|done].
    + rewrite Hfs. by apply keyed_by_set.
Qed.

(** X6.  A class that [compile_contract] returned, for a contract with the
    field [owner] of type [Address], is accepted by [add_class] on every
    well-formed storage that holds no class of its name, and the storage
    stays well-formed. *)
Theorem compiled_class_is_accepted contract st st' c storage :
  compile_contract contract st = (st', Ok c) ->
  ("owner", Address) ∈ zapper_fields contract ->
  storage_wf storage ->
  qualified_name c ∉ dict_keys (assembly_classes storage) ->
  exists storage',
    add_class c storage = (storage', Ok tt) /\ storage_wf storage'.
Proof.
  intros H Hown Hwf Hnew. unfold compile_contract in H.
  apply bind_Ok in H as (s1 & compiled & Hf & H).
  apply of_result_Ok in Hf as [-> Hf].
  apply compile_fields_spec in Hf as (Hk & Hnd & He & Hq & Hfn & Hnum);
    [|constructor].
  simpl in *.
  apply compile_functions_spec in H as (Hq' & Hf' & Hkeyed);
    [|rewrite Hfn; split; [constructor|by intros ? ? ?%elem_of_nil]].
  assert (Hin : "owner" ∈ dict_keys (fields c)).
  { rewrite Hf', Hk. apply list_elem_of_fmap. by exists ("owner", Address). }
  apply dict_get_is_Some in Hin as [owner Ho].
  pose proof (dict_get_elem _ _ _ Ho) as Hoin. rewrite Hf' in Hoin.
  assert (Hty : field_type owner = Address).
  { destruct (He _ _ Hoin) as [(f0 & Hin0 & _)|[Hin _]];
      [by apply elem_of_nil in Hin0|].
    assert (Hndf : NoDup (fst <$> zapper_fields contract)) by by rewrite <- Hk.
    by eapply (NoDup_fmap_inj_on fst (zapper_fields contract)
                 ("owner", field_type owner) ("owner", Address)) in Hndf;
      [injection Hndf| | |]. }
  assert (Hloc : field_location owner = Some 0).
  { destruct Hnum as (_ & _ & Hn0); [|by apply Hn0].
    intros Hnil. rewrite Hnil in Hown. by apply elem_of_nil in Hown. }
  destruct (add_class c storage) as [storage' r] eqn:Hadd.
  assert (Hr : r = Ok tt).
  { revert Hadd.
    unfold add_class, Py.bind, Py.get, Py.raise_if, Py.raise, Py.put, Py.ret.
    rewrite bool_decide_eq_false_2 by done. simpl. rewrite Ho.
    unfold is_address. rewrite Hty.
    rewrite bool_decide_eq_true_2 by done. simpl.
    rewrite Hloc. rewrite bool_decide_eq_true_2 by done. simpl.
    by intros [= _ <-]. }
  subst r. exists storage'. split; [done|].
  eapply storage_wf_add_class; [exact Hwf|exact Hkeyed|exact Hadd].
Qed.

End FieldLocations.

(** ** The checks of a function and its inlining *)

Section FunctionChecks.
Import Asm Functions.
Local Close Scope Z_scope.

Lemma keeps_types_set r t (ty : Types) :
  ty r = None -> keeps_types ty (set_type r t ty).
Proof.
  intros Hr r' t' H. unfold set_type.
  destruct (decide (r' = r)) as [->|]; [congruence|done].
Qed.

Lemma write_infer_and_check_types_spec i ty ty' r :
  write_infer_and_check_types false i ty = (ty', r) ->
  keeps_types ty ty'
  /\ (r = Ok tt -> exists d t, register i = Some d /\ ty' d = Some t).
Proof.
  unfold write_infer_and_check_types.
  cbv beta iota zeta delta [Py.bind Py.get Py.raise Py.raise_if Py.ret
    Py.of_result Py.modify].
  destruct (check_argument_types ty i) as [[]|e];
    [|intros [= <- <-]; split; [by intros ? ?|discriminate]].
  destruct (infer_written_type ty i) as [[w|]|e]; simpl;
    try (intros [= <- <-]; split; [by intros ? ?|discriminate]).
  destruct (register i) as [d|];
    [|intros [= <- <-]; split; [by intros ? ?|discriminate]].
  case_bool_decide as Hd; simpl.
  - intros [= <- <-]. split; [by apply keeps_types_set|].
    intros _. exists d, w. split; [done|]. unfold set_type.
    by rewrite decide_True.
  - destruct (ty d) as [t|] eqn:Ht; [|done].
    unfold check_assembly_supertype, check_assembly_type. simpl.
    case_bool_decide; intros [= <- <-]; (split; [by intros ? ?|]);
      [discriminate|]. intros _. by exists d, t.
Qed.

Lemma infer_and_check_types_spec i ty ty' r :
  infer_and_check_types false i ty = (ty', r) ->
  keeps_types ty ty' /\ (r = Ok tt -> destination_typed ty' i).
Proof.
  unfold infer_and_check_types, destination_typed, is_write.
  destruct (kind i) eqn:Hk;
    try (intros H; apply write_infer_and_check_types_spec in H as [H1 H2];
         split; [done|]; intros Hr _; by apply H2).
  all: cbv beta iota zeta delta [Py.bind Py.get Py.raise Py.raise_if Py.ret
    Py.of_result Py.modify]; intros H; split;
    [|intros _ ?; discriminate].
  all: repeat match type of H with
       | context [match ?x with _ => _ end] => destruct x
       end; injection H as <- _; by intros ? ?.
Qed.

Lemma for_each_infer_spec instrs : forall ty ty' r,
  for_each instrs (infer_and_check_types false) ty = (ty', r) ->
  keeps_types ty ty'
  /\ (r = Ok tt -> Forall (destination_typed ty') instrs).
Proof.
  induction instrs as [|i instrs IH]; intros ty ty' r H; simpl in H.
  - injection H as <- <-. split; [by intros ? ?|]. by constructor.
  - unfold Py.bind at 1 in H.
    destruct (infer_and_check_types false i ty) as [ty1 [[]|e]] eqn:Hi.
    + apply infer_and_check_types_spec in Hi as [Hk1 Hd1].
      apply IH in H as [Hk Hd]. split.
      * intros rg t Hrg. by apply Hk, Hk1.
      * intros Hr. constructor; [|by apply Hd].
        intros Hw. destruct (Hd1 eq_refl Hw) as (d & t & Hreg & Ht).
        exists d, t. split; [done|]. by apply Hk.
    + injection H as <- <-. apply infer_and_check_types_spec in Hi as [Hk1 _].
      split; [exact Hk1|discriminate].
Qed.

(** X7.  Type checking a function without [allow_type_change] never changes
    or removes the type a register has; and when it returns, the
    destination of every write instruction of the function has a type and
    the return register has the type it had. *)
Theorem function_type_check_keeps_types f ty ty' r :
  AssemblyFunction_infer_and_check_types false f ty = (ty', r) ->
  keeps_types ty ty'
  /\ (r = Ok tt ->
      Forall (destination_typed ty') (instructions f)
      /\ ty' (return_register f) = ty (return_register f)).
Proof.
  unfold AssemblyFunction_infer_and_check_types.
  unfold Py.bind at 1, Py.get at 1. unfold Py.bind at 1.
  destruct (for_each _ _ ty) as [ty1 [[]|e]] eqn:Hf.
  - apply for_each_infer_spec in Hf as [Hk Hd].
    unfold Py.bind, Py.get, Py.raise_if, Py.raise, Py.ret.
    case_bool_decide as Hret; intros [= <- <-]; (split; [done|]);
      [discriminate|]. intros _. split; [by apply Hd|].
    exact Hret.
  - intros [= <- <-]. apply for_each_infer_spec in Hf as [Hk _].
    split; [exact Hk|discriminate].
Qed.

Lemma written_fields_spec sr instrs : forall acc written,
  written_fields sr instrs acc = Ok written ->
  forall name, name ∈ written ->
    name ∈ acc \/ exists i, i ∈ instrs /\ stores_field sr name i.
Proof.
  induction instrs as [|i instrs IH]; intros acc written H name Hn; simpl in H.
  - injection H as <-. by left.
  - unfold is_store in H. destruct (kind i) eqn:Hk;
      try (destruct (IH _ _ H name Hn) as [?|(i' & Hi' & Hs)];
           [by left|right; exists i'; split; [set_solver|done]]).
    case_bool_decide as Hv.
    + destruct (value_2 i) as [[| |[[fld|q] t]|]|] eqn:Hv2; try discriminate.
      destruct (IH _ _ H name Hn) as [Hacc|(i' & Hi' & Hs)].
      * apply elem_of_cons in Hacc as [->|Hacc]; [|by left].
        right. exists i. split; [set_solver|].
        split; [done|]. split; [done|]. by exists fld, t.
      * right. exists i'. split; [set_solver|done].
    + destruct (IH _ _ H name Hn) as [?|(i' & Hi' & Hs)];
        [by left|right; exists i'; split; [set_solver|done]].
Qed.

Lemma all_fields_written_spec names written :
  all_fields_written names written = Ok tt ->
  forall name, name ∈ names -> name ∈ written.
Proof.
  induction names as [|n names IH]; simpl; intros H name Hn;
    [by apply elem_of_nil in Hn|].
  case_bool_decide; [|discriminate].
  apply elem_of_cons in Hn as [->|Hn]; [done|by apply IH].
Qed.

Lemma check_no_later_new_spec later :
  check_no_later_new later = Ok tt -> Forall (fun i => is_new i = false) later.
Proof.
  induction later as [|i later IH]; simpl; [by constructor|].
  destruct (is_new i) eqn:Hn; [discriminate|]. intros H. constructor; auto.
Qed.

(** X8.  A function that passes [check_constructor] has no NEW after its
    first instruction; and when its first instruction is a NEW, every
    field of its class is stored into, through the register the NEW
    writes, by an instruction of the function. *)
Theorem checked_constructor_initializes c f first rest :
  check_constructor (Some c) f = Ok tt ->
  instructions f = first :: rest ->
  Forall (fun i => is_new i = false) rest
  /\ (is_new first = true ->
      forall name, name ∈ dict_keys (fields c) ->
        exists i, i ∈ instructions f
                  /\ stores_field (register first) name i).
Proof.
  unfold check_constructor, rbind. intros H Hi. rewrite Hi in H.
  rewrite skipn_cons, drop_0 in H.
  destruct (check_no_later_new rest) as [[]|e] eqn:Hl; [|discriminate].
  split; [by apply check_no_later_new_spec|].
  intros Hnew name Hname. rewrite Hnew in H.
  unfold _check_all_fields_initialized_for, rbind in H.
  destruct (written_fields _ _ _) as [written|e] eqn:Hw; [|discriminate].
  pose proof (all_fields_written_spec _ _ H name Hname) as Hin.
  destruct (written_fields_spec _ _ _ _ Hw name Hin) as [Hacc|Hs];
    [by apply elem_of_nil in Hacc|].
  by rewrite Hi.
Qed.

(** X9.  [check_register_labels] returns or raises
    [AssemblySecurityException]; it returns exactly when no register of the
    function has the label "." and no two distinct registers of the
    function have the same label. *)
Theorem check_register_labels_exact f :
  (check_register_labels f = Ok tt
   \/ exists m, check_register_labels f = Raise (AssemblySecurityException m))
  /\ (check_register_labels f = Ok tt <->
      ("." ∉ label <$> AssemblyFunction_get_registers f)
      /\ forall r1 r2,
           r1 ∈ AssemblyFunction_get_registers f ->
           r2 ∈ AssemblyFunction_get_registers f ->
           label r1 = label r2 -> r1 = r2).
Proof.
  unfold check_register_labels. rewrite length_filter_const.
  destruct (decide ("." ∈ label <$> AssemblyFunction_get_registers f))
    as [Hdot|Hdot].
  - destruct (label <$> AssemblyFunction_get_registers f) eqn:E;
      [by apply elem_of_nil in Hdot|].
    simpl. split; [right; by eexists|]. split; [discriminate|tauto].
  - simpl.
    destruct (General.get_duplicates
                (label <$> AssemblyFunction_get_registers f)) as [|d ds] eqn:E.
    + simpl. split; [by left|]. split; [|done]. intros _. split; [done|].
      apply get_duplicates_nil in E. intros r1 r2 H1 H2.
      by apply (NoDup_fmap_inj_on label (AssemblyFunction_get_registers f)).
    + simpl. split; [right; by eexists|]. split; [discriminate|].
      intros [_ Hinj]. exfalso.
      assert (Hnd : NoDup (label <$> AssemblyFunction_get_registers f)).
      { apply NoDup_fmap_2_strong; [|apply NoDup_remove_dups].
        intros x y Hx Hy. by apply Hinj. }
      apply get_duplicates_nil in Hnd. by rewrite Hnd in E.
Qed.

Lemma inline_from_call_free st self instrs : forall i n,
  Forall (fun i => is_call i = false) instrs ->
  inline_from st self i instrs n = (n, Ok instrs).
Proof.
  induction instrs as [|instruction instrs IH]; intros i n Hall; simpl;
    [done|].
  apply Forall_cons in Hall as [Hi Hall]. unfold is_call in Hi.
  unfold Py.bind at 1.
  destruct (kind instruction); try discriminate;
    (unfold Py.ret at 1; unfold Py.bind; rewrite IH by done; done).
Qed.

(** X10.  Inlining a function that holds no CALL returns the function as it
    is, but for its runtime type checks, which start empty again; no
    object is created and the storage is not read. *)
Theorem inline_without_calls st f n :
  call_free f ->
  inline st f n = (n, Ok (without_runtime_checks f)).
Proof.
  intros Hfree. unfold inline, Py.bind.
  by rewrite inline_from_call_free.
Qed.

Lemma called_names_from_spec instrs : forall acc called,
  get_called_function_names_from instrs acc = Ok called ->
  calls_linked instrs
  /\ (NoDup acc -> NoDup called)
  /\ forall k, k ∈ called <->
       k ∈ acc \/ exists i, i ∈ instrs /\ calls_function k i.
Proof.
  induction instrs as [|i instrs IH]; intros acc called H; simpl in H.
  - injection H as <-. split; [constructor|]. split; [done|].
    intros k. split; [by left|]. intros [?|(i & Hi & _)]; [done|].
    by apply elem_of_nil in Hi.
  - destruct (kind i) as [| | | | | | | | | | | | |[fp|q] args sis] eqn:Hk;
      try (apply IH in H as (Hl & Hnd & Hiff);
           split; [constructor; [by intros q args sis; rewrite Hk|done]|];
           split; [done|]; intros k; rewrite Hiff; split;
           [intros [?|(i' & Hi' & Hc)]; [by left|right; exists i'; split; [set_solver|done]]
           |intros [?|(i' & [->|Hi']%elem_of_cons & Hc)];
              [by left
              |destruct Hc as (fp & args & sis & Hc & _); congruence
              |right; by exists i']]).
    + apply IH in H as (Hl & Hnd & Hiff).
      split; [constructor; [by intros q' args' sis'; rewrite Hk|done]|].
      split.
      * intros Hacc. apply Hnd. case_bool_decide; [done|].
        apply NoDup_app. split; [done|]. split; [|apply NoDup_singleton].
        intros x Hx ->%list_elem_of_singleton. done.
      * intros k. rewrite Hiff. split.
        -- intros [Hin|(i' & Hi' & Hc)].
           ++ case_bool_decide as Hm; [by left|].
              apply elem_of_app in Hin as [?| ->%list_elem_of_singleton];
                [by left|].
              right. exists i. split; [set_solver|]. by exists fp, args, sis.
           ++ right. exists i'. split; [set_solver|done].
        -- intros [Hin|(i' & [->|Hi']%elem_of_cons & Hc)].
           ++ left. case_bool_decide; set_solver.
           ++ destruct Hc as (fp' & args' & sis' & Hc & ->).
              rewrite Hk in Hc. injection Hc as <- _ _.
              left. case_bool_decide; set_solver.
           ++ right. by exists i'.
    + discriminate.
Qed.

(** X11.  [get_called_function_names] returns exactly when every CALL of
    the function is linked; the names it returns are those of the
    functions the CALLs name, each once. *)
Theorem called_function_names_spec f :
  (calls_linked (instructions f) <->
   exists called, get_called_function_names f = Ok called)
  /\ forall called, get_called_function_names f = Ok called ->
       NoDup called
       /\ forall k, k ∈ called <->
            exists i, i ∈ instructions f /\ calls_function k i.
Proof.
  unfold get_called_function_names. split.
  - split; [apply called_names_total|].
    intros [called H]. by apply called_names_from_spec in H as [? _].
  - intros called H. apply called_names_from_spec in H as (_ & Hnd & Hiff).
    split; [apply Hnd; constructor|]. intros k. rewrite Hiff.
    split; [intros [Hin|?]; [by apply elem_of_nil in Hin|done]|by right].
Qed.

Lemma inline_call_Ok st self i instruction function args sis n n' l :
  inline_call st self i instruction function args sis n = (n', Ok l) ->
  exists fp, function = LinkedFunction fp
    /\ is_Some (lookup_function st (fp_class fp, fp_name fp))
    /\ (sis = true -> argument_registers self <> []).
Proof.
  unfold inline_call. destruct function as [fp|q]; [|discriminate].
  intros H. exists fp. split; [done|]. rewrite lookup_function_unfold.
  destruct (dict_get (fp_class fp) _) as [c|]; [|discriminate].
  destruct (dict_get (fp_name fp) _) as [callee|]; [|discriminate].
  split; [by eexists|]. intros ->.
  apply bind_Ok in H as (n1 & callee' & _ & H).
  destruct (argument_registers self); [|done].
  apply bind_Ok in H as (n2 & b & Hb & _). discriminate.
Qed.

Lemma inline_from_Ok st self instrs : forall i n n' l,
  inline_from st self i instrs n = (n', Ok l) ->
  Forall (call_resolves st self) instrs.
Proof.
  induction instrs as [|instruction instrs IH]; intros i n n' l H;
    [constructor|]. simpl in H.
  apply bind_Ok in H as (n1 & here & Hhere & H).
  apply bind_Ok in H as (n2 & rest & Hrest & _).
  constructor; [|by eapply IH]. unfold call_resolves.
  destruct (kind instruction) as [| | | | | | | | | | | | |function args sis];
    try done.
  apply inline_call_Ok in Hhere as (fp & -> & Hl & Ha). done.
Qed.

(** X12.  [inline] returns exactly when every CALL of the function is linked
    to a function that the storage holds under the names of its class and
    of itself and, for a CALL with [sender_is_self], the function has an
    argument register; otherwise it raises. *)
Theorem inline_returns_iff st self n :
  (exists n' f', inline st self n = (n', Ok f'))
  <-> Forall (call_resolves st self) (instructions self).
Proof.
  split; [|apply inline_total].
  intros (n' & f' & H). unfold inline in H.
  apply bind_Ok in H as (n1 & all_inlined & Hall & _).
  by eapply inline_from_Ok.
Qed.

End FunctionChecks.

(** ** The storage: class ids, and when the inlining fails *)

Section StorageFacts.
Import Asm Functions Storage.
Local Close Scope Z_scope.

Lemma class_ids_wf_init : class_ids_wf AssemblyStorage_init.
Proof.
  split; [constructor|]. split.
  - intros k c H. by apply elem_of_nil in H.
  - intros k1 c1 k2 c2 H. by apply elem_of_nil in H.
Qed.

Lemma get_class_for_id_from_found (d : list (string * AssemblyClass)) k c id :
  (forall k1 c1 k2 c2, (k1, c1) ∈ d -> (k2, c2) ∈ d ->
     class_id c1 = class_id c2 -> k1 = k2) ->
  NoDup (dict_keys d) ->
  (k, c) ∈ d -> class_id c = Some id ->
  get_class_for_id_from (dict_values d) id = Ok c.
Proof.
  intros Hinj Hnd Hin Hid.
  induction d as [|[k0 c0] d IH]; [by apply elem_of_nil in Hin|]. simpl.
  case_bool_decide as Hc0.
  - assert (k0 = k) as ->.
    { apply (Hinj k0 c0 k c); [set_solver|done|congruence]. }
    apply elem_of_cons in Hin as [[= ->]|Hin]; [done|].
    simpl in Hnd. apply NoDup_cons in Hnd as [Hk _]. exfalso. apply Hk.
    apply list_elem_of_fmap. by exists (k, c).
  - apply elem_of_cons in Hin as [[= -> ->]|Hin]; [congruence|].
    simpl in Hnd. apply NoDup_cons in Hnd as [_ Hnd].
    apply IH; [|done|done]. intros k1 c1 k2 c2 H1 H2. apply Hinj; set_solver.
Qed.

(** X13.  In a storage whose class ids are in order, a class stored under
    the name [k] has an id, [get_class_for_id] of that id returns the
    class, and [class_to_id] has the id under [k]. *)
Theorem stored_class_found_by_id st k c :
  class_ids_wf st ->
  dict_get k (assembly_classes st) = Some c ->
  exists id, class_id c = Some id
    /\ get_class_for_id st id = Ok c
    /\ dict_get k (class_to_id st) = Some id.
Proof.
  intros (Hnd & Hids & Hinj) Hc. apply dict_get_elem in Hc.
  destruct (Hids k c Hc) as (id & Hid & _ & Hto).
  exists id. split; [done|]. split; [|done].
  by eapply get_class_for_id_from_found.
Qed.

(** X14.  [add_class] that returns keeps the class ids in order; the class
    is then stored under its name with the id that was next, which
    [class_to_id] records; and adding a class of the same name again
    raises and changes nothing. *)
Theorem add_class_registers c st st' :
  class_ids_wf st ->
  add_class c st = (st', Ok tt) ->
  class_ids_wf st'
  /\ dict_get (qualified_name c) (assembly_classes st')
     = Some (set_class_id (_next_class_id st) c)
  /\ dict_get (qualified_name c) (class_to_id st') = Some (_next_class_id st)
  /\ _next_class_id st' = S (_next_class_id st)
  /\ classes_to_check st' = classes_to_check st ++ [qualified_name c]
  /\ forall c2, qualified_name c2 = qualified_name c ->
       exists m,
         add_class c2 st' = (st', Raise (AssemblySecurityException m)).
Proof.
  intros (Hnd & Hids & Hinj) H. revert H.
  unfold add_class, Py.bind, Py.get, Py.raise_if, Py.raise, Py.put, Py.ret.
  case_bool_decide as Hnew; simpl; [discriminate|].
  destruct (dict_get "owner" (fields c)) as [owner|]; [|discriminate].
  destruct (negb (is_address _)); simpl; [discriminate|].
  destruct (negb (bool_decide _)); simpl; [discriminate|].
  intros [= <-]. simpl.
  split; [|split; [|split; [|split; [done|split; [done|]]]]].
  - split; [by apply dict_set_NoDup|]. split; simpl.
    + intros k c' [[= -> ->]|Hin]%dict_set_elem.
      * exists (_next_class_id st). split; [done|]. split; [lia|].
        rewrite dict_get_set. by rewrite decide_True.
      * destruct (Hids k c' Hin) as (id & Hid & Hlt & Hto).
        exists id. split; [done|]. split; [lia|].
        rewrite dict_get_set. rewrite decide_False; [done|].
        intros ->. apply Hnew. apply list_elem_of_fmap. by exists (qualified_name c, c').
    + intros k1 c1 k2 c2 [[= -> ->]|H1]%dict_set_elem
        [[= -> ->]|H2]%dict_set_elem Heq; [done| | |by eapply Hinj].
      * destruct (Hids k2 c2 H2) as (id & Hid & Hlt & _).
        simpl in Heq. rewrite Hid in Heq. injection Heq as Heq. lia.
      * destruct (Hids k1 c1 H1) as (id & Hid & Hlt & _).
        simpl in Heq. rewrite Hid in Heq. injection Heq as Heq. lia.
  - rewrite dict_get_set. by rewrite decide_True.
  - rewrite dict_get_set. by rewrite decide_True.
  - intros c2 Hq. rewrite Hq. rewrite bool_decide_eq_true_2; [by eexists|].
    rewrite dict_set_keys. case_bool_decide; set_solver.
Qed.

Lemma chain_app_l {K} (R : K -> K -> Prop) (l1 l2 : list K) :
  chain R (l1 ++ l2) -> chain R l1.
Proof.
  induction l1 as [|a l1 IH]; [done|]. simpl.
  destruct l1 as [|b l1]; [done|]. simpl. intros [? ?]. split; [done|].
  by apply IH.
Qed.

Lemma chain_app_r {K} (R : K -> K -> Prop) (l1 l2 : list K) :
  chain R (l1 ++ l2) -> chain R l2.
Proof.
  induction l1 as [|a l1 IH]; [done|]. simpl.
  destruct (l1 ++ l2) as [|b l] eqn:Heq.
  - destruct l1; [|done]. simpl in Heq. by subst.
  - intros [_ H]. by apply IH.
Qed.

Lemma chain_path st ks back :
  ks <> [] -> chain (calls st) (ks ++ [back]) -> path st ks back.
Proof.
  induction ks as [|k ks IH]; [done|]. intros _.
  destruct ks as [|k' ks]; simpl; [tauto|].
  intros [Hc H]. split; [done|]. by apply IH.
Qed.

Lemma chain_impl {K} (R R' : K -> K -> Prop) (l : list K) :
  (forall a b, R a b -> R' a b) -> chain R l -> chain R' l.
Proof.
  intros Himp. induction l as [|a l IH]; [done|]. simpl.
  destruct l as [|b l]; [done|]. intros [? ?]. split; [by apply Himp|by apply IH].
Qed.

Lemma not_NoDup_split {K} `{EqDecision K} (l : list K) :
  ~ NoDup l -> exists l1 x l2 l3, l = l1 ++ x :: l2 ++ x :: l3.
Proof.
  induction l as [|a l IH]; intros Hn; [destruct Hn; constructor|].
  destruct (decide (a ∈ l)) as [Hin|Hnin].
  - apply list_elem_of_split in Hin as (l2 & l3 & ->). by exists [], a, l2, l3.
  - destruct IH as (l1 & x & l2 & l3 & ->).
    + intros Hnd. apply Hn. by constructor.
    + by exists (a :: l1), x, l2, l3.
Qed.

(** A walk of any length starts at every node that has a successor. *)
Lemma walk_exists {K} (R : K -> K -> Prop) (dom : list K) :
  (forall k, k ∈ dom -> exists k', k' ∈ dom /\ R k k') ->
  forall n k, k ∈ dom ->
    exists l, length l = n /\ chain R (k :: l) /\ forall x, x ∈ l -> x ∈ dom.
Proof.
  intros Hsucc. induction n as [|n IH]; intros k Hk.
  - exists []. split; [done|]. split; [done|]. by intros x Hx%elem_of_nil.
  - destruct (Hsucc k Hk) as (k' & Hk' & HR).
    destruct (IH k' Hk') as (l & Hlen & Hch & Hdom).
    exists (k' :: l). split; [by simpl; rewrite Hlen|]. split; [done|].
    intros x [->|Hx]%elem_of_cons; [done|by apply Hdom].
Qed.

(** Where every node has a successor, some walk returns to its start. *)
Lemma cycle_of_successors {K} `{EqDecision K} (R : K -> K -> Prop)
    (dom : list K) :
  dom <> [] ->
  (forall k, k ∈ dom -> exists k', k' ∈ dom /\ R k k') ->
  exists k0 ks, chain R ((k0 :: ks) ++ [k0]).
Proof.
  intros Hne Hsucc. destruct dom as [|k dom]; [done|].
  destruct (walk_exists R (k :: dom) Hsucc (length (k :: dom)) k)
    as (l & Hlen & Hch & Hdom); [set_solver|].
  destruct (not_NoDup_split (k :: l)) as (l1 & x & l2 & l3 & Heq).
  - intros Hnd.
    assert (Hsub : k :: l ⊆+ k :: dom).
    { apply NoDup_submseteq; [done|].
      intros y [->|Hy]%elem_of_cons; [set_solver|by apply Hdom]. }
    apply submseteq_length in Hsub. simpl in Hsub, Hlen. lia.
  - exists x, l2. rewrite Heq in Hch. apply chain_app_r in Hch.
    replace (x :: l2 ++ x :: l3) with (((x :: l2) ++ [x]) ++ l3) in Hch
      by (by simpl; rewrite <- app_assoc).
    by apply chain_app_l in Hch.
Qed.

Lemma list_remove_NoDup `{EqDecision A} (x : A) l :
  NoDup l -> NoDup (list_remove x l) /\ (x ∉ list_remove x l)
             /\ forall y, y ∈ list_remove x l -> y ∈ l.
Proof.
  induction l as [|a l IH]; simpl; [by intros; split; [|split; [apply not_elem_of_nil|]]|].
  intros [Ha Hnd]%NoDup_cons. destruct (decide (x = a)) as [->|Hne].
  - split; [done|]. split; [done|]. intros y Hy. set_solver.
  - destruct (IH Hnd) as (Hnd' & Hx & Hsub). split; [|split].
    + apply NoDup_cons. split; [|done]. intros Hin. by apply Ha, Hsub.
    + intros [?|?]%elem_of_cons; [done|by apply Hx].
    + intros y [->|Hy]%elem_of_cons; [set_solver|]. apply elem_of_cons. right. by apply Hsub.
Qed.

Lemma prune_NoDup k callees :
  NoDup callees ->
  NoDup (prune k callees) /\ (k ∉ prune k callees)
  /\ forall y, y ∈ prune k callees -> y ∈ callees.
Proof.
  intros Hnd. unfold prune. case_bool_decide as Hin.
  - by apply list_remove_NoDup.
  - done.
Qed.

Lemma remove_node_sub k g :
  NoDup (dict_keys g) -> graph_closed g -> sub_graph g (remove_node k g).
Proof.
  intros Hnd Hcl k1 k2 (callees & Hd & Hin). rewrite remove_node_get in Hd by done.
  destruct (decide (k1 = k)); [done|].
  destruct (dict_get k1 g) as [callees0|] eqn:Hd0; [|done]. injection Hd as <-.
  exists callees0. split; [done|].
  destruct (Hcl _ _ Hd0) as [Hnd0 _]. by apply (prune_NoDup k callees0 Hnd0).
Qed.

Lemma remove_node_closed k g :
  NoDup (dict_keys g) -> graph_closed g -> graph_closed (remove_node k g).
Proof.
  intros Hnd Hcl k1 callees Hd. rewrite remove_node_get in Hd by done.
  destruct (decide (k1 = k)); [done|].
  destruct (dict_get k1 g) as [callees0|] eqn:Hd0; [|done]. injection Hd as <-.
  destruct (Hcl _ _ Hd0) as [Hnd0 Hkeys].
  destruct (prune_NoDup k callees0 Hnd0) as (Hnd' & Hk & Hsub).
  split; [done|]. intros k' Hk'. apply remove_node_keys; [done|].
  split; [by intros ->|]. by apply Hkeys, Hsub.
Qed.

(** When the loop raises although every CALL resolves, it stands before a
    graph without a leaf. *)
Lemma loop_raise batch fuel : forall g w w' e,
  LoopInv batch w g -> resolved w -> graph_closed g ->
  inline_loop fuel g w = Some (w', Raise e) ->
  e = cycle_error /\
  exists g', sub_graph g g' /\ g' <> [] /\ find_leaf g' = None
             /\ graph_closed g'.
Proof.
  assert (Hstep : forall g w cn fn w1 err,
             LoopInv batch w g -> resolved w -> find_leaf g = Some (cn, fn) ->
             inline_function cn fn w = (w1, Raise err) -> False).
  { intros g w cn fn w1 err Hinv Hres Hleaf Hin.
    destruct (inv_keys _ _ _ Hinv (cn, fn)) as [prev Hprev].
    { apply find_leaf_Some in Hleaf. apply list_elem_of_fmap. by exists (cn, fn, []). }
    destruct (inline_function_total cn fn w prev Hprev (Hres _ _ Hprev)) as [w2 Hok].
    rewrite Hok in Hin. discriminate. }
  induction fuel as [|fuel IH]; intros g w w' e Hinv Hres Hcl H;
    (destruct g as [|entry g]; cbn [inline_loop] in H; [discriminate|]).
  - destruct (find_leaf (entry :: g)) as [[cn fn]|] eqn:Hleaf.
    + destruct (inline_function cn fn w) as [w1 [[]|err]] eqn:Hin; [discriminate|].
      exfalso. by eapply Hstep.
    + injection H as <- <-. split; [done|]. exists (entry :: g).
      split; [by intros ? ?|]. done.
  - destruct (find_leaf (entry :: g)) as [[cn fn]|] eqn:Hleaf.
    + destruct (inline_function cn fn w) as [w1 [[]|err]] eqn:Hin.
      * pose proof (inv_nodup _ _ _ Hinv) as Hnd.
        destruct (IH _ _ _ _ (loop_inv_step _ _ _ _ _ _ Hinv Hleaf Hin)
                    (resolved_step _ _ _ _ _ _ Hinv Hleaf Hin Hres)
                    (remove_node_closed _ _ Hnd Hcl) H)
          as (He & g' & Hsub & Hne & Hnone & Hcl').
        split; [done|]. exists g'. split; [|done].
        intros k k' Hedge. by apply (remove_node_sub (cn, fn) _ Hnd Hcl), Hsub.
      * exfalso. by eapply Hstep.
    + injection H as <- <-. split; [done|]. exists (entry :: g).
      split; [by intros ? ?|]. done.
Qed.

Lemma no_leaf_cycle g :
  g <> [] -> find_leaf g = None -> graph_closed g ->
  exists k0 ks, chain (edge g) ((k0 :: ks) ++ [k0]).
Proof.
  intros Hne Hnone Hcl. apply (cycle_of_successors (edge g) (dict_keys g)).
  - destruct g; [done|]. done.
  - intros k Hk. apply dict_get_is_Some in Hk as [callees Hd].
    pose proof (find_leaf_None g k callees Hnone (dict_get_elem _ _ _ Hd)) as Hc.
    destruct callees as [|k' callees]; [done|]. exists k'.
    destruct (Hcl _ _ Hd) as [_ Hkeys]. split; [apply Hkeys; set_solver|].
    exists (k' :: callees). split; [done|set_solver].
Qed.

Lemma build_callgraph_closed st g :
  storage_wf st -> all_calls_resolve st -> build_callgraph st = Ok g ->
  graph_closed g /\ forall k k', edge g k k' -> calls st k k'.
Proof.
  intros Hwf Hres Hb.
  destruct (build_callgraph_spec _ _ Hwf Hb) as (Hnd & Hk & Hall & Hget).
  assert (Hedge : forall k callees k', dict_get k g = Some callees -> k' ∈ callees ->
            NoDup callees /\ calls st k k').
  { intros k callees k' Hd Hin.
    destruct (Hk k) as [Hb1 [f Hf]]; [by apply dict_get_is_Some|].
    destruct (Hget k callees f Hd Hf) as (called & Hc & ->).
    unfold get_called_function_names in Hc.
    apply called_names_from_spec in Hc as (_ & Hndc & Hiff).
    split; [apply NoDup_filter, Hndc; constructor|].
    apply list_elem_of_filter in Hin as [Hb2 Hin]. apply Hiff in Hin as [Hin|Hin];
      [by apply elem_of_nil in Hin|].
    destruct Hin as (i & Hi & fp & args & sis & Hkind & ->).
    split; [done|]. split; [done|]. by exists f, i, fp, args, sis. }
  split.
  - intros k callees Hd. split.
    + destruct callees as [|k' callees]; [constructor|].
      by apply (Hedge k (k' :: callees) k' Hd); set_solver.
    + intros k' Hin. destruct (Hedge _ _ _ Hd Hin) as [_ Hc].
      destruct Hc as (Hb1 & Hb2 & f & i & fp & args & sis & Hl & Hi & Hkind & ->).
      pose proof (resolved_init {| storage := st; next_id := 0 |} Hres k f Hl) as Hall'.
      rewrite Forall_forall in Hall'. specialize (Hall' i Hi).
      unfold call_resolves in Hall'. rewrite Hkind in Hall'.
      destruct Hall' as [[callee Hcallee] _]. by eapply Hall.
  - intros k k' (callees & Hd & Hin). by apply (Hedge _ _ _ Hd Hin).
Qed.

(** X15.  On a well-formed storage in which every CALL is linked to a
    stored function, [inline_new_classes] has two outcomes: it returns,
    and then the call graph of the classes to check has no cycle; or it
    raises the [AssertionError] of the cycle, and then the graph has
    one. *)
Theorem inlining_fails_only_on_cycle w :
  storage_wf (storage w) -> all_calls_resolve (storage w) ->
  (exists w', inline_new_classes w = Some (w', Ok tt)
              /\ ~ exists ks, is_cycle (storage w) ks)
  \/ (exists w', inline_new_classes w = Some (w', Raise cycle_error)
                 /\ exists ks, is_cycle (storage w) ks).
Proof.
  intros Hwf Hres.
  destruct (build_callgraph_total _ Hwf Hres) as [g Hb].
  pose proof (loop_inv_init _ _ Hwf Hb) as Hinv.
  destruct (build_callgraph_closed _ _ Hwf Hres Hb) as [Hcl Hcalls].
  destruct (loop_total _ (length g) g w Hinv) as [[w' [[]|e]] Hloop]; [done| |].
  - left. exists w'. unfold inline_new_classes. rewrite Hb. split; [done|].
    intros [ks Hcyc].
    destruct (loop_cycle _ ks (length g) g w Hinv) as (w2 & e & Hl & _);
      [by eapply cycle_closed|done|]. congruence.
  - right. exists w'. unfold inline_new_classes. rewrite Hb.
    destruct (loop_raise _ _ _ _ _ _ Hinv (resolved_init _ Hres) Hcl Hloop)
      as (-> & g' & Hsub & Hne & Hnone & Hcl').
    split; [done|].
    destruct (no_leaf_cycle g' Hne Hnone Hcl') as (k0 & ks & Hch).
    exists (k0 :: ks). unfold is_cycle. apply chain_path; [done|].
    eapply chain_impl; [|exact Hch]. intros a b Hab. by apply Hcalls, Hsub.
Qed.

(** X2.  A round of inlining that returned, followed by
    [reset_new_classes], leaves a well-formed storage with no class left
    to check and no CALL in any stored function. *)
Theorem inlining_round_leaves_no_call w w' :
  storage_wf (storage w) ->
  inline_new_classes w = Some (w', Ok tt) ->
  storage_wf (reset_new_classes (storage w'))
  /\ classes_to_check (reset_new_classes (storage w')) = []
  /\ forall k c fk f,
       (k, c) ∈ assembly_classes (reset_new_classes (storage w')) ->
       (fk, f) ∈ functions c -> call_free f.
Proof.
  intros Hwf H. pose proof (storage_wf_after_inlining _ _ Hwf H) as Hwf'.
  split; [exact Hwf'|]. split; [reflexivity|].
  intros k c fk f Hc Hf. destruct Hwf' as (_ & _ & _ & Hold).
  eapply Hold; [exact Hc| |exact Hf]. apply not_elem_of_nil.
Qed.

End StorageFacts.

(** ** Register allocation: live registers keep apart *)

Section Interference.
Import Asm RegAlloc Liveness.
Context {S : Type} `{PS : PySet S}.
Implicit Types (st : @State S) (r : Register).

Lemma allocate_cases r st :
  (pool st = ∅
   /\ allocate r st
      = {| allocator := {| free_registers := free_registers (allocator st);
                           n_registers := n_registers (allocator st) + 1 |};
           location := set_location r (n_registers (allocator st))
                         (location st) |})
  \/ (exists slot rest,
        slot ∈ pool st /\ set_elements rest = pool st ∖ {[slot]}
        /\ allocate r st
           = {| allocator := {| free_registers := rest;
                                n_registers := n_registers (allocator st) |};
                location := set_location r slot (location st) |}).
Proof.
  unfold allocate, pool.
  destruct (next_free_register_cases (allocator st))
    as [[He ->]|(slot & rest & Hin & Hrest & ->)]; [by left|].
  right. by exists slot, rest.
Qed.

Lemma allocate_inv all k r st :
  AllocInv all k st ->
  AllocInv all k (allocate r st)
  /\ location (allocate r st) r <> -1
  /\ forall r', r' <> r -> location (allocate r st) r' = location st r'.
Proof.
  intros [Hn Hloc Hpool Hinj Hfree].
  assert (Hown : forall st' r', r' <> r ->
            location st' r' = location st r' ->
            owned all k st' r' -> owned all k st r').
  { intros st' r' _ Heq [Hl Hu]. split; [congruence|done]. }
  destruct (allocate_cases r st)
    as [[He ->]|(slot & rest & Hin & Hrest & ->)].
  - assert (Hp : forall s, s ∉ pool
      {| allocator := {| free_registers := free_registers (allocator st);
                         n_registers := n_registers (allocator st) + 1 |};
         location := set_location r (n_registers (allocator st))
                       (location st) |}).
    { intros s. unfold pool in *. simpl. rewrite He. set_solver. }
    split; [|split].
    + split; simpl.
      * lia.
      * intros r'. unfold set_location.
        destruct (decide (r' = r)); [right; lia|].
        destruct (Hloc r') as [?|?]; [by left|right; lia].
      * intros s Hs. by apply Hp in Hs.
      * intros r1 r2 H1 H2. unfold set_location.
        destruct (decide (r1 = r)) as [->|N1];
          destruct (decide (r2 = r)) as [->|N2]; [done| | |].
        -- intros Heq. destruct (Hloc r2) as [E|E]; [|lia].
           destruct H2 as [H2 _]. simpl in H2. unfold set_location in H2.
           rewrite decide_False in H2 by done. done.
        -- intros Heq. destruct (Hloc r1) as [E|E]; [|lia].
           destruct H1 as [H1 _]. simpl in H1. unfold set_location in H1.
           rewrite decide_False in H1 by done. done.
        -- apply Hinj; (eapply Hown; [eassumption| |eassumption]);
             simpl; unfold set_location; by rewrite decide_False.
      * intros r' _. apply Hp.
    + simpl. unfold set_location. rewrite decide_True by done. lia.
    + intros r' Hne. simpl. unfold set_location. by rewrite decide_False.
  - assert (Hslot : 0 <= slot < n_registers (allocator st)) by by apply Hpool.
    assert (Hp : forall s, s ∈ pool
      {| allocator := {| free_registers := rest;
                         n_registers := n_registers (allocator st) |};
         location := set_location r slot (location st) |} <->
      s ∈ pool st /\ s <> slot).
    { intros s. unfold pool in *. simpl. rewrite Hrest. set_solver. }
    assert (Hother : forall r', r' <> r ->
              owned all k {| allocator := {| free_registers := rest;
                         n_registers := n_registers (allocator st) |};
                location := set_location r slot (location st) |} r' ->
              owned all k st r' /\ location st r' <> slot).
    { intros r' Hne Ho.
      assert (Ho' : owned all k st r').
      { eapply Hown; [exact Hne| |exact Ho].
        simpl. unfold set_location. by rewrite decide_False. }
      split; [done|]. intros Heq. apply (Hfree r' Ho'). by rewrite Heq. }
    split; [|split].
    + split; simpl.
      * done.
      * intros r'. unfold set_location.
        destruct (decide (r' = r)); [right; lia|apply Hloc].
      * intros s [Hs _]%Hp. by apply Hpool.
      * intros r1 r2 H1 H2. unfold set_location.
        destruct (decide (r1 = r)) as [->|N1];
          destruct (decide (r2 = r)) as [->|N2]; [done| | |].
        -- intros Heq. destruct (Hother r2 N2 H2) as [_ Hs]. congruence.
        -- intros Heq. destruct (Hother r1 N1 H1) as [_ Hs]. congruence.
        -- apply Hinj; [by apply Hother|by apply Hother].
      * intros r' Ho. rewrite Hp. unfold set_location.
        destruct (decide (r' = r)) as [->|Hne]; [tauto|].
        destruct (Hother r' Hne Ho) as [Ho' _]. intros [Hin' _].
        by apply (Hfree r' Ho').
    + simpl. unfold set_location. rewrite decide_True by done. lia.
    + intros r' Hne. simpl. unfold set_location. by rewrite decide_False.
Qed.

Lemma allocate_operand_inv all k r st :
  AllocInv all k st ->
  AllocInv all k (allocate_operand st r)
  /\ location (allocate_operand st r) r <> -1.
Proof.
  intros Hinv. unfold allocate_operand.
  destruct (Z.eqb_spec (location st r) (-1)) as [E|E]; [|done].
  destruct (allocate_inv all k r st Hinv) as (H1 & H2 & _). done.
Qed.

Lemma allocate_operands_inv all k rs : forall st,
  AllocInv all k st ->
  AllocInv all k (fold_left allocate_operand rs st)
  /\ forall r, r ∈ rs -> location (fold_left allocate_operand rs st) r <> -1.
Proof.
  induction rs as [|r rs IH]; intros st Hinv; simpl.
  - split; [done|]. intros r Hr. by apply elem_of_nil in Hr.
  - destruct (allocate_operand_inv all k r st Hinv) as [H1 H2].
    destruct (IH _ H1) as [H3 H4]. split; [done|].
    intros r' [->|Hr']%elem_of_cons; [|by apply H4].
    by rewrite allocate_operands_location.
Qed.

Lemma last_filter_is_final {A} (P : A -> Prop) `{!forall x, Decision (P x)}
    (l : list A) :
  NoDup l -> forall (k : nat) i,
  last (filter P l) = Some i -> l !! k = Some i ->
  forall (j : nat) i', (k < j)%nat -> l !! j = Some i' -> ~ P i'.
Proof.
  induction l as [|x l IH]; intros Hnd k i Hlast Hk j i' Hlt Hj;
    [by rewrite lookup_nil in Hk|].
  apply NoDup_cons in Hnd as [Hx Hnd].
  destruct j as [|j]; [lia|]. simpl in Hj.
  assert (Hfl : forall y, last (filter P l) = Some y -> y ∈ l).
  { intros y Hy. apply last_Some_elem_of in Hy.
    by apply list_elem_of_filter in Hy as [_ ?]. }
  destruct k as [|k]; simpl in Hk.
  - injection Hk as ->. rewrite filter_cons in Hlast.
    destruct (decide (P i)) as [Hp|Hp].
    + destruct (filter P l) as [|y fl] eqn:Hf.
      * intros Hp'. assert (Hin : i' ∈ filter P l).
        { apply list_elem_of_filter. split; [done|].
          by eapply list_elem_of_lookup_2. }
        rewrite Hf in Hin. by apply elem_of_nil in Hin.
      * rewrite last_cons in Hlast.
        destruct (last (y :: fl)) as [z|] eqn:Hz;
          [|by apply last_None in Hz].
        injection Hlast as ->. exfalso. apply Hx. apply Hfl. done.
    + exfalso. apply Hx. by apply Hfl.
  - refine (IH Hnd k i _ Hk j i' _ Hj); [|lia].
    rewrite filter_cons in Hlast.
    destruct (decide (P x)) as [Hp|Hp]; [|done].
    rewrite last_cons in Hlast.
    destruct (last (filter P l)) as [z|] eqn:Hz; [done|].
    injection Hlast as ->. exfalso. apply Hx. by eapply list_elem_of_lookup_2.
Qed.

Lemma compute_last_used_get all r :
  dict_get r (compute_last_used all)
  = last (filter (fun i => r ∈ get_registers i) all).
Proof.
  unfold compute_last_used. rewrite last_used_get. by destruct (last _).
Qed.

Lemma last_use_is_final all k i r :
  NoDup all -> all !! k = Some i ->
  dict_get r (compute_last_used all) = Some i ->
  ~ used_from all (Datatypes.S k) r.
Proof.
  intros Hnd Hk Hlu (j & Hj & i' & Hi' & Hr).
  rewrite compute_last_used_get in Hlu.
  by eapply (last_filter_is_final _ all Hnd k i Hlu Hk j i'); [lia| |].
Qed.

Lemma owned_S all k st r : owned all (Datatypes.S k) st r -> owned all k st r.
Proof.
  intros [Hl [(j & Hj & Hu)|Hn]]; (split; [done|]); [left|by right].
  exists j. split; [lia|done].
Qed.

Lemma release_operand_inv all k i st r :
  NoDup all -> all !! k = Some i -> r ∈ get_registers i ->
  location st r <> -1 ->
  ReleaseInv all k st ->
  ReleaseInv all k (release_operand (compute_last_used all) i st r)
  /\ location (release_operand (compute_last_used all) i st r) = location st.
Proof.
  intros Hnd Hk Hr Hl [Hn Hloc Hpool Hinj Hfree]. unfold release_operand.
  case_bool_decide as Hlu; [|done]. split; [|done].
  assert (Hp : forall s, s ∈ pool
    {| allocator :=
         {| free_registers :=
              set_add (location st r) (free_registers (allocator st));
            n_registers := n_registers (allocator st) |};
       location := location st |} <-> s = location st r \/ s ∈ pool st).
  { intros s. unfold pool. simpl. rewrite set_add_elements. set_solver. }
  split; simpl; [done|done| | |].
  - intros s [->|Hs]%Hp; [|by apply Hpool].
    destruct (Hloc r); [done|lia].
  - intros r1 r2 [H1 H1'] [H2 H2']. by apply Hinj.
  - intros r' Ho. rewrite Hp. intros [Heq|Hin].
    + assert (Ho' : owned all (Datatypes.S k) st r') by (destruct Ho; by split).
      assert (r' = r) as ->.
      { apply Hinj; [by apply owned_S| |done].
        split; [done|]. left. exists k. split; [lia|]. by exists i. }
      destruct Ho' as [_ [Hu|Hnever]].
      * by eapply last_use_is_final.
      * apply (Hnever k). by exists i.
    + apply (Hfree r'); [|done]. destruct Ho. by split.
Qed.

Lemma release_operands_inv all k i rs : forall st,
  NoDup all -> all !! k = Some i -> rs ⊆ get_registers i ->
  (forall r, r ∈ rs -> location st r <> -1) ->
  ReleaseInv all k st ->
  ReleaseInv all k
    (fold_left (release_operand (compute_last_used all) i) rs st).
Proof.
  induction rs as [|r rs IH]; intros st Hnd Hk Hsub Hall Hinv; simpl; [done|].
  destruct (release_operand_inv all k i st r Hnd Hk) as [H1 H2];
    [set_solver|apply Hall; set_solver|done|].
  apply IH; [done|done|set_solver| |done].
  intros r' Hr'. rewrite H2. apply Hall. set_solver.
Qed.

Lemma process_instruction_inv all k i st :
  NoDup all -> all !! k = Some i ->
  AllocInv all k st ->
  AllocInv all k (allocate_operands i st)
  /\ (forall r, r ∈ get_registers i ->
        location (allocate_operands i st) r <> -1)
  /\ AllocInv all (Datatypes.S k)
       (process_instruction (compute_last_used all) st i).
Proof.
  intros Hnd Hk Hinv. unfold allocate_operands.
  destruct (allocate_operands_inv all k (get_registers i) st Hinv)
    as [Hmid Hall].
  split; [done|]. split; [done|].
  unfold process_instruction, release_operands, allocate_operands.
  set (mid := fold_left allocate_operand (get_registers i) st) in *.
  assert (Hrel : ReleaseInv all k mid).
  { destruct Hmid as [Hn Hloc Hpool Hinj Hfree].
    split; [done|done|done|done|].
    intros r Ho. apply Hfree. by apply owned_S. }
  apply (release_operands_inv all k i (get_registers i) mid Hnd Hk) in Hrel;
    [|done|done].
  destruct Hrel as [Hn Hloc Hpool Hinj Hfree].
  split; [done|done|done| |done].
  intros r1 r2 H1 H2. apply Hinj; by apply owned_S.
Qed.

Lemma init_inv all (loc : Register -> Z) :
  (forall r, loc r = -1) ->
  AllocInv all 0 {| allocator := new_allocation; location := loc |}.
Proof.
  intros Hloc. split; simpl.
  - done.
  - intros r. by left.
  - intros s. unfold pool. simpl. rewrite set_new_elements. set_solver.
  - intros r1 r2 [H1 _]. simpl in H1. by rewrite Hloc in H1.
  - intros r [H1 _]. simpl in H1. by rewrite Hloc in H1.
Qed.

Lemma allocate_all_inv all k args : forall st,
  AllocInv all k st ->
  AllocInv all k (fold_left (fun st arg => allocate arg st) args st)
  /\ forall r, location st r <> -1 \/ r ∈ args ->
       location (fold_left (fun st arg => allocate arg st) args st) r <> -1.
Proof.
  induction args as [|a args IH]; intros st Hinv; simpl.
  - split; [done|]. intros r [?|Hr]; [done|by apply elem_of_nil in Hr].
  - destruct (allocate_inv all k a st Hinv) as (H1 & H2 & H3).
    destruct (IH _ H1) as [H4 H5]. split; [done|].
    intros r Hr. apply H5.
    destruct (decide (r = a)) as [->|Hne]; [by left|].
    rewrite H3 by done.
    destruct Hr as [?|[->|?]%elem_of_cons]; [by left|done|by right].
Qed.

Lemma allocate_parameters_inv function (loc : Register -> Z) :
  (forall r, loc r = -1) ->
  let st := allocate_parameters function
              {| allocator := new_allocation; location := loc |} in
  AllocInv (get_all_instructions function) 0 st
  /\ forall r,
       r ∈ me_register function :: argument_registers function ->
       location st r <> -1.
Proof.
  intros Hloc st. subst st. unfold allocate_parameters.
  destruct (allocate_inv (get_all_instructions function) 0
              (me_register function) _
              (init_inv (get_all_instructions function) loc Hloc))
    as (H1 & H2 & _).
  destruct (allocate_all_inv _ _ (argument_registers function) _ H1)
    as [H3 H4].
  split; [done|]. intros r [->|Hr]%elem_of_cons; apply H4; auto.
Qed.

Lemma state_at_inv function (loc : Register -> Z) (k : nat) :
  (forall r, loc r = -1) ->
  NoDup (get_all_instructions function) ->
  (k <= length (get_all_instructions function))%nat ->
  AllocInv (get_all_instructions function) k (state_at function loc k).
Proof.
  intros Hloc Hnd. induction k as [|k IH]; intros Hk.
  - unfold state_at. rewrite take_0. simpl. by apply allocate_parameters_inv.
  - destruct (lookup_lt_is_Some_2 (get_all_instructions function) k)
      as [i Hi]; [lia|].
    rewrite (state_at_S _ _ _ _ Hi).
    apply process_instruction_inv; [done|done|]. apply IH. lia.
Qed.

(** The state between the two loops over the registers of the instruction
    at position [k]: the registers of the instruction have their slots,
    and these are their slots in the end. *)
Lemma mid_state function loc (k : nat) i :
  (forall r, loc r = -1) ->
  NoDup (get_all_instructions function) ->
  get_all_instructions function !! k = Some i ->
  let mid := allocate_operands i (state_at function loc k) in
  AllocInv (get_all_instructions function) k mid
  /\ (forall r, r ∈ get_registers i -> location mid r <> -1)
  /\ (forall r, location (state_at function loc k) r <> -1 ->
                location mid r = location (state_at function loc k) r)
  /\ (forall r, location mid r <> -1 ->
                register_allocation function loc r = location mid r).
Proof.
  intros Hloc Hnd Hi mid.
  assert (Hk : (k < length (get_all_instructions function))%nat)
    by by eapply lookup_lt_Some.
  destruct (process_instruction_inv (get_all_instructions function) k i
              (state_at function loc k) Hnd Hi) as (H1 & H2 & H3);
    [apply state_at_inv; [done|done|lia]|].
  split; [done|]. split; [done|]. split.
  - intros r Hr. by apply allocate_operands_location.
  - intros r Hr. rewrite state_at_final.
    assert (Hnext : location (state_at function loc (Datatypes.S k)) r
                    = location mid r).
    { by rewrite (state_at_S _ _ _ _ Hi), process_instruction_location_mid. }
    rewrite <- Hnext. apply state_at_stays; [lia|]. by rewrite Hnext.
Qed.

Lemma parameter_has_slot function loc (k : nat) r :
  (forall r, loc r = -1) ->
  r ∈ me_register function :: argument_registers function ->
  location (state_at function loc k) r <> -1.
Proof.
  intros Hloc Hr.
  assert (H0 : location (state_at function loc 0) r <> -1).
  { unfold state_at. rewrite take_0. simpl.
    by apply allocate_parameters_inv. }
  rewrite (state_at_stays function loc 0 k); [done|lia|done].
Qed.

(** A register that is a parameter, or that an instruction up to position
    [k] has, has its slot from the first loop at position [k] on. *)
Lemma defined_has_slot function loc (k : nat) i r :
  (forall r, loc r = -1) ->
  NoDup (get_all_instructions function) ->
  get_all_instructions function !! k = Some i ->
  r ∈ me_register function :: argument_registers function
  \/ (exists a, (a <= k)%nat
                /\ used_at (get_all_instructions function) a r) ->
  location (allocate_operands i (state_at function loc k)) r <> -1
  /\ register_allocation function loc r
     = location (allocate_operands i (state_at function loc k)) r.
Proof.
  intros Hloc Hnd Hi Hdef.
  destruct (mid_state function loc k i Hloc Hnd Hi)
    as (_ & Hregs & Hkeep & Hend).
  assert (Hr : location (allocate_operands i (state_at function loc k)) r
               <> -1).
  { destruct Hdef as [Hp|(a & Ha & ia & Hia & Hra)].
    - rewrite Hkeep; by apply parameter_has_slot.
    - destruct (decide (a = k)) as [->|Hne].
      + rewrite Hi in Hia. injection Hia as <-. by apply Hregs.
      + destruct (mid_state function loc a ia Hloc Hnd Hia)
          as (_ & Hregs' & _).
        assert (Hnext : location (state_at function loc (Datatypes.S a)) r
                        <> -1).
        { rewrite (state_at_S _ _ _ _ Hia), process_instruction_location_mid.
          by apply Hregs'. }
        assert (Hk : location (state_at function loc k) r <> -1).
        { rewrite (state_at_stays function loc (Datatypes.S a) k);
            [done|lia|done]. }
        by rewrite Hkeep. }
  split; [done|]. by apply Hend.
Qed.

(** X16.  In a function whose instructions are distinct objects and whose
    registers start without a slot, register allocation gives a slot that
    is not negative to every parameter and to every register of an
    instruction, and two distinct registers that are live at the same
    position have different slots. *)
Theorem allocation_keeps_live_registers_apart (function : AssemblyFunction)
    (loc : Register -> Z) :
  (forall r, loc r = -1) ->
  NoDup (get_all_instructions function) ->
  (forall r,
     r ∈ me_register function :: argument_registers function
     \/ (exists k, used_at (get_all_instructions function) k r) ->
     0 <= register_allocation function loc r)
  /\ forall k r1 r2,
       live function k r1 -> live function k r2 -> r1 <> r2 ->
       register_allocation function loc r1
       <> register_allocation function loc r2.
Proof.
  intros Hloc Hnd. split.
  - intros r Hr.
    assert (Hne : register_allocation function loc r <> -1).
    { destruct Hr as [Hp|(k & i & Hi & Hr)].
      - rewrite state_at_final. by apply parameter_has_slot.
      - destruct (defined_has_slot function loc k i r Hloc Hnd Hi)
          as [H1 H2]; [|by rewrite H2].
        right. exists k. split; [lia|]. by exists i. }
    rewrite state_at_final in *.
    destruct (inv_loc _ _ _
                (state_at_inv function loc _ Hloc Hnd (le_n _)) r);
      [done|lia].
  - intros k r1 r2 [Hd1 Hu1] [Hd2 Hu2] Hne.
    destruct Hu1 as (c & Hc & ic & Hic & Hrc).
    assert (Hk : (k < length (get_all_instructions function))%nat).
    { apply lookup_lt_Some in Hic. lia. }
    destruct (lookup_lt_is_Some_2 _ k Hk) as [i Hi].
    destruct (defined_has_slot function loc k i r1 Hloc Hnd Hi Hd1)
      as [Hl1 ->].
    destruct (defined_has_slot function loc k i r2 Hloc Hnd Hi Hd2)
      as [Hl2 ->].
    destruct (mid_state function loc k i Hloc Hnd Hi) as (Hm & _).
    intros Heq. apply Hne. apply (inv_inj _ _ _ Hm); [| |done].
    + split; [done|]. left. exists c. split; [done|]. by exists ic.
    + split; [done|]. by left.
Qed.

End Interference.

(** ** The ledger: what a call changes *)

Section LedgerMore.
Import Ledger LedgerState.
Context `{B : Backend} `{P : Pipeline}.

(** An accepted transaction is refused from then on. *)
Lemma published_after_accept t l l' :
  verify_and_execute_transaction t l = (l', Ok tt) ->
  Tx.unique_seed t ∈ published_unique_seeds l'.
Proof.
  intros H. apply verify_accept_facts in H as (_ & _ & ->). set_solver.
Qed.

Lemma run_calls_monotone cs : forall l : Ledger,
  published_unique_seeds l ⊆ published_unique_seeds (run_calls cs l).
Proof.
  induction cs as [|c cs IH]; intros l; simpl; [done|].
  destruct (run_call_monotone c l) as [_ H2].
  specialize (IH (fst (run_call c l))). set_solver.
Qed.

Lemma replayed_seed_rejected t (l : Ledger) :
  Tx.unique_seed t ∈ published_unique_seeds l ->
  exists m, verify_and_execute_transaction t l
            = (l, Raise (TxRejectedException m)).
Proof.
  intros Hseed.
  destruct (verify_cases t l)
    as [(_ & m & H)|[(Hp & _)|[(Hp & _)|(Hp & _)]]]; [by eauto|..];
    exfalso; apply Hp; right; right; left; exact Hseed.
Qed.

(** X17.  A transaction that the ledger accepted is rejected with
    [TxRejectedException] when it is submitted again, whatever calls the
    ledger served in between, and the rejection leaves the ledger as it
    is. *)
Theorem accepted_transaction_never_again t (l l' : Ledger) cs :
  verify_and_execute_transaction t l = (l', Ok tt) ->
  exists m,
    verify_and_execute_transaction t (run_calls cs l')
    = (run_calls cs l', Raise (TxRejectedException m)).
Proof.
  intros H. apply replayed_seed_rejected.
  apply (run_calls_monotone cs l'). by eapply published_after_accept.
Qed.

Lemma for_each_insert_record_spec rs : forall l : Ledger,
  for_each rs insert_record l
  = (set_next_record_idx (next_record_idx l + length rs)%nat
       (set_merkle_tree (insert_all (next_record_idx l) rs (merkle_tree l)) l),
     Ok tt).
Proof.
  induction rs as [|r rs IH]; intros l; simpl.
  - unfold ret. f_equal. destruct l; unfold set_next_record_idx, set_merkle_tree; simpl.
    f_equal. f_equal. lia.
  - unfold bind at 1. unfold insert_record at 1. unfold bind at 1, modify at 1 2.
    rewrite IH. simpl. f_equal.
    unfold set_next_record_idx, set_merkle_tree; simpl. f_equal. lia.
Qed.

(** X18.  What an accepted transaction changes besides the published
    sets: its records enter the tree in order from the next free index on,
    the index grows by their number, and the history gets one entry, the
    serials of the transaction in some order and its records; the time,
    the serialized functions, the storage and the verifier stay. *)
Theorem accepted_transaction_effect t (l l' : Ledger) :
  verify_and_execute_transaction t l = (l', Ok tt) ->
  merkle_tree l'
  = insert_all (next_record_idx l) (Tx.new_records t) (merkle_tree l)
  /\ next_record_idx l' = (next_record_idx l + length (Tx.new_records t))%nat
  /\ (exists serials,
        accepted_transactions l'
        = accepted_transactions l ++ [(serials, Tx.new_records t)]
        /\ serials ≡ₚ Tx.consumed_serials t)
  /\ current_time l' = current_time l
  /\ serialized_functions l' = serialized_functions l
  /\ assembly_storage l' = assembly_storage l
  /\ verifier l' = verifier l.
Proof.
  intros H.
  destruct (verify_accept_facts _ _ _ H) as (Hp & _ & _).
  assert (Hnd : NoDup (Tx.consumed_serials t)).
  { destruct (decide (NoDup (Tx.consumed_serials t))); [done|].
    exfalso. apply Hp. by left. }
  unfold verify_and_execute_transaction in H.
  cbv beta iota zeta delta [bind get raise raise_if ret of_result try_except
    get_serialized_function check_proof] in H.
  rewrite collect_serials_ok in H by (done || set_solver).
  destruct (negb (Nat.eqb _ 0)); [discriminate|].
  destruct (bool_decide _); [discriminate|].
  destruct (negb (String.eqb _ _)); [discriminate|].
  destruct (negb (Z.eqb _ _)); [discriminate|].
  destruct (serialized_functions l !! _); [|discriminate].
  assert (Hup : forall l0 : Ledger,
    state_update t (list_to_set (Tx.consumed_serials t) ∪ ∅) l = (l0, Ok tt) ->
    merkle_tree l0
    = insert_all (next_record_idx l) (Tx.new_records t) (merkle_tree l)
    /\ next_record_idx l0 = (next_record_idx l + length (Tx.new_records t))%nat
    /\ (exists serials,
          accepted_transactions l0
          = accepted_transactions l ++ [(serials, Tx.new_records t)]
          /\ serials ≡ₚ Tx.consumed_serials t)
    /\ current_time l0 = current_time l
    /\ serialized_functions l0 = serialized_functions l
    /\ assembly_storage l0 = assembly_storage l
    /\ verifier l0 = verifier l).
  { intros l0. rewrite (right_id_L ∅ (∪)). unfold state_update.
    unfold bind at 1, modify at 1. unfold bind at 1, modify at 1.
    unfold bind at 1. rewrite for_each_insert_record_spec.
    unfold modify. intros [= <-]. simpl.
    split; [done|]. split; [done|]. split; [|done].
    eexists. split; [reflexivity|].
    rewrite list_of_set_perm. by apply elements_list_to_set. }
  destruct (verifier l) as [v|].
  - destruct (verify v _ _ _ _ _ _ _ _ _) as [[]|e]; simpl in H; try discriminate.
    by apply Hup.
  - by apply Hup.
Qed.

Lemma serialize_functions_spec cname fs : forall fid (l l' : Ledger) r,
  serialize_functions cname fs fid l = (l', r) ->
  same_but_functions l l'
  /\ (forall k, is_Some (serialized_functions l !! k) ->
                is_Some (serialized_functions l' !! k))
  /\ (forall k sf, serialized_functions l' !! k = Some sf ->
        serialized_functions l !! k = Some sf \/
        exists fname ser (j : nat),
          k = (cname, fname) /\
          public_functions fs !! j = Some (fname, false, ser) /\
          ser (fid + Z.of_nat j) = Ok sf)
  /\ (r = Ok tt ->
      forall fname ser (j : nat),
        public_functions fs !! j = Some (fname, false, ser) ->
        is_Some (serialized_functions l' !! (cname, fname))).
Proof.
  induction fs as [|[[fname priv] ser] fs IH]; intros fid l l' r H; simpl in H.
  - injection H as <- <-. split; [by repeat split|]. split; [done|].
    split; [by left|]. intros _ fname ser j Hj. by destruct j.
  - destruct priv.
    + apply IH in H as (Hs & Hm & Ho & Ha).
      unfold public_functions. rewrite filter_cons_False by done.
      done.
    + unfold public_functions. rewrite filter_cons_True by done.
      fold (public_functions fs).
      unfold bind at 1, of_result in H.
      destruct (ser fid) as [sf0|e] eqn:Hser.
      * unfold bind at 1, modify in H.
        apply IH in H as (Hs & Hm & Ho & Ha). simpl in *.
        split; [exact Hs|]. split; [|split].
        -- intros k Hk. apply Hm.
           destruct (decide (k = (cname, fname))) as [->|Hne].
           ++ rewrite lookup_insert_eq. by eexists.
           ++ by rewrite lookup_insert_ne.
        -- intros k sf Hk. destruct (Ho k sf Hk) as [Hin|(fn & s & j & -> & Hj & Hs')].
           ++ destruct (decide ((cname, fname) = k)) as [<-|Hne].
              ** rewrite lookup_insert_eq in Hin. injection Hin as <-.
                 right. exists fname, ser, 0%nat. simpl.
                 rewrite Z.add_0_r. done.
              ** rewrite lookup_insert_ne in Hin by done. by left.
           ++ right. exists fn, s, (S j). simpl. split; [done|]. split; [done|].
              rewrite <- Hs'. f_equal. lia.
        -- intros Hr fn s [|j] Hj; simpl in Hj.
           ++ injection Hj as <- <-. apply Hm. rewrite lookup_insert_eq. by eexists.
           ++ by eapply Ha.
      * injection H as <- <-. split; [by repeat split|]. split; [done|].
        split; [by left|]. discriminate.
Qed.

Lemma on_storage_spec {A} (m : SE AssemblyStorage A) (l l' : Ledger) r :
  on_storage m l = (l', r) ->
  same_transaction_state l l'
  /\ serialized_functions l' = serialized_functions l.
Proof.
  unfold on_storage, zoom. destruct (m (assembly_storage l)) as [st' r'].
  intros [= <- <-]. by repeat split.
Qed.

Lemma same_transaction_state_trans (l1 l2 l3 : Ledger) :
  same_transaction_state l1 l2 -> same_transaction_state l2 l3 ->
  same_transaction_state l1 l3.
Proof.
  unfold same_transaction_state. intros H1 H2.
  destruct_and!. repeat split; congruence.
Qed.

Lemma same_transaction_state_refl (l : Ledger) : same_transaction_state l l.
Proof. by repeat split. Qed.

Ltac chain_states :=
  first [ eassumption
        | apply same_transaction_state_refl
        | eapply same_transaction_state_trans; [eassumption|chain_states] ].

Lemma for_each_add_class_spec classes : forall (l l' : Ledger) r,
  for_each classes (fun c => on_storage (add_class c)) l = (l', r) ->
  same_transaction_state l l'
  /\ serialized_functions l' = serialized_functions l.
Proof.
  induction classes as [|c cs IH]; intros l l' r H; simpl in H.
  - injection H as <- <-. by repeat split.
  - unfold bind at 1 in H.
    destruct (on_storage (add_class c) l) as [l1 [[]|e]] eqn:H1.
    + apply on_storage_spec in H1 as [Ha Hb].
      apply IH in H as [Hc Hd]. split; [by eapply same_transaction_state_trans|congruence].
    + injection H as <- <-. by apply on_storage_spec in H1.
Qed.

(** The phases of [register_classes] before the serialization. *)
Lemma phases_spec classes (l l' : Ledger) r :
  (do! for_each classes (fun c => on_storage (add_class c)) in
   do! on_storage link_new_classes in
   do! on_storage check_new_classes in
   do! on_storage inline_new_classes in
   do! on_storage insert_runtime_checks_for_new_classes in
   do! on_storage allocation_for_new_classes in
   on_storage reset_new_classes) l = (l', r) ->
  same_transaction_state l l'
  /\ serialized_functions l' = serialized_functions l.
Proof.
  unfold bind at 1.
  destruct (for_each classes _ l) as [l1 [[]|e]] eqn:H1;
    [|intros [= <- <-]; by apply for_each_add_class_spec in H1].
  apply for_each_add_class_spec in H1 as [Ha Hb].
  repeat (unfold bind at 1;
    match goal with
    | |- context [on_storage ?m ?x] =>
        let l2 := fresh "l" in let Hs := fresh "Hs" in
        destruct (on_storage m x) as [l2 [[]|?]] eqn:Hs;
        apply on_storage_spec in Hs as [? ?];
        [|intros [= <- <-]; split;
           [repeat (eapply same_transaction_state_trans; [eassumption|]); done
           |congruence]]
    end).
  intros Hlast. apply on_storage_spec in Hlast as [? ?]. split; [|congruence].
  repeat (eapply same_transaction_state_trans; [eassumption|]); done.
Qed.

Lemma serialization_loop_spec classes : forall (l l' : Ledger) r,
  for_each classes (fun c =>
    let! l := get in
    serialize_functions (qualified_name c)
      (functions_values (assembly_storage l) c) 0) l = (l', r) ->
  same_but_functions l l'
  /\ (forall k, is_Some (serialized_functions l !! k) ->
                is_Some (serialized_functions l' !! k))
  /\ (forall k sf, serialized_functions l' !! k = Some sf ->
        serialized_functions l !! k = Some sf \/
        exists c fname ser (j : nat),
          c ∈ classes /\ k = (qualified_name c, fname) /\
          public_functions (functions_values (assembly_storage l) c) !! j
          = Some (fname, false, ser) /\
          ser (Z.of_nat j) = Ok sf)
  /\ (r = Ok tt ->
      forall c fname ser (j : nat),
        c ∈ classes ->
        public_functions (functions_values (assembly_storage l) c) !! j
        = Some (fname, false, ser) ->
        is_Some (serialized_functions l' !! (qualified_name c, fname))).
Proof.
  induction classes as [|c cs IH]; intros l l' r H; simpl in H.
  - injection H as <- <-. split; [by repeat split|]. split; [done|].
    split; [by left|]. intros _ c fname ser j Hc. by apply elem_of_nil in Hc.
  - unfold bind at 1 in H. unfold bind at 1, get in H.
    destruct (serialize_functions _ _ 0 l) as [l1 r1] eqn:H1.
    apply serialize_functions_spec in H1 as (Hs1 & Hm1 & Ho1 & Ha1).
    assert (Hst : assembly_storage l1 = assembly_storage l) by apply Hs1.
    destruct r1 as [[]|e].
    + apply IH in H as (Hs & Hm & Ho & Ha). rewrite Hst in Ho, Ha.
      split; [|split; [|split]].
      * unfold same_but_functions in *. destruct_and!. repeat split; congruence.
      * intros k Hk. by apply Hm, Hm1.
      * intros k sf Hk.
        destruct (Ho k sf Hk) as [Hin|(c' & fn & s & j & Hc' & -> & Hj & Hs')].
        -- destruct (Ho1 k sf Hin) as [?|(fn & s & j & -> & Hj & Hs')]; [by left|].
           right. exists c, fn, s, j. split; [set_solver|]. done.
        -- right. exists c', fn, s, j. split; [set_solver|]. done.
      * intros Hr c' fn s j [->|Hc']%elem_of_cons Hj.
        -- apply Hm. by eapply Ha1.
        -- by eapply Ha.
    + injection H as <- <-. split; [done|]. split; [done|]. split; [|discriminate].
      intros k sf Hk.
      destruct (Ho1 k sf Hk) as [?|(fn & s & j & -> & Hj & Hs')]; [by left|].
      right. exists c, fn, s, j. split; [set_solver|]. done.
Qed.

(** X19.  [register_classes] that returns keeps every serialized function
    the ledger had; every entry it adds is a public function of one of the
    registered classes, serialized with its position among the public
    functions of its class as function id; and every public function of a
    registered class is then known to the ledger. *)
Theorem register_classes_publishes classes (l l' : Ledger) :
  register_classes classes l = (l', Ok tt) ->
  (forall k, is_Some (serialized_functions l !! k) ->
             is_Some (serialized_functions l' !! k))
  /\ (forall k sf, serialized_functions l' !! k = Some sf ->
        serialized_functions l !! k = Some sf \/
        exists c fname ser (j : nat),
          c ∈ classes /\ k = (qualified_name c, fname) /\
          public_functions (functions_values (assembly_storage l') c) !! j
          = Some (fname, false, ser) /\
          ser (Z.of_nat j) = Ok sf)
  /\ (forall c fname ser (j : nat),
        c ∈ classes ->
        public_functions (functions_values (assembly_storage l') c) !! j
        = Some (fname, false, ser) ->
        is_Some (serialized_functions l' !! (qualified_name c, fname))).
Proof.
  unfold register_classes. intros H.
  unfold bind at 1 in H.
  destruct (for_each classes _ l) as [l0 [[]|e]] eqn:H0; [|discriminate].
  apply for_each_add_class_spec in H0 as [_ Hf].
  repeat (unfold bind at 1 in H;
    match type of H with
    | context [on_storage ?m ?x] =>
        let l2 := fresh "l" in let Hs := fresh "Hs" in
        destruct (on_storage m x) as [l2 [[]|?]] eqn:Hs; [|discriminate];
        apply on_storage_spec in Hs as [_ Hs]
    end).
  apply serialization_loop_spec in H as (Hsame & Hm & Ho & Ha).
  assert (Hst : assembly_storage l' = assembly_storage l6) by apply Hsame.
  assert (Hfs : serialized_functions l6 = serialized_functions l) by congruence.
  rewrite Hst. rewrite <- Hfs. split; [done|]. split; [done|]. by apply Ha.
Qed.

(** X20.  [register_classes] leaves the published serials and seeds, the
    tree, the next index, the history, the time and the verifier as they
    are, whether it returns or raises. *)
Theorem register_classes_keeps_transaction_state classes (l l' : Ledger) r :
  register_classes classes l = (l', r) -> same_transaction_state l l'.
Proof.
  unfold register_classes. intros H.
  unfold bind at 1 in H.
  destruct (for_each classes _ l) as [l0 [[]|e]] eqn:H0;
    [|injection H as <- <-; by apply for_each_add_class_spec in H0 as [? _]].
  apply for_each_add_class_spec in H0 as [H0 _].
  repeat (unfold bind at 1 in H;
    match type of H with
    | context [on_storage ?m ?x] =>
        let l2 := fresh "l" in let Hs := fresh "Hs" in
        destruct (on_storage m x) as [l2 [[]|?]] eqn:Hs;
        apply on_storage_spec in Hs as [Hs _];
        [|injection H as <- <-; chain_states]
    end).
  apply serialization_loop_spec in H as (Hsame & _).
  assert (same_transaction_state l6 l')
    by (unfold same_but_functions in Hsame; unfold same_transaction_state;
        tauto).
  chain_states.
Qed.

End LedgerMore.
(** ** Runs *)

Section GeneralRuns.
Import General.

Lemma to_hex_str_round_trip_witness :
  Nat.even (String.length (to_hex_str 255)) = true
  /\ Z.of_N (HexString.Raw.to_N (to_hex_str 255) 0) = 255.
Proof. apply (to_hex_str_round_trip 255). lia. Defined.

End GeneralRuns.

Section FieldRuns.
Import Asm Compiler AsmExamples Fields MoreExamples.

Lemma add_field_numbers_fields_witness :
  exists c',
    add_field ex_amount ex_coin = Ok c'
    /\ dict_keys (fields c') = dict_keys (fields ex_coin) ++ ["amount"]
    /\ (forall k f, (k, f) ∈ fields c' ->
          exists i : nat,
            field_location f = Some (Z.of_nat i)
            /\ (i < length (fields c'))%nat)
    /\ (forall k1 f1 k2 f2,
          (k1, f1) ∈ fields c' -> (k2, f2) ∈ fields c' ->
          field_location f1 = field_location f2 -> k1 = k2)
    /\ (forall f, ("owner", f) ∈ fields c' -> field_location f = Some 0).
Proof.
  eexists. split; [reflexivity|].
  apply (add_field_numbers_fields ex_amount ex_coin).
  - apply (bool_decide_unpack _). vm_compute. exact I.
  - reflexivity.
Defined.

Lemma compiled_class_is_accepted_witness :
  exists st' c storage',
    compile_contract ex_contract ex_compiler_state = (st', Ok c)
    /\ add_class c AssemblyStorage_init = (storage', Ok tt)
    /\ storage_wf storage'.
Proof.
  destruct (compile_contract ex_contract ex_compiler_state) as [st' [c|e]]
    eqn:Hc; [|vm_compute in Hc; discriminate].
  assert (Hn : qualified_name c = "Coin").
  { vm_compute in Hc. by injection Hc as _ <-. }
  destruct (compiled_class_is_accepted ex_contract ex_compiler_state st' c
              AssemblyStorage_init Hc) as [storage' H].
  - apply elem_of_cons. by left.
  - apply storage_wf_init.
  - rewrite Hn. apply not_elem_of_nil.
  - by exists st', c, storage'.
Defined.

End FieldRuns.

Section FunctionRuns.
Import Asm AsmExamples Functions MoreExamples.
Local Close Scope Z_scope.

Lemma function_type_check_keeps_types_witness :
  exists ty',
    AssemblyFunction_infer_and_check_types false ex_typed_function ex_types
    = (ty', Ok tt)
    /\ keeps_types ex_types ty'
    /\ Forall (destination_typed ty') (instructions ex_typed_function)
    /\ ty' (return_register ex_typed_function)
       = ex_types (return_register ex_typed_function).
Proof.
  assert (H : AssemblyFunction_infer_and_check_types false ex_typed_function
                ex_types
              = (fst (AssemblyFunction_infer_and_check_types false
                        ex_typed_function ex_types), Ok tt))
    by (vm_compute; reflexivity).
  eexists. split; [exact H|].
  destruct (function_type_check_keeps_types _ _ _ _ H) as [Hk Hr].
  split; [exact Hk|]. by apply Hr.
Defined.

Lemma checked_constructor_initializes_witness :
  Forall (fun i => is_new i = false) (drop 1 (instructions ex_constructor))
  /\ forall name, name ∈ dict_keys (fields ex_coin) ->
       exists i, i ∈ instructions ex_constructor
                 /\ stores_field (Some (reg "obj" 11)) name i.
Proof.
  destruct (checked_constructor_initializes ex_coin ex_constructor
              (NewInstruction 20 (reg "obj" 11) (LinkedClass "Coin"))
              (drop 1 (instructions ex_constructor)) eq_refl eq_refl)
    as [H1 H2].
  split; [exact H1|]. by apply H2.
Defined.

Lemma inline_without_calls_witness :
  inline ex_storage ex_g 1000 = (1000, Ok (without_runtime_checks ex_g)).
Proof.
  apply (inline_without_calls ex_storage ex_g 1000).
  repeat constructor.
Defined.

End FunctionRuns.

Section StorageRuns.
Import Asm AsmExamples Functions Storage MoreExamples.
Local Close Scope Z_scope.

Ltac elem_by_cases H :=
  repeat (apply elem_of_cons in H as [H|H]); [..|by apply elem_of_nil in H].

Lemma ex_coin_storage_ids : class_ids_wf ex_coin_storage.
Proof.
  split; [|split].
  - vm_compute. repeat constructor. set_solver.
  - intros k c H. vm_compute in H. elem_by_cases H. injection H as -> ->.
    exists 0. split; [reflexivity|]. split; [vm_compute; lia|reflexivity].
  - intros k1 c1 k2 c2 H1 H2 _. vm_compute in H1, H2.
    elem_by_cases H1. elem_by_cases H2. congruence.
Qed.

Lemma stored_class_found_by_id_witness :
  exists id, class_id ex_coin = Some id
    /\ get_class_for_id ex_coin_storage id = Ok ex_coin
    /\ dict_get "Coin" (class_to_id ex_coin_storage) = Some id.
Proof.
  apply (stored_class_found_by_id ex_coin_storage "Coin" ex_coin).
  - exact ex_coin_storage_ids.
  - reflexivity.
Defined.

Lemma add_class_registers_witness :
  class_ids_wf ex_coin_storage
  /\ dict_get "Coin" (assembly_classes ex_coin_storage)
     = Some (set_class_id 0 ex_coin)
  /\ dict_get "Coin" (class_to_id ex_coin_storage) = Some 0
  /\ _next_class_id ex_coin_storage = 1
  /\ classes_to_check ex_coin_storage = [] ++ ["Coin"]
  /\ forall c2, qualified_name c2 = "Coin" ->
       exists m,
         add_class c2 ex_coin_storage
         = (ex_coin_storage, Raise (AssemblySecurityException m)).
Proof.
  apply (add_class_registers ex_coin AssemblyStorage_init ex_coin_storage).
  - apply class_ids_wf_init.
  - reflexivity.
Defined.

Lemma ex_storage_resolves : all_calls_resolve ex_storage.
Proof.
  intros k c fk f Hc Hf. vm_compute in Hc. elem_by_cases Hc;
    injection Hc as -> ->; vm_compute in Hf; elem_by_cases Hf;
    injection Hf as -> ->;
    repeat (apply Forall_cons; split); try apply Forall_nil;
    unfold call_resolves; simpl; done.
Qed.

Lemma inline_new_classes_terminates_witness :
  exists r, inline_new_classes ex_cyclic = Some r.
Proof.
  apply (inline_new_classes_terminates ex_cyclic). exact ex_cyclic_storage_wf.
Defined.

Lemma inlining_fails_only_on_cycle_witness :
  (exists w', inline_new_classes ex_world = Some (w', Ok tt)
              /\ ~ exists ks, is_cycle (storage ex_world) ks)
  \/ (exists w', inline_new_classes ex_world = Some (w', Raise cycle_error)
                 /\ exists ks, is_cycle (storage ex_world) ks).
Proof.
  apply (inlining_fails_only_on_cycle ex_world).
  - exact ex_storage_wf.
  - exact ex_storage_resolves.
Defined.

Lemma inlining_round_leaves_no_call_witness :
  storage_wf (reset_new_classes (storage ex_world_inlined))
  /\ classes_to_check (reset_new_classes (storage ex_world_inlined)) = []
  /\ forall k c fk f,
       (k, c) ∈ assembly_classes (reset_new_classes (storage ex_world_inlined)) ->
       (fk, f) ∈ functions c -> call_free f.
Proof.
  apply (inlining_round_leaves_no_call ex_world ex_world_inlined).
  - exact ex_storage_wf.
  - exact ex_world_inlines.
Defined.

End StorageRuns.

Section InterferenceRuns.
Import Asm RegAlloc Liveness AsmExamples RegAllocExamples.

Lemma allocation_keeps_live_registers_apart_witness :
  (forall r,
     r ∈ me_register ex_pool_function :: argument_registers ex_pool_function
     \/ (exists k, used_at (get_all_instructions ex_pool_function) k r) ->
     0 <= register_allocation (S := FingerSet) ex_pool_function unallocated r)
  /\ forall k r1 r2,
       live ex_pool_function k r1 -> live ex_pool_function k r2 ->
       r1 <> r2 ->
       register_allocation (S := FingerSet) ex_pool_function unallocated r1
       <> register_allocation (S := FingerSet) ex_pool_function unallocated
            r2.
Proof.
  apply (allocation_keeps_live_registers_apart (S := FingerSet)
           ex_pool_function unallocated).
  - reflexivity.
  - apply (bool_decide_unpack _). vm_compute. exact I.
Defined.

End InterferenceRuns.

Section LedgerMoreRuns.
Import Ledger LedgerState LedgerExamples.

Lemma ex_tx_accepted :
  verify_and_execute_transaction ex_tx ex_ledger = (ex_ledger_1, Ok tt).
Proof. vm_compute. reflexivity. Qed.

Lemma accepted_transaction_never_again_witness :
  exists m,
    verify_and_execute_transaction ex_tx
      (run_calls [CallVerify ex_tx_2; CallIncreaseTime 5] ex_ledger_1)
    = (run_calls [CallVerify ex_tx_2; CallIncreaseTime 5] ex_ledger_1,
       Raise (TxRejectedException m)).
Proof.
  apply (accepted_transaction_never_again ex_tx ex_ledger ex_ledger_1).
  exact ex_tx_accepted.
Defined.

Lemma accepted_transaction_effect_witness :
  merkle_tree ex_ledger_1
  = insert_all (next_record_idx ex_ledger) (Tx.new_records ex_tx)
      (merkle_tree ex_ledger)
  /\ next_record_idx ex_ledger_1
     = (next_record_idx ex_ledger + length (Tx.new_records ex_tx))%nat
  /\ (exists serials,
        accepted_transactions ex_ledger_1
        = accepted_transactions ex_ledger
          ++ [(serials, Tx.new_records ex_tx)]
        /\ serials ≡ₚ Tx.consumed_serials ex_tx)
  /\ current_time ex_ledger_1 = current_time ex_ledger
  /\ serialized_functions ex_ledger_1 = serialized_functions ex_ledger
  /\ assembly_storage ex_ledger_1 = assembly_storage ex_ledger
  /\ verifier ex_ledger_1 = verifier ex_ledger.
Proof.
  apply (accepted_transaction_effect ex_tx ex_ledger ex_ledger_1).
  exact ex_tx_accepted.
Defined.

Lemma ex_classes_registered :
  register_classes (B := stub_backend) (P := stub_pipeline) [tt]
    ex_new_ledger = (ex_ledger, Ok tt).
Proof. vm_compute. reflexivity. Qed.

Lemma register_classes_publishes_witness :
  (forall k, is_Some (serialized_functions ex_new_ledger !! k) ->
             is_Some (serialized_functions ex_ledger !! k))
  /\ (forall k sf, serialized_functions ex_ledger !! k = Some sf ->
        serialized_functions ex_new_ledger !! k = Some sf \/
        exists c fname ser (j : nat),
          c ∈ [tt] /\ k = (qualified_name c, fname) /\
          public_functions (functions_values (assembly_storage ex_ledger) c)
            !! j = Some (fname, false, ser) /\
          ser (Z.of_nat j) = Ok sf)
  /\ (forall c fname ser (j : nat),
        c ∈ [tt] ->
        public_functions (functions_values (assembly_storage ex_ledger) c)
          !! j = Some (fname, false, ser) ->
        is_Some (serialized_functions ex_ledger !! (qualified_name c, fname))).
Proof.
  apply (register_classes_publishes (B := stub_backend) (P := stub_pipeline)
           [tt] ex_new_ledger ex_ledger).
  exact ex_classes_registered.
Defined.

Lemma register_classes_keeps_transaction_state_witness :
  same_transaction_state ex_new_ledger ex_ledger.
Proof.
  apply (register_classes_keeps_transaction_state
           (B := stub_backend) (P := stub_pipeline) [tt] ex_new_ledger
           ex_ledger (Ok tt)).
  exact ex_classes_registered.
Defined.

End LedgerMoreRuns.
